(** * InstantTrade Network: the storage layer and its invariants

    A shallow embedding of [itn_db_schema_v1.sql] (tables, CHECK / UNIQUE /
    FOREIGN KEY constraints, generated columns, rules, triggers and the
    [system_health] view) together with the executable fragments of the
    invariant catalogue (the [ALLOWED_TRANSITIONS] table and the pre-checks of
    INV-002, INV-101, INV-109 and INV-202). The pricing function and the
    consumption of a quote are not in the sources and follow the
    specification.

    Conventions.
    - [DECIMAL(15,2)] values are integers counting cents; [DECIMAL(5,4)]
      values count 1/10000; [DECIMAL(10,8)] values count 1/10^8;
      [DECIMAL(10,3)] values count 1/1000.
    - [TIMESTAMPTZ] values are integers counting microseconds.
    - A nullable column is an [option]; a value is as its column stores it.
    - A statement either returns a new database or raises; a raised error
      leaves the database as it was. *)

From Stdlib Require Import ZArith List String Bool Lia QArith Qabs.
Import ListNotations.
Local Open Scope string_scope.
Local Open Scope list_scope.
Local Open Scope Z_scope.

Set Implicit Arguments.

(* ================================================================== *)
(** ** Errors and results *)

Inductive error : Type :=
| CheckViolation (constraint : string)
| UniqueViolation (constraint : string)
| ForeignKeyViolation (constraint : string)
| StringTooLong (column : string)
| NumericOverflow (column : string)
| NoSuchRow (table : string)
| InsufficientPrivilege (object : string)
| RaisedException (message : string).

Inductive result (A : Type) : Type :=
| Ok (a : A)
| Err (e : error).
Arguments Ok {A} a.
Arguments Err {A} e.

Definition bind {A B : Type} (r : result A) (k : A -> result B) : result B :=
  match r with
  | Ok a => k a
  | Err e => Err e
  end.

(** [require b e] raises [e] unless [b] holds. *)
Definition require (b : bool) (e : error) : result unit :=
  if b then Ok tt else Err e.

Notation "x <- r ;; k" := (bind r (fun x => k))
  (at level 61, r at next level, right associativity).
Notation "r ;;; k" := (bind r (fun _ => k))
  (at level 61, right associativity).

Definition is_ok {A : Type} (r : result A) : bool :=
  match r with Ok _ => true | Err _ => false end.

(* ================================================================== *)
(** ** Fixed-point numbers *)

Module Decimal.

(** Rounding of the rational [n / d] (with [0 < d]) to the nearest integer,
    ties going away from zero, as PostgreSQL rounds [numeric]. *)
Definition round_half_away (n d : Z) : Z :=
  if 0 <=? n then (2 * n + d) / (2 * d)
  else - ((2 * (- n) + d) / (2 * d)).

(** [NUMERIC(p, s)] holds the scaled integers of at most [p] digits. *)
Definition fits (precision : Z) (x : Z) : bool :=
  Z.abs x <? 10 ^ precision.

(** [INTEGER] is a signed 32-bit number. *)
Definition fits_int4 (x : Z) : bool :=
  (- 2147483648 <=? x) && (x <=? 2147483647).

(** [usd d c] is the amount of [d] dollars and [c] cents. *)
Definition usd (dollars cents : Z) : Z := dollars * 100 + cents.

End Decimal.

(** Membership in a list of string literals: SQL's [x IN ('A', 'B', ...)]. *)
Definition in_list (x : string) (l : list string) : bool :=
  existsb (String.eqb x) l.

(** [VARCHAR(n)] refuses strings of more than [n] characters. The strings
    here are strings of one-byte characters, and a string is stored as it is
    written: PostgreSQL also takes a longer string whose excess is all
    spaces, cut to [n] characters, a case this model refuses. *)
Definition varchar (n : nat) (s : string) : bool :=
  Nat.leb (String.length s) n.

Definition varchar_opt (n : nat) (s : option string) : bool :=
  match s with
  | None => true
  | Some s => varchar n s
  end.

Definition timestamptz := Z.

Definition seconds (n : Z) : Z := n * 1000000.
Definition minutes (n : Z) : Z := seconds (60 * n).
Definition hours (n : Z) : Z := minutes (60 * n).

(* ================================================================== *)
(** ** Tables of [itn_core] and [itn_audit] *)

Module Account.

(** The columns named by the seed [INSERT]; the contact and address columns
    carry no constraint that any other table depends on. *)
Record t : Type := mk {
  id : string;
  account_type : string;
  name : string;
  email : string;
  status : string;
  kyc_status : string;
  balance : Z;
  credit_limit : option Z
}.

End Account.

Module Invoice.

Record t : Type := mk {
  id : string;
  supplier_id : string;
  buyer_id : string;
  amount : Z;
  currency : string;
  terms : Z;
  status : string;
  fraud_score : option Z;
  fraud_score_calculated_at : option timestamptz;
  invoice_hash : string;
  purchase_order_id : option string;
  notes : option string;
  created_at : timestamptz;
  updated_at : timestamptz;
  accepted_at : option timestamptz;
  settled_at : option timestamptz
}.

Definition set_status (st : string) (i : t) : t :=
  mk (id i) (supplier_id i) (buyer_id i) (amount i) (currency i) (terms i)
     st (fraud_score i) (fraud_score_calculated_at i) (invoice_hash i)
     (purchase_order_id i) (notes i) (created_at i) (updated_at i)
     (accepted_at i) (settled_at i).

Definition set_amount (a : Z) (i : t) : t :=
  mk (id i) (supplier_id i) (buyer_id i) a (currency i) (terms i)
     (status i) (fraud_score i) (fraud_score_calculated_at i) (invoice_hash i)
     (purchase_order_id i) (notes i) (created_at i) (updated_at i)
     (accepted_at i) (settled_at i).

Definition set_updated_at (now : timestamptz) (i : t) : t :=
  mk (id i) (supplier_id i) (buyer_id i) (amount i) (currency i) (terms i)
     (status i) (fraud_score i) (fraud_score_calculated_at i) (invoice_hash i)
     (purchase_order_id i) (notes i) (created_at i) now
     (accepted_at i) (settled_at i).

End Invoice.

Module LineItem.

(** The columns a statement may write. *)
Record cols : Type := mk_cols {
  id : string;
  invoice_id : string;
  description : string;
  quantity : Z;
  unit_price : Z;
  line_number : Z;
  created_at : timestamptz
}.

(** A stored row: the written columns and the generated [amount]. *)
Record t : Type := mk {
  base : cols;
  amount : Z
}.

End LineItem.

Module Settlement.

Record cols : Type := mk_cols {
  id : string;
  invoice_id : string;
  supplier_id : string;
  buyer_id : string;
  capital_provider_id : string;
  invoice_amount : Z;
  discount_rate : Z;
  buyer_cost : Z;
  started_at : timestamptz;
  completed_at : option timestamptz;
  status : string;
  rail_used : option string;
  created_at : timestamptz
}.

(** A stored row: the written columns and the two generated ones;
    [duration_seconds] counts milliseconds. *)
Record t : Type := mk {
  base : cols;
  capital_profit : Z;
  duration_seconds : option Z
}.

Definition complete (at_ : timestamptz) (st : string) (c : cols) : cols :=
  mk_cols (id c) (invoice_id c) (supplier_id c) (buyer_id c)
          (capital_provider_id c) (invoice_amount c) (discount_rate c)
          (buyer_cost c) (started_at c) (Some at_) st (rail_used c)
          (created_at c).

End Settlement.

Module Leg.

Record t : Type := mk {
  id : string;
  settlement_id : string;
  leg_type : string;
  account_id : string;
  amount : Z;
  transaction_id : string;
  rail_name : option string;
  executed_at : timestamptz
}.

End Leg.

Module Quote.

Record t : Type := mk {
  id : string;
  invoice_id : string;
  amount : Z;
  terms : Z;
  discount_rate : Z;
  total_cost : Z;
  created_at : timestamptz;
  expires_at : timestamptz;
  used : bool;
  used_at : option timestamptz
}.

Definition mark_used (now : timestamptz) (q : t) : t :=
  mk (id q) (invoice_id q) (amount q) (terms q) (discount_rate q)
     (total_cost q) (created_at q) (expires_at q) true (Some now).

End Quote.

Module Decision.

Record t : Type := mk {
  id : Z;
  decision_id : string;
  invariant_id : string;
  check_type : string;
  result : bool;
  action : string;
  state_snapshot : option string;
  error_message : option string;
  actor : option string;
  timestamp : timestamptz;
  signature : string;
  previous_record_hash : option string
}.

End Decision.

Record db : Type := mk_db {
  accounts : list Account.t;
  invoices : list Invoice.t;
  line_items : list LineItem.t;
  settlements : list Settlement.t;
  settlement_legs : list Leg.t;
  pricing_quotes : list Quote.t;
  decision_ledger : list Decision.t
}.

(** The seed accounts of the schema script. *)
Definition seed_accounts : list Account.t :=
  [ Account.mk "SUP-001" "SUPPLIER" "Acme Manufacturing"
      "finance@acme-mfg.com" "ACTIVE" "VERIFIED" (Decimal.usd 50000 0) None;
    Account.mk "SUP-002" "SUPPLIER" "Global Supplies Inc"
      "ap@globalsupplies.com" "ACTIVE" "VERIFIED" (Decimal.usd 25000 0) None;
    Account.mk "BUY-001" "BUYER" "TechCorp"
      "procurement@techcorp.com" "ACTIVE" "VERIFIED" (Decimal.usd 500000 0)
      (Some (Decimal.usd 1000000 0));
    Account.mk "BUY-002" "BUYER" "Risky Buyer Inc"
      "finance@riskybuyer.com" "SUSPENDED" "IN_REVIEW" (Decimal.usd 0 0)
      (Some (Decimal.usd 0 0));
    Account.mk "CAP-001" "CAPITAL_PROVIDER" "InstantTrade Capital"
      "ops@itn-capital.com" "ACTIVE" "VERIFIED" (Decimal.usd 10000000 0) None ].

(** The database right after the schema script has run. *)
Definition initial_db : db :=
  mk_db seed_accounts [] [] [] [] [] [].

(* ================================================================== *)
(** ** Row lookup and replacement *)

Section Rows.

Variable row : Type.
Variable key : row -> string.

Definition has_key (k : string) (r : row) : bool := String.eqb (key r) k.

Definition find_row (k : string) (t : list row) : option row :=
  find (has_key k) t.

Definition others (k : string) (t : list row) : list row :=
  filter (fun r => negb (has_key k r)) t.

(** The table after [UPDATE ... WHERE key = k] rewrote the row to [r']. *)
Definition replace_row (k : string) (r' : row) (t : list row) : list row :=
  others k t ++ [r'].

End Rows.

(* ================================================================== *)
(** ** Column types, CHECK constraints and generated columns *)

Module Invoices.
Import Invoice.

Definition columns_fit (i : t) : bool :=
  varchar 20 (id i) && varchar 20 (supplier_id i) && varchar 20 (buyer_id i)
  && Decimal.fits 15 (amount i) && varchar 3 (currency i)
  && Decimal.fits_int4 (terms i) && varchar 20 (status i)
  && match fraud_score i with None => true | Some s => Decimal.fits 5 s end
  && varchar 64 (invoice_hash i) && varchar_opt 100 (purchase_order_id i).

(** [CHECK (amount >= 100.00 AND amount <= 10000000.00)] -- INV-002 *)
Definition amount_check (i : t) : bool :=
  (Decimal.usd 100 0 <=? amount i) && (amount i <=? Decimal.usd 10000000 0).

Definition currency_check (i : t) : bool :=
  in_list (currency i) ["USD"; "EUR"; "GBP"; "JPY"].

(** [CHECK (terms IN (0, 15, 30, 45, 60, 90))] -- INV-007 *)
Definition terms_check (i : t) : bool :=
  existsb (Z.eqb (terms i)) [0; 15; 30; 45; 60; 90].

Definition status_values : list string :=
  ["PENDING"; "ACCEPTED"; "SETTLED"; "REJECTED"; "EXPIRED"; "FRAUD_REVIEW"].

Definition status_check (i : t) : bool :=
  in_list (status i) status_values.

Definition different_parties (i : t) : bool :=
  negb (String.eqb (supplier_id i) (buyer_id i)).

(** [fraud_score IS NULL OR (fraud_score >= 0 AND fraud_score <= 1)] *)
Definition valid_fraud_score (i : t) : bool :=
  match fraud_score i with
  | None => true
  | Some s => (0 <=? s) && (s <=? 10000)
  end.

End Invoices.

Module LineItems.
Import LineItem.

Definition columns_fit (c : cols) : bool :=
  varchar 20 (invoice_id c) && varchar 500 (description c)
  && Decimal.fits_int4 (quantity c) && Decimal.fits 15 (unit_price c)
  && Decimal.fits_int4 (line_number c).

Definition quantity_check (c : cols) : bool := 0 <? quantity c.
Definition unit_price_check (c : cols) : bool := 0 <? unit_price c.

(** [amount ... GENERATED ALWAYS AS (quantity * unit_price) STORED] *)
Definition generated_amount (c : cols) : Z := quantity c * unit_price c.

Definition stored (c : cols) : t := mk c (generated_amount c).

End LineItems.

Module Settlements.
Import Settlement.

Definition columns_fit (c : cols) : bool :=
  varchar 50 (id c) && varchar 20 (invoice_id c) && varchar 20 (supplier_id c)
  && varchar 20 (buyer_id c) && varchar 20 (capital_provider_id c)
  && Decimal.fits 15 (invoice_amount c) && Decimal.fits 10 (discount_rate c)
  && Decimal.fits 15 (buyer_cost c) && varchar 20 (status c)
  && varchar_opt 50 (rail_used c).

(** [capital_profit ... GENERATED ALWAYS AS (buyer_cost - invoice_amount)] *)
Definition generated_capital_profit (c : cols) : Z :=
  buyer_cost c - invoice_amount c.

(** [duration_seconds DECIMAL(10, 3) GENERATED ALWAYS AS
    (EXTRACT(EPOCH FROM (completed_at - started_at)))]: the difference in
    microseconds, rounded to milliseconds; NULL while [completed_at] is. *)
Definition generated_duration_seconds (c : cols) : option Z :=
  match completed_at c with
  | None => None
  | Some done => Some (Decimal.round_half_away (done - started_at c) 1000)
  end.

Definition stored (c : cols) : t :=
  mk c (generated_capital_profit c) (generated_duration_seconds c).

Definition generated_fit (s : t) : bool :=
  Decimal.fits 15 (capital_profit s)
  && match duration_seconds s with
     | None => true
     | Some d => Decimal.fits 10 d
     end.

Definition status_check (c : cols) : bool :=
  in_list (status c)
    ["PENDING"; "IN_PROGRESS"; "COMPLETED"; "FAILED"; "ROLLED_BACK"].

(** [CONSTRAINT settlement_duration_check
    CHECK (completed_at IS NULL OR duration_seconds < 5.0)] -- INV-201 *)
Definition settlement_duration_check (s : t) : bool :=
  match completed_at (base s) with
  | None => true
  | Some _ =>
      match duration_seconds s with
      | None => true
      | Some d => d <? 5000
      end
  end.

End Settlements.

Module Legs.
Import Leg.

Definition columns_fit (l : t) : bool :=
  varchar 50 (settlement_id l) && varchar 20 (leg_type l)
  && varchar 20 (account_id l) && Decimal.fits 15 (amount l)
  && varchar 100 (transaction_id l) && varchar_opt 50 (rail_name l).

Definition leg_types : list string := ["CREDIT"; "DEBIT"; "ADVANCE"].

Definition leg_type_check (l : t) : bool := in_list (leg_type l) leg_types.

Definition amount_check (l : t) : bool := 0 <? amount l.

(** Two rows clash on [UNIQUE(settlement_id, leg_type)]. *)
Definition same_slot (a b : t) : bool :=
  String.eqb (settlement_id a) (settlement_id b)
  && String.eqb (leg_type a) (leg_type b).

End Legs.

Module Quotes.
Import Quote.

Definition columns_fit (q : t) : bool :=
  varchar 20 (invoice_id q) && Decimal.fits 15 (amount q)
  && Decimal.fits_int4 (terms q) && Decimal.fits 10 (discount_rate q)
  && Decimal.fits 15 (total_cost q).

(** [CONSTRAINT quote_validity CHECK (expires_at > created_at)] *)
Definition quote_validity (q : t) : bool := created_at q <? expires_at q.

(** [CONSTRAINT quote_expiry_window
    CHECK (expires_at <= created_at + INTERVAL '5 minutes')] -- INV-109 *)
Definition quote_expiry_window (q : t) : bool :=
  expires_at q <=? created_at q + minutes 5.

End Quotes.

Module Decisions.
Import Decision.

Definition columns_fit (r : t) : bool :=
  varchar 50 (invariant_id r) && varchar 10 (check_type r)
  && varchar 20 (action r) && varchar_opt 100 (actor r)
  && varchar 64 (signature r) && varchar_opt 64 (previous_record_hash r).

Definition check_type_check (r : t) : bool :=
  in_list (check_type r) ["PRE"; "POST"].

Definition action_check (r : t) : bool :=
  in_list (action r) ["PROCEED"; "ROLLBACK"; "FREEZE"].

End Decisions.

(* ================================================================== *)
(** ** Statements *)

Definition with_invoices (t : list Invoice.t) (d : db) : db :=
  mk_db (accounts d) t (line_items d) (settlements d) (settlement_legs d)
        (pricing_quotes d) (decision_ledger d).

Definition with_line_items (t : list LineItem.t) (d : db) : db :=
  mk_db (accounts d) (invoices d) t (settlements d) (settlement_legs d)
        (pricing_quotes d) (decision_ledger d).

Definition with_settlements (t : list Settlement.t) (d : db) : db :=
  mk_db (accounts d) (invoices d) (line_items d) t (settlement_legs d)
        (pricing_quotes d) (decision_ledger d).

Definition with_settlement_legs (t : list Leg.t) (d : db) : db :=
  mk_db (accounts d) (invoices d) (line_items d) (settlements d) t
        (pricing_quotes d) (decision_ledger d).

Definition with_pricing_quotes (t : list Quote.t) (d : db) : db :=
  mk_db (accounts d) (invoices d) (line_items d) (settlements d)
        (settlement_legs d) t (decision_ledger d).

Definition with_decision_ledger (t : list Decision.t) (d : db) : db :=
  mk_db (accounts d) (invoices d) (line_items d) (settlements d)
        (settlement_legs d) (pricing_quotes d) t.

(** What a statement returns: the new database and the number of rows it
    affected. *)
Definition outcome : Type := (db * nat)%type.

Definition account_exists (d : db) (k : string) : bool :=
  existsb (has_key Account.id k) (accounts d).

Definition invoice_exists (d : db) (k : string) : bool :=
  existsb (has_key Invoice.id k) (invoices d).

Definition settlement_exists (d : db) (k : string) : bool :=
  existsb (has_key (fun s => Settlement.id (Settlement.base s)) k)
          (settlements d).

(** Rows of other tables that reference invoice [k]. *)
Definition invoice_referenced (d : db) (k : string) : bool :=
  existsb (fun li => String.eqb (LineItem.invoice_id (LineItem.base li)) k)
          (line_items d)
  || existsb (fun s => String.eqb (Settlement.invoice_id (Settlement.base s)) k)
             (settlements d)
  || existsb (fun q => String.eqb (Quote.invoice_id q) k) (pricing_quotes d).

Definition settlement_referenced (d : db) (k : string) : bool :=
  existsb (fun l => String.eqb (Leg.settlement_id l) k) (settlement_legs d).

Fixpoint for_each {A : Type} (f : A -> result unit) (l : list A)
  : result unit :=
  match l with
  | [] => Ok tt
  | a :: rest => f a ;;; for_each f rest
  end.

(** *** invoices *)

(** The checks a row of [invoices] passes before it is stored, [t] being the
    rows it must not clash with. A row is stored when it passes them all;
    when it fails several, the violation reported here is the first in the
    order below, which need not be the one PostgreSQL names. *)
Definition check_invoice (d : db) (t : list Invoice.t) (i : Invoice.t)
  : result unit :=
  require (Invoices.columns_fit i) (StringTooLong "invoices") ;;;
  require (Invoices.amount_check i) (CheckViolation "invoices_amount_check") ;;;
  require (Invoices.currency_check i)
          (CheckViolation "invoices_currency_check") ;;;
  require (Invoices.terms_check i) (CheckViolation "invoices_terms_check") ;;;
  require (Invoices.status_check i) (CheckViolation "invoices_status_check") ;;;
  require (Invoices.different_parties i) (CheckViolation "different_parties") ;;;
  require (Invoices.valid_fraud_score i)
          (CheckViolation "valid_fraud_score") ;;;
  require (negb (existsb (has_key Invoice.id (Invoice.id i)) t))
          (UniqueViolation "invoices_pkey") ;;;
  require (negb (existsb (has_key Invoice.invoice_hash (Invoice.invoice_hash i))
                         t))
          (UniqueViolation "invoices_invoice_hash_key") ;;;
  require (account_exists d (Invoice.supplier_id i))
          (ForeignKeyViolation "invoices_supplier_id_fkey") ;;;
  require (account_exists d (Invoice.buyer_id i))
          (ForeignKeyViolation "invoices_buyer_id_fkey").

Definition insert_invoice (d : db) (i : Invoice.t) : result outcome :=
  check_invoice d (invoices d) i ;;;
  Ok (with_invoices (invoices d ++ [i]) d, 1%nat).

(** [UPDATE itn_core.invoices SET ... WHERE id = k] at time [now]; the
    [invoices_updated_at] trigger stamps the new row before it is checked. *)
Definition update_invoice (d : db) (k : string) (now : timestamptz)
    (i : Invoice.t) : result outcome :=
  match find_row Invoice.id k (invoices d) with
  | None => Ok (d, 0%nat)
  | Some _ =>
      let new := Invoice.set_updated_at now i in
      let rest := others Invoice.id k (invoices d) in
      check_invoice d rest new ;;;
      require (String.eqb (Invoice.id new) k || negb (invoice_referenced d k))
              (ForeignKeyViolation "invoice_id_fkey") ;;;
      Ok (with_invoices (rest ++ [new]) d, 1%nat)
  end.

(** [UPDATE itn_core.invoices SET status = st WHERE id = k]. *)
Definition update_invoice_status (d : db) (k : string) (now : timestamptz)
    (st : string) : result outcome :=
  match find_row Invoice.id k (invoices d) with
  | None => Ok (d, 0%nat)
  | Some i => update_invoice d k now (Invoice.set_status st i)
  end.

(** *** line_items *)

Definition same_line (a b : LineItem.cols) : bool :=
  String.eqb (LineItem.invoice_id a) (LineItem.invoice_id b)
  && (LineItem.line_number a =? LineItem.line_number b).

Definition check_line_item (t : list LineItem.t) (c : LineItem.cols)
  : result unit :=
  require (LineItems.columns_fit c) (StringTooLong "line_items") ;;;
  require (Decimal.fits 15 (LineItems.generated_amount c))
          (NumericOverflow "amount") ;;;
  require (LineItems.quantity_check c)
          (CheckViolation "line_items_quantity_check") ;;;
  require (LineItems.unit_price_check c)
          (CheckViolation "line_items_unit_price_check") ;;;
  require (negb (existsb (has_key (fun r => LineItem.id (LineItem.base r))
                                  (LineItem.id c)) t))
          (UniqueViolation "line_items_pkey") ;;;
  require (negb (existsb (fun r => same_line (LineItem.base r) c) t))
          (UniqueViolation "line_items_invoice_id_line_number_key").

(** [SELECT COALESCE(SUM(amount), 0) FROM itn_core.line_items
    WHERE invoice_id = k] *)
Definition line_items_sum (d : db) (k : string) : Z :=
  fold_right Z.add 0
    (map LineItem.amount
       (filter (fun r => String.eqb (LineItem.invoice_id (LineItem.base r)) k)
               (line_items d))).

(** [SELECT amount FROM itn_core.invoices WHERE id = k] *)
Definition invoice_amount (d : db) (k : string) : option Z :=
  option_map Invoice.amount (find_row Invoice.id k (invoices d)).

(** The trigger function [validate_line_items_sum()], run on the database as
    the statement left it, for the row [new]. A missing invoice makes the
    comparison NULL, which does not raise. *)
Definition validate_line_items_sum (d : db) (new : LineItem.t) : result unit :=
  let k := LineItem.invoice_id (LineItem.base new) in
  let invoice_amount := invoice_amount d k in
  let line_items_sum := line_items_sum d k in
  require (Decimal.fits 15 line_items_sum) (NumericOverflow "line_items_sum") ;;;
  match invoice_amount with
  | None => Ok tt
  | Some invoice_amount =>
      if 1 <? Z.abs (line_items_sum - invoice_amount)
      then Err (RaisedException "INV-602 VIOLATION")
      else Ok tt
  end.

(** Rows are stored one after the other, each checked against the rows
    already there. *)
Fixpoint store_line_items (t : list LineItem.t) (rows : list LineItem.cols)
  : result (list LineItem.t) :=
  match rows with
  | [] => Ok t
  | c :: rest =>
      check_line_item t c ;;;
      store_line_items (t ++ [LineItems.stored c]) rest
  end.

(** The AFTER ... FOR EACH ROW triggers of [line_items], fired once the
    statement has written all its rows: the foreign key, then
    [validate_line_items]. The statement stands when every row passes both;
    when several fail, the violation reported here is the first in this
    order, which need not be the one PostgreSQL names. *)
Definition after_line_items (d' : db) (rows : list LineItem.cols)
  : result unit :=
  for_each (fun c => require (invoice_exists d' (LineItem.invoice_id c))
                             (ForeignKeyViolation "line_items_invoice_id_fkey"))
           rows ;;;
  for_each (fun c => validate_line_items_sum d' (LineItems.stored c)) rows.

(** [INSERT INTO itn_core.line_items (...) VALUES row, row, ...] *)
Definition insert_line_items (d : db) (rows : list LineItem.cols)
  : result outcome :=
  t' <- store_line_items (line_items d) rows ;;
  let d' := with_line_items t' d in
  after_line_items d' rows ;;;
  Ok (d', List.length rows).

(** The rows of the table rewritten one after the other: a row selected by
    [where_] becomes [set] of it, checked against the rows then in place.
    Returns the new table and the rows written. *)
Fixpoint rewrite_line_items (where_ : LineItem.t -> bool)
    (set : LineItem.t -> LineItem.cols) (done todo : list LineItem.t)
  : result (list LineItem.t * list LineItem.cols) :=
  match todo with
  | [] => Ok (done, [])
  | r :: rest =>
      if where_ r then
        check_line_item (done ++ rest) (set r) ;;;
        out <- rewrite_line_items where_ set
                 (done ++ [LineItems.stored (set r)]) rest ;;
        Ok (fst out, set r :: snd out)
      else rewrite_line_items where_ set (done ++ [r]) rest
  end.

(** [UPDATE itn_core.line_items SET ... WHERE ...]: the written columns of
    each selected row become [set] of the row. *)
Definition update_line_items (d : db) (where_ : LineItem.t -> bool)
    (set : LineItem.t -> LineItem.cols) : result outcome :=
  out <- rewrite_line_items where_ set [] (line_items d) ;;
  let d' := with_line_items (fst out) d in
  after_line_items d' (snd out) ;;;
  Ok (d', List.length (snd out)).

(** *** settlements *)

Definition settlement_id_of (s : Settlement.t) : string :=
  Settlement.id (Settlement.base s).

Definition settlement_invoice_of (s : Settlement.t) : string :=
  Settlement.invoice_id (Settlement.base s).

Definition check_settlement (d : db) (t : list Settlement.t)
    (c : Settlement.cols) : result unit :=
  let s := Settlements.stored c in
  require (Settlements.columns_fit c) (StringTooLong "settlements") ;;;
  require (Settlements.generated_fit s) (NumericOverflow "settlements") ;;;
  require (Settlements.status_check c)
          (CheckViolation "settlements_status_check") ;;;
  require (Settlements.settlement_duration_check s)
          (CheckViolation "settlement_duration_check") ;;;
  require (negb (existsb (has_key settlement_id_of (Settlement.id c)) t))
          (UniqueViolation "settlements_pkey") ;;;
  require (negb (existsb (has_key settlement_invoice_of
                                  (Settlement.invoice_id c)) t))
          (UniqueViolation "settlements_invoice_id_key") ;;;
  require (invoice_exists d (Settlement.invoice_id c))
          (ForeignKeyViolation "settlements_invoice_id_fkey") ;;;
  require (account_exists d (Settlement.supplier_id c))
          (ForeignKeyViolation "settlements_supplier_id_fkey") ;;;
  require (account_exists d (Settlement.buyer_id c))
          (ForeignKeyViolation "settlements_buyer_id_fkey") ;;;
  require (account_exists d (Settlement.capital_provider_id c))
          (ForeignKeyViolation "settlements_capital_provider_id_fkey").

Definition insert_settlement (d : db) (c : Settlement.cols) : result outcome :=
  check_settlement d (settlements d) c ;;;
  Ok (with_settlements (settlements d ++ [Settlements.stored c]) d, 1%nat).

(** [UPDATE itn_core.settlements SET ... WHERE id = k] *)
Definition update_settlement (d : db) (k : string) (c : Settlement.cols)
  : result outcome :=
  match find_row settlement_id_of k (settlements d) with
  | None => Ok (d, 0%nat)
  | Some _ =>
      let rest := others settlement_id_of k (settlements d) in
      check_settlement d rest c ;;;
      require (String.eqb (Settlement.id c) k
               || negb (settlement_referenced d k))
              (ForeignKeyViolation "settlement_legs_settlement_id_fkey") ;;;
      Ok (with_settlements (rest ++ [Settlements.stored c]) d, 1%nat)
  end.

(** [UPDATE itn_core.settlements SET completed_at = at_, status = st
    WHERE id = k] *)
Definition complete_settlement (d : db) (k : string) (at_ : timestamptz)
    (st : string) : result outcome :=
  match find_row settlement_id_of k (settlements d) with
  | None => Ok (d, 0%nat)
  | Some s =>
      update_settlement d k (Settlement.complete at_ st (Settlement.base s))
  end.

(** *** settlement_legs *)

Definition check_leg (d : db) (t : list Leg.t) (l : Leg.t) : result unit :=
  require (Legs.columns_fit l) (StringTooLong "settlement_legs") ;;;
  require (Legs.leg_type_check l)
          (CheckViolation "settlement_legs_leg_type_check") ;;;
  require (Legs.amount_check l)
          (CheckViolation "settlement_legs_amount_check") ;;;
  require (negb (existsb (has_key Leg.id (Leg.id l)) t))
          (UniqueViolation "settlement_legs_pkey") ;;;
  require (negb (existsb (Legs.same_slot l) t))
          (UniqueViolation "settlement_legs_settlement_id_leg_type_key") ;;;
  require (settlement_exists d (Leg.settlement_id l))
          (ForeignKeyViolation "settlement_legs_settlement_id_fkey") ;;;
  require (account_exists d (Leg.account_id l))
          (ForeignKeyViolation "settlement_legs_account_id_fkey").

Definition insert_leg (d : db) (l : Leg.t) : result outcome :=
  check_leg d (settlement_legs d) l ;;;
  Ok (with_settlement_legs (settlement_legs d ++ [l]) d, 1%nat).

(** [UPDATE itn_core.settlement_legs SET ... WHERE id = k] *)
Definition update_leg (d : db) (k : string) (l : Leg.t) : result outcome :=
  match find_row Leg.id k (settlement_legs d) with
  | None => Ok (d, 0%nat)
  | Some _ =>
      let rest := others Leg.id k (settlement_legs d) in
      check_leg d rest l ;;;
      Ok (with_settlement_legs (rest ++ [l]) d, 1%nat)
  end.

(** *** pricing_quotes *)

Definition check_quote (d : db) (t : list Quote.t) (q : Quote.t)
  : result unit :=
  require (Quotes.columns_fit q) (StringTooLong "pricing_quotes") ;;;
  require (Quotes.quote_validity q) (CheckViolation "quote_validity") ;;;
  require (Quotes.quote_expiry_window q)
          (CheckViolation "quote_expiry_window") ;;;
  require (negb (existsb (has_key Quote.id (Quote.id q)) t))
          (UniqueViolation "pricing_quotes_pkey") ;;;
  require (invoice_exists d (Quote.invoice_id q))
          (ForeignKeyViolation "pricing_quotes_invoice_id_fkey").

Definition insert_quote (d : db) (q : Quote.t) : result outcome :=
  check_quote d (pricing_quotes d) q ;;;
  Ok (with_pricing_quotes (pricing_quotes d ++ [q]) d, 1%nat).

(** [UPDATE itn_core.pricing_quotes SET ... WHERE id = k] *)
Definition update_quote (d : db) (k : string) (q : Quote.t) : result outcome :=
  match find_row Quote.id k (pricing_quotes d) with
  | None => Ok (d, 0%nat)
  | Some _ =>
      let rest := others Quote.id k (pricing_quotes d) in
      check_quote d rest q ;;;
      Ok (with_pricing_quotes (rest ++ [q]) d, 1%nat)
  end.

(** *** decision_ledger and its rules *)

Inductive event : Type := ON_INSERT | ON_UPDATE | ON_DELETE.

Definition event_eqb (a b : event) : bool :=
  match a, b with
  | ON_INSERT, ON_INSERT | ON_UPDATE, ON_UPDATE | ON_DELETE, ON_DELETE => true
  | _, _ => false
  end.

(** [CREATE RULE name AS ON event TO table DO INSTEAD NOTHING] *)
Record rule : Type := mk_rule {
  rule_name : string;
  rule_event : event;
  rule_table : string
}.

Definition rules : list rule :=
  [ mk_rule "decision_ledger_no_update" ON_UPDATE "itn_audit.decision_ledger";
    mk_rule "decision_ledger_no_delete" ON_DELETE "itn_audit.decision_ledger" ].

(** A statement on [table] is rewritten to nothing when a rule answers its
    event. *)
Definition instead_nothing (ev : event) (table : string) : bool :=
  existsb (fun r => event_eqb (rule_event r) ev
                    && String.eqb (rule_table r) table) rules.

Definition decision_key (r : Decision.t) (k : Z) : bool := Decision.id r =? k.

Definition check_decision (t : list Decision.t) (r : Decision.t)
  : result unit :=
  require (Decisions.columns_fit r) (StringTooLong "decision_ledger") ;;;
  require (Decisions.check_type_check r)
          (CheckViolation "decision_ledger_check_type_check") ;;;
  require (Decisions.action_check r)
          (CheckViolation "decision_ledger_action_check") ;;;
  require (negb (existsb (fun x => decision_key x (Decision.id r)) t))
          (UniqueViolation "decision_ledger_pkey").

(** The rows of [t] rewritten one after the other, each new row checked
    against the rows already in place. *)
Fixpoint rewrite_decisions (where_ : Decision.t -> bool)
    (set : Decision.t -> Decision.t) (done todo : list Decision.t)
  : result (list Decision.t * nat) :=
  match todo with
  | [] => Ok (done, 0%nat)
  | r :: rest =>
      if where_ r then
        check_decision (done ++ rest) (set r) ;;;
        out <- rewrite_decisions where_ set (done ++ [set r]) rest ;;
        Ok (fst out, S (snd out))
      else rewrite_decisions where_ set (done ++ [r]) rest
  end.

Definition insert_decision (d : db) (r : Decision.t) : result outcome :=
  if instead_nothing ON_INSERT "itn_audit.decision_ledger" then Ok (d, 0%nat)
  else
    check_decision (decision_ledger d) r ;;;
    Ok (with_decision_ledger (decision_ledger d ++ [r]) d, 1%nat).

(** [UPDATE itn_audit.decision_ledger SET ... WHERE ...] *)
Definition update_decisions (d : db) (where_ : Decision.t -> bool)
    (set : Decision.t -> Decision.t) : result outcome :=
  if instead_nothing ON_UPDATE "itn_audit.decision_ledger" then Ok (d, 0%nat)
  else
    out <- rewrite_decisions where_ set [] (decision_ledger d) ;;
    Ok (with_decision_ledger (fst out) d, snd out).

(** [DELETE FROM itn_audit.decision_ledger WHERE ...] *)
Definition delete_decisions (d : db) (where_ : Decision.t -> bool)
  : result outcome :=
  if instead_nothing ON_DELETE "itn_audit.decision_ledger" then Ok (d, 0%nat)
  else
    let kept := filter (fun r => negb (where_ r)) (decision_ledger d) in
    Ok (with_decision_ledger kept d,
        (List.length (decision_ledger d) - List.length kept)%nat).

(** *** Statements and scripts

    The statements the application role is granted on the tables above:
    INSERT and UPDATE on [itn_core], INSERT on the decision ledger; and the
    UPDATE and DELETE that the ledger's rules answer. An UPDATE of
    [invoices], [settlements], [settlement_legs] or [pricing_quotes] rewrites
    the row of one key; one that rewrites several rows is the script of its
    single-row updates as far as the constraints go. The [accounts] table
    keeps its seed rows. *)

Inductive stmt : Type :=
| InsertInvoice (i : Invoice.t)
| UpdateInvoice (k : string) (now : timestamptz) (i : Invoice.t)
| InsertLineItems (rows : list LineItem.cols)
| UpdateLineItems (where_ : LineItem.t -> bool)
                  (set : LineItem.t -> LineItem.cols)
| InsertSettlement (c : Settlement.cols)
| UpdateSettlement (k : string) (c : Settlement.cols)
| InsertLeg (l : Leg.t)
| UpdateLeg (k : string) (l : Leg.t)
| InsertQuote (q : Quote.t)
| UpdateQuote (k : string) (q : Quote.t)
| InsertDecision (r : Decision.t)
| UpdateDecisions (where_ : Decision.t -> bool)
                  (set : Decision.t -> Decision.t)
| DeleteDecisions (where_ : Decision.t -> bool).

Definition exec (d : db) (s : stmt) : result outcome :=
  match s with
  | InsertInvoice i => insert_invoice d i
  | UpdateInvoice k now i => update_invoice d k now i
  | InsertLineItems rows => insert_line_items d rows
  | UpdateLineItems w f => update_line_items d w f
  | InsertSettlement c => insert_settlement d c
  | UpdateSettlement k c => update_settlement d k c
  | InsertLeg l => insert_leg d l
  | UpdateLeg k l => update_leg d k l
  | InsertQuote q => insert_quote d q
  | UpdateQuote k q => update_quote d k q
  | InsertDecision r => insert_decision d r
  | UpdateDecisions w f => update_decisions d w f
  | DeleteDecisions w => delete_decisions d w
  end.

(** The database after a statement: a statement that raises is rolled back
    and leaves no trace. *)
Definition after (d : db) (s : stmt) : db :=
  match exec d s with
  | Ok (d', _) => d'
  | Err _ => d
  end.

(** The database after a script run statement by statement. *)
Definition run (d : db) (script : list stmt) : db :=
  fold_left after script d.

(** The states the modelled statements can reach from the seeded schema. *)
Definition reachable (d : db) : Prop :=
  exists script, d = run initial_db script.

(* ================================================================== *)
(** ** The [system_health] view *)

Module Health.

(** [SELECT COALESCE(SUM(amount), 0) FROM itn_core.settlement_legs
    WHERE leg_type = ty] *)
Definition sum_legs (ty : string) (d : db) : Z :=
  fold_right Z.add 0
    (map Leg.amount
       (filter (fun l => String.eqb (Leg.leg_type l) ty) (settlement_legs d))).

Definition count {A : Type} (p : A -> bool) (t : list A) : nat :=
  List.length (filter p t).

(** The columns of the view that are counts or ledger sums; [health_score]
    and [avg_settlement_time] are [numeric] quotients and are left out. *)
Record system_health : Type := mk {
  total_invoices : nat;
  settled_invoices : nat;
  completed_settlements : nat;
  total_invariant_checks : nat;
  passed_checks : nat;
  failed_checks : nat;
  total_credits : Z;
  total_debits : Z;
  ledger_balanced : bool
}.

Definition view (d : db) : system_health :=
  mk (List.length (invoices d))
     (count (fun i => String.eqb (Invoice.status i) "SETTLED") (invoices d))
     (count (fun s => String.eqb (Settlement.status (Settlement.base s))
                                 "COMPLETED") (settlements d))
     (List.length (decision_ledger d))
     (count (fun r => Decision.result r) (decision_ledger d))
     (count (fun r => negb (Decision.result r)) (decision_ledger d))
     (sum_legs "CREDIT" d)
     (sum_legs "DEBIT" d)
     (Z.abs (sum_legs "CREDIT" d - sum_legs "DEBIT" d) <? 1).

End Health.

(* ================================================================== *)
(** ** The invariant catalogue *)

(** INV-101: the transition table. *)
Definition ALLOWED_TRANSITIONS : list (string * list string) :=
  [ ("PENDING", ["ACCEPTED"; "REJECTED"; "EXPIRED"; "FRAUD_REVIEW"]);
    ("ACCEPTED", ["SETTLED"; "FAILED"]);
    ("FRAUD_REVIEW", ["ACCEPTED"; "REJECTED"]);
    ("SETTLED", []);
    ("REJECTED", []);
    ("EXPIRED", []);
    ("FAILED", ["REJECTED"]) ].

(** [ALLOWED_TRANSITIONS[current_status]]; a status that is no key of the
    table allows nothing. *)
Definition allowed_transitions (current_status : string) : list string :=
  match find (fun e => String.eqb (fst e) current_status) ALLOWED_TRANSITIONS with
  | Some e => snd e
  | None => []
  end.

(** INV-101 pre-check: the transition is valid per the state machine. *)
Definition inv_101_pre_check (current_status new_status : string) : bool :=
  in_list new_status (allowed_transitions current_status).

(** INV-002 pre-check: [amount >= 100 AND amount <= 10_000_000]. *)
Definition inv_002_pre_check (amount : Z) : bool :=
  (Decimal.usd 100 0 <=? amount) && (amount <=? Decimal.usd 10000000 0).

(** INV-202 pre-check:
    [fraud_score_calculated_at > (now() - 24 hours) AND fraud_score < 0.75].
    A NULL on either side makes the conjunction not true. *)
Definition inv_202_pre_check (now : timestamptz) (i : Invoice.t) : bool :=
  match Invoice.fraud_score_calculated_at i, Invoice.fraud_score i with
  | Some calculated_at, Some score =>
      (now - hours 24 <? calculated_at) && (score <? 7500)
  | _, _ => false
  end.





(** INV-109 pre-check: [pricing_quote.created_at > (now() - 5 minutes)]. *)
Definition inv_109_pre_check (now : timestamptz) (q : Quote.t) : bool :=
  now - minutes 5 <? Quote.created_at q.

(* ================================================================== *)
(** ** Pricing and quote consumption *)

Module Pricing.

(** The scale of [discount_rate DECIMAL(10, 8)]. *)
Definition rate_scale : Z := 10 ^ 8.

(** The exact cost [amount * (1 + discount_rate * terms / 365)] as the
    fraction [cost_num / cost_den], in the unit of [amount]. *)
Definition cost_num (amount discount_rate terms : Z) : Z :=
  amount * (365 * rate_scale + discount_rate * terms).

Definition cost_den : Z := 365 * rate_scale.

(** Modelled from the spec: the pricing function ([calculate_expected_cost]
    is called by the guarantee tests but defined nowhere in the sources):
    [total_cost = amount * (1 + discount_rate * terms / 365)], rounded
    half-away-from-zero to two decimal places. [amount] and the result count
    cents, [discount_rate] counts 1/10^8, [terms] counts days. *)
Definition total_cost (amount discount_rate terms : Z) : Z :=
  Decimal.round_half_away (cost_num amount discount_rate terms) cost_den.

(** Modelled from the spec: the acceptance pre-check on the quote ("quote
    exists and unexpired and unused"). The age test is the INV-109 pre-check
    of the catalogue and the expiry test is [expires_at > now()]; the sources
    have the [used] column but no check of it. *)
Definition quote_pre_check (now : timestamptz) (q : Quote.t) : bool :=
  inv_109_pre_check now q && (now <? Quote.expires_at q)
  && negb (Quote.used q).

(** Modelled from the spec: consuming quote [k] at acceptance ("a stale or
    already-consumed quote fails the pre-check"; "a quote is consumable at
    most once"): the pre-check, then
    [UPDATE pricing_quotes SET used = TRUE, used_at = now WHERE id = k]. *)
Definition consume_quote (d : db) (k : string) (now : timestamptz)
  : result outcome :=
  match find_row Quote.id k (pricing_quotes d) with
  | None => Err (NoSuchRow "pricing_quotes")
  | Some q =>
      require (quote_pre_check now q) (RaisedException "stale-quote") ;;;
      update_quote d k (Quote.mark_used now q)
  end.

(** Modelled from the spec: what happens to the database over time, the
    statements of the schema and the consumptions of quotes at acceptance. *)
Inductive step : Type :=
| Statement (s : stmt)
| Consume (k : string) (now : timestamptz).

(** Modelled from the spec: a step runs the statement, or consumes the
    quote. *)
Definition step_result (d : db) (st : step) : result outcome :=
  match st with
  | Statement s => exec d s
  | Consume k now => consume_quote d k now
  end.

(** Quote [k] is stored and marked as used. *)
Definition used_up (k : string) (d : db) : Prop :=
  exists q, find_row Quote.id k (pricing_quotes d) = Some q
            /\ Quote.used q = true.

(** The step is a consumption of quote [k]. *)
Definition consumes (k : string) (st : step) : bool :=
  match st with
  | Consume k' _ => String.eqb k' k
  | Statement _ => false
  end.

(** The step is an [UPDATE] of the row of quote [k]. *)
Definition rewrites_quote (k : string) (st : step) : bool :=
  match st with
  | Statement (UpdateQuote k' _) => String.eqb k' k
  | _ => false
  end.

(** How many consumptions of quote [k] succeed when [steps] run from [d];
    a step that raises leaves the database as it was. *)
Fixpoint consumed_times (k : string) (d : db) (steps : list step) : nat :=
  match steps with
  | [] => 0%nat
  | st :: rest =>
      match step_result d st with
      | Ok (d', _) =>
          ((if consumes k st then 1 else 0) + consumed_times k d' rest)%nat
      | Err _ => consumed_times k d rest
      end
  end.

End Pricing.

(* ================================================================== *)
(** ** Concrete rows: the happy-path invoice of 50 000.00 at 30 days *)

Module Scenario.

Definition invoice (status : string) (amount : Z) : Invoice.t :=
  Invoice.mk "INV-001" "SUP-001" "BUY-001" amount "USD" 30 status
             (Some 6000) (Some 0) "hash-001" None None 0 0 None None.


Definition settlement (completed_at : option timestamptz) (status : string)
  : Settlement.cols :=
  Settlement.mk_cols "STL-001" "INV-001" "SUP-001" "BUY-001" "CAP-001"
                     (Decimal.usd 50000 0) 6000000 (Decimal.usd 50246 58)
                     0 completed_at status None 0.

Definition leg (id leg_type account : string) (amount : Z) : Leg.t :=
  Leg.mk id "STL-001" leg_type account amount ("tx-" ++ id)%string None 0.

Definition quote (created_at expires_at : timestamptz) (used : bool)
  : Quote.t :=
  Quote.mk "Q-001" "INV-001" (Decimal.usd 50000 0) 30 6000000
           (Decimal.usd 50246 58) created_at expires_at used None.

Definition line (id : string) (line_number quantity unit_price : Z)
  : LineItem.cols :=
  LineItem.mk_cols id "INV-001" "widgets" quantity unit_price line_number 0.

Definition decision (id : Z) (result : bool) : Decision.t :=
  Decision.mk id "d-1" "inv_201_settlement_speed" "POST" result "PROCEED"
              None None (Some "system:settlement_service") 0 "sig" None.

(** An accepted invoice with its settlement under way. *)
Definition in_progress : db :=
  run initial_db
      [ InsertInvoice (invoice "ACCEPTED" (Decimal.usd 50000 0));
        InsertSettlement (settlement None "IN_PROGRESS") ].

(** The same with three legs of the given amounts. *)
Definition with_legs (credit debit advance : Z) : db :=
  run in_progress
      [ InsertLeg (leg "L1" "CREDIT" "SUP-001" credit);
        InsertLeg (leg "L2" "DEBIT" "BUY-001" debit);
        InsertLeg (leg "L3" "ADVANCE" "CAP-001" advance) ].

(** The settlement recorded as completed 4 s after its start. *)
Definition completed_in_time : db :=
  run in_progress
      [ UpdateSettlement "STL-001" (settlement (Some (seconds 4)) "COMPLETED") ].

(** Three line items of 49 999.99, 0.01 and 0.01: every prefix is within a
    cent of the invoice amount of 50 000.00. *)
Definition three_lines : list LineItem.cols :=
  [ line "a" 1 1 (Decimal.usd 49999 99);
    line "b" 2 1 (Decimal.usd 0 1);
    line "c" 3 1 (Decimal.usd 0 1) ].

(** The happy path: the supplier is credited 50 000.00, the buyer debited
    50 246.58, the capital provider's leg is 246.58. *)
Definition happy_path : db :=
  with_legs (Decimal.usd 50000 0) (Decimal.usd 50246 58) (Decimal.usd 246 58).

(** The buyer pays 30 000.00 at once and the capital provider advances the
    remaining 20 000.00 of the 50 000.00 credited to the supplier. *)
Definition advance_fills_gap : db :=
  with_legs (Decimal.usd 50000 0) (Decimal.usd 30000 0) (Decimal.usd 20000 0).

(** Three legs of 50 000.00 each. *)
Definition advance_on_top : db :=
  with_legs (Decimal.usd 50000 0) (Decimal.usd 50000 0) (Decimal.usd 50000 0).

End Scenario.

(* ================================================================== *)
(** ** Notions the statements below are phrased with *)

(** What every stored row satisfies. *)

Definition invoice_row_ok (i : Invoice.t) : Prop :=
  Invoices.status_check i = true /\ Invoices.amount_check i = true.

Definition line_item_row_ok (r : LineItem.t) : Prop :=
  r = LineItems.stored (LineItem.base r)
  /\ LineItems.quantity_check (LineItem.base r) = true
  /\ LineItems.unit_price_check (LineItem.base r) = true.

Definition settlement_row_ok (s : Settlement.t) : Prop :=
  s = Settlements.stored (Settlement.base s)
  /\ Settlements.settlement_duration_check s = true.

Definition leg_row_ok (l : Leg.t) : Prop :=
  Legs.leg_type_check l = true /\ Legs.amount_check l = true.

Definition quote_row_ok (q : Quote.t) : Prop :=
  Quotes.quote_validity q = true /\ Quotes.quote_expiry_window q = true.

(** The pair that [UNIQUE(settlement_id, leg_type)] keeps distinct. *)
Definition slot (l : Leg.t) : string * string :=
  (Leg.settlement_id l, Leg.leg_type l).

Record consistent (d : db) : Prop := mk_consistent {
  invoices_rows : Forall invoice_row_ok (invoices d);
  line_items_rows : Forall line_item_row_ok (line_items d);
  settlements_rows : Forall settlement_row_ok (settlements d);
  settlement_once : NoDup (map settlement_invoice_of (settlements d));
  legs_rows : Forall leg_row_ok (settlement_legs d);
  legs_slots : NoDup (map slot (settlement_legs d));
  quotes_rows : Forall quote_row_ok (pricing_quotes d)
}.

(** The settlement rows of invoice [k], the leg rows of settlement [k], and
    those of one leg type. *)
Definition settlements_of_invoice (d : db) (k : string) : list Settlement.t :=
  filter (has_key settlement_invoice_of k) (settlements d).

Definition legs_of_settlement (d : db) (k : string) : list Leg.t :=
  filter (has_key Leg.settlement_id k) (settlement_legs d).

Definition legs_of_type (d : db) (k ty : string) : list Leg.t :=
  filter (has_key Leg.leg_type ty) (legs_of_settlement d k).

(** The cost formula over the rationals, in cents:
    [amount * (1 + discount_rate * terms / 365)]. *)
Definition exact_cost (amount discount_rate terms : Z) : Q :=
  (inject_Z amount
   * (1 + (discount_rate # 100000000) * inject_Z terms / 365))%Q.

(** The line items of invoice [k] sum to its amount within one cent. *)
Definition within_a_cent (d : db) (k : string) : Prop :=
  exists a, invoice_amount d k = Some a
            /\ Z.abs (line_items_sum d k - a) <= 1.

(** The sum of the amounts generated for [rows]. *)
Definition generated_total (rows : list LineItem.cols) : Z :=
  fold_right Z.add 0 (map LineItems.generated_amount rows).

(** A script in which no statement raises. *)
Fixpoint exec_all (d : db) (script : list stmt) : result db :=
  match script with
  | [] => Ok d
  | s :: rest => o <- exec d s ;; exec_all (fst o) rest
  end.

(** One single-row INSERT per line item. *)
Definition one_by_one (rows : list LineItem.cols) : list stmt :=
  map (fun c => InsertLineItems [c]) rows.

(* ================================================================== *)
(** ** Keys, references and the checks of the catalogue *)

Definition line_item_id_of (r : LineItem.t) : string :=
  LineItem.id (LineItem.base r).

(** The pair that [UNIQUE(invoice_id, line_number)] keeps distinct. *)
Definition line_key (c : LineItem.cols) : string * Z :=
  (LineItem.invoice_id c, LineItem.line_number c).

(** Every column type and CHECK constraint of [invoices], on one row. *)
Definition invoice_checks (i : Invoice.t) : bool :=
  Invoices.columns_fit i && Invoices.amount_check i
  && Invoices.currency_check i && Invoices.terms_check i
  && Invoices.status_check i && Invoices.different_parties i
  && Invoices.valid_fraud_score i.

(** The primary keys and UNIQUE constraints of the modelled tables. *)
Record keyed (d : db) : Prop := mk_keyed {
  invoice_ids : NoDup (map Invoice.id (invoices d));
  invoice_hashes : NoDup (map Invoice.invoice_hash (invoices d));
  line_item_ids : NoDup (map line_item_id_of (line_items d));
  line_item_lines :
    NoDup (map (fun r => line_key (LineItem.base r)) (line_items d));
  settlement_ids : NoDup (map settlement_id_of (settlements d));
  leg_ids : NoDup (map Leg.id (settlement_legs d));
  quote_ids : NoDup (map Quote.id (pricing_quotes d));
  decision_ids : NoDup (map Decision.id (decision_ledger d))
}.

Definition settlement_refs (d : db) (s : Settlement.t) : Prop :=
  invoice_exists d (settlement_invoice_of s) = true
  /\ account_exists d (Settlement.supplier_id (Settlement.base s)) = true
  /\ account_exists d (Settlement.buyer_id (Settlement.base s)) = true
  /\ account_exists d (Settlement.capital_provider_id (Settlement.base s))
     = true.

(** The row checks of [invoices] and the FOREIGN KEY constraints. *)
Record linked (d : db) : Prop := mk_linked {
  accounts_seeded : accounts d = seed_accounts;
  invoices_checked : Forall (fun i => invoice_checks i = true) (invoices d);
  invoice_parties :
    Forall (fun i => account_exists d (Invoice.supplier_id i) = true
                     /\ account_exists d (Invoice.buyer_id i) = true)
           (invoices d);
  line_item_invoices :
    Forall (fun r => invoice_exists d (LineItem.invoice_id (LineItem.base r))
                     = true)
           (line_items d);
  settlement_links : Forall (settlement_refs d) (settlements d);
  leg_links :
    Forall (fun l => settlement_exists d (Leg.settlement_id l) = true
                     /\ account_exists d (Leg.account_id l) = true)
           (settlement_legs d);
  quote_invoices :
    Forall (fun q => invoice_exists d (Quote.invoice_id q) = true)
           (pricing_quotes d)
}.

(** [SELECT COUNT( * ) FROM t WHERE p] *)
Definition count_rows {A : Type} (p : A -> bool) (t : list A) : nat :=
  List.length (filter p t).

(** INV-001 pre-check: no invoice has the id; post-check: exactly one has. *)
Definition inv_001_pre_check (d : db) (invoice_id : string) : bool :=
  Nat.eqb (count_rows (has_key Invoice.id invoice_id) (invoices d)) 0.

Definition inv_001_post_check (d : db) (invoice_id : string) : bool :=
  Nat.eqb (count_rows (has_key Invoice.id invoice_id) (invoices d)) 1.

(** INV-004 pre-check: no invoice has the hash; post-check: exactly one. *)
Definition inv_004_pre_check (d : db) (hash : string) : bool :=
  Nat.eqb (count_rows (has_key Invoice.invoice_hash hash) (invoices d)) 0.

Definition inv_004_post_check (d : db) (hash : string) : bool :=
  Nat.eqb (count_rows (has_key Invoice.invoice_hash hash) (invoices d)) 1.

(** INV-006 pre-check:
    [SELECT COUNT( * ) FROM settlements WHERE invoice_id={invoice_id}] is 0;
    post-check: it is 1. *)
Definition inv_006_pre_check (d : db) (invoice_id : string) : bool :=
  Nat.eqb (count_rows (has_key settlement_invoice_of invoice_id)
                      (settlements d)) 0.

Definition inv_006_post_check (d : db) (invoice_id : string) : bool :=
  Nat.eqb (count_rows (has_key settlement_invoice_of invoice_id)
                      (settlements d)) 1.

(** INV-007 pre-check: [terms IN (0, 15, 30, 45, 60, 90)]. *)
Definition inv_007_pre_check (terms : Z) : bool :=
  existsb (Z.eqb terms) [0; 15; 30; 45; 60; 90].

(** INV-105 pre-check:
    [current_status NOT IN ('SETTLED', 'REJECTED', 'EXPIRED')]. *)
Definition inv_105_pre_check (current_status : string) : bool :=
  negb (in_list current_status ["SETTLED"; "REJECTED"; "EXPIRED"]).

(** F1, [detect_limbo]: the invoices whose status is none of the valid ones;
    the detector raises when there is any. *)
Definition valid_statuses : list string :=
  ["PENDING"; "ACCEPTED"; "SETTLED"; "REJECTED"; "FRAUD_REVIEW"; "EXPIRED"].

Definition limbo_invoices (d : db) : list Invoice.t :=
  filter (fun inv => negb (in_list (Invoice.status inv) valid_statuses))
         (invoices d).

Definition detect_limbo (d : db) : result unit :=
  match limbo_invoices d with
  | [] => Ok tt
  | _ :: _ => Err (RaisedException "Limbo state detected")
  end.

From Stdlib Require Import Permutation.

(** The view [itn_core.active_invoices]. It has no [ORDER BY]: the list
    [view] gives its rows in one order among those a query may return them
    in, and what is stated of it is stated up to that order. *)
Module ActiveInvoices.

Record t : Type := mk {
  invoice : Invoice.t;
  supplier_name : string;
  buyer_name : string;
  calculated_amount : option Z
}.

(** [SELECT SUM(amount) FROM itn_core.line_items WHERE invoice_id = k]:
    NULL when no row is selected. *)
Definition calculated (d : db) (k : string) : option Z :=
  match filter (fun r => String.eqb (LineItem.invoice_id (LineItem.base r)) k)
               (line_items d) with
  | [] => None
  | rows => Some (fold_right Z.add 0 (map LineItem.amount rows))
  end.

(** The join of each invoice with the accounts of its supplier and of its
    buyer, kept when the invoice is PENDING or ACCEPTED. *)
Definition view (d : db) : list t :=
  flat_map
    (fun i =>
       flat_map
         (fun a_supplier =>
            flat_map
              (fun a_buyer =>
                 if in_list (Invoice.status i) ["PENDING"; "ACCEPTED"]
                 then [mk i (Account.name a_supplier) (Account.name a_buyer)
                          (calculated d (Invoice.id i))]
                 else [])
              (filter (has_key Account.id (Invoice.buyer_id i)) (accounts d)))
         (filter (has_key Account.id (Invoice.supplier_id i)) (accounts d)))
    (invoices d).

End ActiveInvoices.

(* ================================================================== *)
(** ** Chains of status transitions *)

(** A sequence of statuses each of which INV-101 allows after the one
    before. *)
Fixpoint transition_chain (statuses : list string) : Prop :=
  match statuses with
  | [] => True
  | from :: rest =>
      match rest with
      | [] => True
      | to :: _ => inv_101_pre_check from to = true /\ transition_chain rest
      end
  end.

(** How many transitions a status still has ahead of it at most. *)
Definition transitions_left (status : string) : nat :=
  if String.eqb status "PENDING" then 4
  else if String.eqb status "FRAUD_REVIEW" then 3
  else if String.eqb status "ACCEPTED" then 2
  else if String.eqb status "FAILED" then 1
  else 0.

(* ================================================================== *)
(** ** The dependency graph of the invariants ([detect_cycles]) *)

(** What [detect_cycles] reads of an invariant: its id and the ids it
    depends on. *)
Module Invariant.
Record t := mk {
  id           : string;
  dependencies : list string
}.
End Invariant.

(** The exceptions the traversal can raise: [get_invariant] finds nothing
    under the id, or [rec_stack.remove] is given an id the set lacks. *)
Inductive exception :=
| LookupError (inv_id : string)
| KeyError (inv_id : string).

Inductive raising (A : Type) :=
| Done (a : A)
| Raised (e : exception)
| OutOfFuel.
Arguments Done {A} a.
Arguments Raised {A} e.
Arguments OutOfFuel {A}.

(** The two sets the closure [dfs] shares with [detect_cycles]. *)
Record dfs_state := mk_dfs_state {
  visited   : list string;
  rec_stack : list string
}.

Definition dfs_result : Type := raising (option (list string) * dfs_state).

(** [for dep_id in ...: cycle = visit(dep_id); if cycle: return cycle]: the
    loop stops at the first cycle (a returned path is never empty, so it is
    true) or exception. *)
Definition each_dependency (visit : string -> dfs_state -> dfs_result)
  : list string -> dfs_state -> dfs_result :=
  fix loop (deps : list string) (st : dfs_state) : dfs_result :=
    match deps with
    | [] => Done (None, st)
    | dep_id :: rest =>
        match visit dep_id st with
        | Done (None, st') => loop rest st'
        | r => r
        end
    end.

Section DetectCycles.

(** [get_invariant] is used and not defined by the document: it is a
    parameter here, [None] standing for its failure on an id. *)
Variable get_invariant : string -> option Invariant.t.

(** [dfs(inv_id, path)], the recursion depth bounded by [fuel]. *)
Fixpoint dfs (fuel : nat) (inv_id : string) (path : list string)
    (st : dfs_state) : dfs_result :=
  match fuel with
  | O => OutOfFuel
  | S fuel =>
      if in_list inv_id (rec_stack st) then
        Done (Some (path ++ [inv_id]), st)
      else if in_list inv_id (visited st) then
        Done (None, st)
      else
        let st := {| visited := inv_id :: visited st;
                     rec_stack := inv_id :: rec_stack st |} in
        match get_invariant inv_id with
        | None => Raised (LookupError inv_id)
        | Some inv =>
            match each_dependency
                    (fun dep_id => dfs fuel dep_id (path ++ [inv_id]))
                    (Invariant.dependencies inv) st with
            | Done (None, st) =>
                if in_list inv_id (rec_stack st) then
                  Done (None,
                        {| visited := visited st;
                           rec_stack :=
                             filter (fun y => negb (String.eqb y inv_id))
                                    (rec_stack st) |})
                else Raised (KeyError inv_id)
            | r => r
            end
        end
  end.

(** [detect_cycles(invariants)]: the outer loop has the shape of the inner
    one, over the ids of the invariants and with the empty path. *)
Definition detect_cycles (fuel : nat) (invariants : list Invariant.t)
  : raising (option (list string)) :=
  match each_dependency (fun inv_id => dfs fuel inv_id [])
                        (map Invariant.id invariants)
                        {| visited := []; rec_stack := [] |} with
  | Done (cycle, _) => Done cycle
  | Raised e => Raised e
  | OutOfFuel => OutOfFuel
  end.

(** [a] lists [b] among its dependencies. *)
Definition depends_on (a b : string) : Prop :=
  exists inv, get_invariant a = Some inv
              /\ In b (Invariant.dependencies inv).

(** Each id depends on the next one. *)
Fixpoint dependency_chain (ids : list string) : Prop :=
  match ids with
  | [] => True
  | a :: rest =>
      match rest with
      | [] => True
      | b :: _ => depends_on a b /\ dependency_chain rest
      end
  end.

(** A path that ends on an id it has already passed. *)
Definition closes_a_cycle (ids : list string) : Prop :=
  exists before inv_id inside,
    ids = before ++ inv_id :: inside ++ [inv_id].

(** Every dependency of an id of [universe] is in [universe]. *)
Definition dependency_closed (universe : list string) : Prop :=
  forall a b, In a universe -> depends_on a b -> In b universe.

Definition dependency_closedb (universe : list string) : bool :=
  forallb (fun a =>
             match get_invariant a with
             | Some inv =>
                 forallb (fun b => in_list b universe)
                         (Invariant.dependencies inv)
             | None => true
             end) universe.

(** Explored and left: on no path being explored. *)
Definition finished (st : dfs_state) (inv_id : string) : Prop :=
  In inv_id (visited st) /\ ~ In inv_id (rec_stack st).

(** The explored part of the graph is ranked: every id explored and left
    resolves, and its dependencies are explored and left and of lower
    rank. *)
Definition ranked (st : dfs_state) : Prop :=
  exists rank : string -> nat,
    forall x, finished st x ->
      exists inv, get_invariant x = Some inv
        /\ forall d, In d (Invariant.dependencies inv) ->
             finished st d /\ (rank d < rank x)%nat.

(** The ids of [universe] not yet visited, with their repetitions. *)
Definition unvisited (universe : list string) (st : dfs_state) : nat :=
  List.length (filter (fun u => negb (in_list u (visited st))) universe).

(** What a result satisfies, case by case. *)
Definition dfs_post (r : dfs_result) (cycle_ok : list string -> Prop)
    (none_ok : dfs_state -> Prop) (raised_ok : exception -> Prop)
    (no_fuel_ok : Prop) : Prop :=
  match r with
  | Done (Some cycle, _) => cycle_ok cycle
  | Done (None, st) => none_ok st
  | Raised e => raised_ok e
  | OutOfFuel => no_fuel_ok
  end.

End DetectCycles.

(** The catalogue of the document: every invariant block with its
    [dependencies], in the order of the document. *)
Definition ALL_INVARIANTS : list Invariant.t :=
  [ Invariant.mk "inv_001_unique_invoice_ids" [];
    Invariant.mk "inv_002_valid_amounts" [];
    Invariant.mk "inv_003_account_active" [];
    Invariant.mk "inv_004_no_duplicate_hash" ["inv_001_unique_invoice_ids"];
    Invariant.mk "inv_005_credit_limit" [];
    Invariant.mk "inv_006_settlement_once" ["inv_001_unique_invoice_ids"];
    Invariant.mk "inv_007_valid_terms" [];
    Invariant.mk "inv_101_valid_transitions" [];
    Invariant.mk "inv_102_atomic_settlement"
      ["inv_006_settlement_once"; "inv_003_account_active"];
    Invariant.mk "inv_103_pricing_before_acceptance"
      ["inv_109_pricing_freshness"];
    Invariant.mk "inv_104_buyer_authorization" [];
    Invariant.mk "inv_105_no_retroactive_changes"
      ["inv_101_valid_transitions"];
    Invariant.mk "inv_201_settlement_speed"
      ["inv_102_atomic_settlement"; "inv_206_rail_health"];
    Invariant.mk "inv_202_fraud_score_fresh" [];
    Invariant.mk "inv_203_acceptance_deadline" ["inv_101_valid_transitions"];
    Invariant.mk "inv_204_fx_rate_fresh" [];
    Invariant.mk "inv_205_credit_limit_staleness" ["inv_005_credit_limit"];
    Invariant.mk "inv_206_rail_health" [];
    Invariant.mk "inv_207_capital_bid_expiry" [];
    Invariant.mk "inv_301_capital_competition" [];
    Invariant.mk "inv_302_fraud_accuracy" ["inv_202_fraud_score_fresh"];
    Invariant.mk "inv_303_settlement_success"
      ["inv_102_atomic_settlement"; "inv_206_rail_health"];
    Invariant.mk "inv_401_sanctions_check" [];
    Invariant.mk "inv_402_kyc_verification" ["inv_003_account_active"];
    Invariant.mk "inv_403_signature_required"
      ["inv_104_buyer_authorization"];
    Invariant.mk "inv_404_rate_limiting" [];
    Invariant.mk "inv_501_ledger_reconciliation"
      ["inv_102_atomic_settlement"];
    Invariant.mk "inv_502_pricing_accuracy"
      ["inv_103_pricing_before_acceptance"; "inv_109_pricing_freshness"];
    Invariant.mk "inv_503_capital_liquidity" [];
    Invariant.mk "inv_601_immutable_ledger" [];
    Invariant.mk "inv_602_line_items_sum" [];
    Invariant.mk "inv_109_pricing_freshness" [] ].

(** [get_invariant] as a search of the catalogue by id. *)
Definition catalogue_invariant (inv_id : string) : option Invariant.t :=
  find (fun inv => String.eqb (Invariant.id inv) inv_id) ALL_INVARIANTS.

(** A catalogue in which two invariants name each other. *)
Definition circular_invariants : list Invariant.t :=
  [ Invariant.mk "inv_a" ["inv_b"];
    Invariant.mk "inv_b" ["inv_c"];
    Invariant.mk "inv_c" ["inv_b"] ].

Definition circular_invariant (inv_id : string) : option Invariant.t :=
  find (fun inv => String.eqb (Invariant.id inv) inv_id) circular_invariants.

(* ================================================================== *)
(** ** Settlement routing ([execute_settlement]) *)

Module Rail.

(** What [rail.settle] returns: [duration] in microseconds, and the answer
    of [all_legs_confirmed()]. *)
Record result : Type := mk_result {
  duration : Z;
  all_legs_confirmed : bool
}.

(** A call of [rail.settle(invoice_id)] returns or raises [RailException]. *)
Inductive settled :=
| Settled (r : result)
| RailException.

(** A rail as the loop sees it: the answer of [is_available()] and of
    [settle]. *)
Record t : Type := mk {
  name : string;
  is_available : bool;
  settle : string -> settled
}.

End Rail.

(** How [execute_settlement] ends: it returns the result, an [assert]
    fails, or it raises [SettlementFailed]. *)
Inductive routed :=
| Returned (result : Rail.result)
| AssertionError
| SettlementFailed.

(** The loop over the rails, with the calls of [settle] it makes, in order:
    the rail's name and what the call gave. *)
Fixpoint try_rails (rails : list Rail.t) (invoice_id : string)
  : routed * list (string * Rail.settled) :=
  match rails with
  | [] => (SettlementFailed, [])
  | rail :: rest =>
      if Rail.is_available rail then
        match Rail.settle rail invoice_id with
        | Rail.Settled result =>
            (if Rail.duration result <? seconds 5 then
               if Rail.all_legs_confirmed result then Returned result
               else AssertionError
             else AssertionError,
             [(Rail.name rail, Rail.Settled result)])
        | Rail.RailException =>
            let (outcome, calls) := try_rails rest invoice_id in
            (outcome, (Rail.name rail, Rail.RailException) :: calls)
        end
      else try_rails rest invoice_id
  end.

(** [rails = [RTP, FedNow, ACH]], ordered by speed. *)
Definition execute_settlement (RTP FedNow ACH : Rail.t) (invoice_id : string)
  : routed * list (string * Rail.settled) :=
  try_rails [RTP; FedNow; ACH] invoice_id.

(** The rail is available and its [settle] does not raise. *)
Definition answers (invoice_id : string) (rail : Rail.t) : bool :=
  Rail.is_available rail
  && match Rail.settle rail invoice_id with
     | Rail.Settled _ => true
     | Rail.RailException => false
     end.

Definition rail_settled (call : string * Rail.settled) : bool :=
  match snd call with
  | Rail.Settled _ => true
  | Rail.RailException => false
  end.

(** Three rails: the first is down, the second settles in six seconds, the
    third in one. *)
Definition rtp_down : Rail.t :=
  Rail.mk "RTP" false (fun _ => Rail.RailException).

Definition fednow_slow : Rail.t :=
  Rail.mk "FedNow" true
    (fun _ => Rail.Settled (Rail.mk_result (seconds 6) true)).

Definition ach_up : Rail.t :=
  Rail.mk "ACH" true
    (fun _ => Rail.Settled (Rail.mk_result (seconds 1) true)).

(* ================================================================== *)
(** ** The expiring fraud score ([ExpiringFraudScore]) *)

Module ExpiringFraudScore.

Section Cache.

(** The type of a score; the class does no arithmetic on it. *)
Variable score_t : Type.

Record t : Type := mk {
  invoice_id : string;
  score : option score_t;
  calculated_at : option timestamptz;
  verification_window : Z
}.

(** [__init__] *)
Definition init (invoice_id : string) : t :=
  mk invoice_id None None (hours 24).

(** What a call of [get] takes from outside: the two readings of [now()]
    (for the age, and for the stamp of a new score) and what
    [calculate_fraud_score] returns if called. *)
Record call : Type := mk_call {
  now_age : timestamptz;
  now_stamp : timestamptz;
  fresh : score_t
}.

(** [get]: without a stamp the age is [timedelta.max], above any window. *)
Definition get (self : t) (c : call) : option score_t * t :=
  let expired :=
    match calculated_at self with
    | Some at_ => verification_window self <? now_age c - at_
    | None => true
    end in
  if expired then
    let self := mk (invoice_id self) (Some (fresh c)) (Some (now_stamp c))
                   (verification_window self) in
    (score self, self)
  else (score self, self).

(** The object after a sequence of calls of [get]. *)
Fixpoint gets (self : t) (calls : list call) : t :=
  match calls with
  | [] => self
  | c :: rest => gets (snd (get self c)) rest
  end.

End Cache.

End ExpiringFraudScore.

(* ================================================================== *)
(** ** The health score ([calculate_system_health]) *)

From Stdlib Require PrimFloat Uint63.

Module HealthScore.

Import PrimFloat.
Local Open Scope float_scope.
Set Warnings "-inexact-float".

(** The metrics the function reads. *)
Record metrics : Type := mk {
  settlement_latency_p99 : float;
  double_payment_rate : float;
  pricing_accuracy : float;
  atomic_settlement_rate : float;
  fraud_block_rate : float;
  capital_competition_rate : float;
  settlement_rail_uptime : float;
  fraud_check_latency : float;
  api_latency_p95 : float;
  daily_volume_growth : float
}.

Definition critical (m : metrics) : list bool :=
  [ ltb (settlement_latency_p99 m) 5;
    eqb (double_payment_rate m) 0;
    eqb (pricing_accuracy m) 1.0;
    eqb (atomic_settlement_rate m) 1.0;
    eqb (fraud_block_rate m) 1.0 ].

Definition important (m : metrics) : list bool :=
  [ ltb 0.7 (capital_competition_rate m);
    ltb 0.995 (settlement_rail_uptime m);
    ltb (fraud_check_latency m) 300 ].

Definition optional (m : metrics) : list bool :=
  [ ltb (api_latency_p95 m) 200;
    ltb 0 (daily_volume_growth m) ].

(** [all], [any], and [sum(xs) / len(xs)] on a list of booleans: the
    division of two small integers, as a float. *)
Definition all (xs : list bool) : bool := forallb (fun x => x) xs.
Definition any (xs : list bool) : bool := existsb (fun x => x) xs.

Definition of_nat (n : nat) : float :=
  of_uint63 (Uint63.of_Z (Z.of_nat n)).

Definition sum (xs : list bool) : nat :=
  List.length (filter (fun x => x) xs).

Definition calculate_system_health (m : metrics) : float :=
  if negb (all (critical m)) then 0.0
  else
    let critical_weight := 0.7 in
    let important_weight := 0.2 in
    let optional_weight := 0.1 in
    critical_weight
      * (of_nat (sum (critical m)) / of_nat (List.length (critical m)))
    + important_weight
      * (of_nat (sum (important m)) / of_nat (List.length (important m)))
    + optional_weight
      * (of_nat (sum (optional m)) / of_nat (List.length (optional m))).

(** The threshold for operation: [>= 0.95]. *)
Definition operational (m : metrics) : bool :=
  leb 0.95 (calculate_system_health m).

End HealthScore.

(* ================================================================== *)
(** ** The accounts table and its balance history *)

Module Accounts.

Import Account.

Definition account_types : list string :=
  ["SUPPLIER"; "BUYER"; "CAPITAL_PROVIDER"].

Definition status_values : list string :=
  ["PENDING"; "ACTIVE"; "SUSPENDED"; "FROZEN"; "CLOSED"].

Definition kyc_status_values : list string :=
  ["PENDING"; "IN_REVIEW"; "VERIFIED"; "REJECTED"; "EXPIRED"].

Definition columns_fit (a : t) : bool :=
  varchar 20 (id a) && varchar 20 (account_type a) && varchar 200 (name a)
  && varchar 255 (email a) && varchar 20 (status a)
  && varchar 20 (kyc_status a) && Decimal.fits 15 (balance a)
  && match credit_limit a with None => true | Some c => Decimal.fits 15 c end.

Definition account_type_check (a : t) : bool :=
  in_list (account_type a) account_types.

Definition status_check (a : t) : bool := in_list (status a) status_values.

Definition kyc_status_check (a : t) : bool :=
  in_list (kyc_status a) kyc_status_values.

(** [CONSTRAINT positive_balance CHECK (balance >= 0)] *)
Definition positive_balance (a : t) : bool := 0 <=? balance a.

(** [CHECK (credit_limit IS NULL OR credit_limit >= 0)] *)
Definition positive_credit_limit (a : t) : bool :=
  match credit_limit a with None => true | Some c => 0 <=? c end.

(** All the checks on the columns of one row. *)
Definition row_checks (a : t) : bool :=
  columns_fit a && account_type_check a && status_check a
  && kyc_status_check a && positive_balance a && positive_credit_limit a.

(** The new row of [UPDATE ... SET ...] for a [SET] clause that leaves [id]
    alone: [set] gives the other columns from the old row. *)
Definition assign (set : t -> t) (old : t) : t :=
  let new := set old in
  mk (id old) (account_type new) (name new) (email new) (status new)
     (kyc_status new) (balance new) (credit_limit new).

Definition set_status (st : string) (a : t) : t :=
  mk (id a) (account_type a) (name a) (email a) st (kyc_status a)
     (balance a) (credit_limit a).

Definition set_balance (b : Z) (a : t) : t :=
  mk (id a) (account_type a) (name a) (email a) (status a) (kyc_status a)
     b (credit_limit a).

End Accounts.

(** A row of [itn_audit.balance_history]. *)
Module BalanceChange.

Record t : Type := mk {
  id : Z;
  account_id : string;
  previous_balance : Z;
  new_balance : Z;
  change_amount : Z;
  change_type : string;
  settlement_id : option string;
  invoice_id : option string;
  reason : string;
  timestamp : timestamptz;
  performed_by : option string
}.

Definition with_id (i : Z) (h : t) : t :=
  mk i (account_id h) (previous_balance h) (new_balance h) (change_amount h)
     (change_type h) (settlement_id h) (invoice_id h) (reason h) (timestamp h)
     (performed_by h).

(** [BIGINT] is a signed 64-bit number. *)
Definition fits_int8 (x : Z) : bool := (- 2 ^ 63 <=? x) && (x <? 2 ^ 63).

Definition columns_fit (h : t) : bool :=
  fits_int8 (id h) && varchar 20 (account_id h)
  && Decimal.fits 15 (previous_balance h)
  && Decimal.fits 15 (new_balance h) && Decimal.fits 15 (change_amount h)
  && varchar 20 (change_type h) && varchar_opt 50 (settlement_id h)
  && varchar_opt 20 (invoice_id h) && varchar_opt 100 (performed_by h).

Definition change_type_check (h : t) : bool :=
  in_list (change_type h) ["CREDIT"; "DEBIT"; "ADJUSTMENT"; "CORRECTION"].

End BalanceChange.

(** The accounts, the history of their balances and the last value of the
    sequence behind [balance_history.id] (0 before the first call). *)
Record ledger : Type := mk_ledger {
  account_rows : list Account.t;
  balance_history : list BalanceChange.t;
  balance_history_id_seq : Z
}.

(** After the schema script: the seed rows come by [INSERT], which no
    trigger logs. *)
Definition initial_ledger : ledger := mk_ledger seed_accounts [] 0.

(** Who may call [nextval] on the sequence of [balance_history.id]. The
    script grants [itn_app] SELECT and INSERT on the tables of [itn_audit]
    and names no sequence in any GRANT; of the roles that can write to
    [accounts] after the script, the owner of the tables (or a superuser) and
    [itn_app], only the former has the privilege. *)
Definition may_use_id_seq (current_user : string) : bool :=
  negb (String.eqb current_user "itn_app").

(** What a statement leaves behind when it raises: the tables as they were,
    and the sequence where [nextval] left it, for the values of a sequence
    are not given back. *)
Inductive attempt (A : Type) : Type :=
| Success (a : A)
| Failure (e : error) (id_seq : Z).
Arguments Success {A} a.
Arguments Failure {A} e id_seq.


(** The checks a row of [accounts] passes before it is stored, [t] being the
    rows it must not clash with: the values must fit their columns, then come
    the CHECK constraints in the order of their names, then the unique
    indexes. *)
Definition check_account (t : list Account.t) (a : Account.t) : result unit :=
  require (Accounts.columns_fit a) (StringTooLong "accounts") ;;;
  require (Accounts.account_type_check a)
          (CheckViolation "accounts_account_type_check") ;;;
  require (Accounts.kyc_status_check a)
          (CheckViolation "accounts_kyc_status_check") ;;;
  require (Accounts.status_check a) (CheckViolation "accounts_status_check") ;;;
  require (Accounts.positive_balance a) (CheckViolation "positive_balance") ;;;
  require (Accounts.positive_credit_limit a)
          (CheckViolation "positive_credit_limit") ;;;
  require (negb (existsb (has_key Account.id (Account.id a)) t))
          (UniqueViolation "accounts_pkey") ;;;
  require (negb (existsb (has_key Account.email (Account.email a)) t))
          (UniqueViolation "accounts_email_key").

(** [INSERT INTO itn_core.accounts]: no trigger fires. *)
Definition insert_account (l : ledger) (a : Account.t)
  : result (ledger * nat) :=
  check_account (account_rows l) a ;;;
  Ok (mk_ledger (account_rows l ++ [a]) (balance_history l)
                (balance_history_id_seq l), 1%nat).

(** The checks a row of [balance_history] passes before it is stored. *)
Definition check_balance_change (t : list BalanceChange.t)
    (h : BalanceChange.t) : result unit :=
  require (BalanceChange.columns_fit h) (StringTooLong "balance_history") ;;;
  require (BalanceChange.change_type_check h)
          (CheckViolation "balance_history_change_type_check") ;;;
  require (negb (existsb (fun r => BalanceChange.id r =? BalanceChange.id h)
                         t))
          (UniqueViolation "balance_history_pkey").

(** [INSERT INTO itn_audit.balance_history] of one row by [current_user].
    With [default_id] the statement leaves [id] to its default,
    [nextval('balance_history_id_seq')]: the role needs the privilege on the
    sequence, the sequence must not be exhausted, and the value drawn is lost
    if the row is then refused. *)
Definition insert_balance_change (l : ledger) (default_id : bool)
    (h : BalanceChange.t) (current_user : string) : attempt ledger :=
  if default_id then
    if may_use_id_seq current_user then
      let id := balance_history_id_seq l + 1 in
      if id <? 2 ^ 63 then
        let h := BalanceChange.with_id id h in
        match check_balance_change (balance_history l) h with
        | Ok _ =>
            Success (mk_ledger (account_rows l) (balance_history l ++ [h]) id)
        | Err e => Failure e id
        end
      else Failure (RaisedException "nextval: reached maximum value")
                   (balance_history_id_seq l)
    else Failure (InsufficientPrivilege "balance_history_id_seq")
                 (balance_history_id_seq l)
  else
    match check_balance_change (balance_history l) h with
    | Ok _ =>
        Success (mk_ledger (account_rows l) (balance_history l ++ [h])
                           (balance_history_id_seq l))
    | Err e => Failure e (balance_history_id_seq l)
    end.

(** The values [log_balance_change] inserts; the [id] is left to its
    default. *)
Definition balance_change (old new : Account.t) (now : timestamptz)
    (current_user : string) : BalanceChange.t :=
  BalanceChange.mk
    0
    (Account.id new)
    (Account.balance old)
    (Account.balance new)
    (Account.balance new - Account.balance old)
    (if Account.balance old <? Account.balance new then "CREDIT" else "DEBIT")
    None None
    "Balance updated"
    now
    (Some current_user).

(** [log_balance_change()], the trigger [AFTER UPDATE ... FOR EACH ROW]. The
    function is not SECURITY DEFINER: its [INSERT] runs with the privileges
    of [current_user], the role that runs the [UPDATE], and an exception in
    it aborts the [UPDATE]. *)
Definition log_balance_change (l : ledger) (old new : Account.t)
    (now : timestamptz) (current_user : string) : attempt ledger :=
  if negb (Account.balance old =? Account.balance new) then
    insert_balance_change l true (balance_change old new now current_user)
                          current_user
  else Success l.

(** [UPDATE itn_core.accounts SET ... WHERE id = k] by [current_user], a
    role that may update [accounts], the [SET] clause leaving [id] alone. The
    trigger [accounts_updated_at] changes [updated_at] only, a column the
    rows here do not carry. *)
Definition update_account_attempt (l : ledger) (k : string)
    (set : Account.t -> Account.t) (now : timestamptz)
    (current_user : string) : attempt (ledger * nat) :=
  match find_row Account.id k (account_rows l) with
  | None => Success (l, 0%nat)
  | Some old =>
      let new := Accounts.assign set old in
      let rest := others Account.id k (account_rows l) in
      match check_account rest new with
      | Err e => Failure e (balance_history_id_seq l)
      | Ok _ =>
          match log_balance_change
                  (mk_ledger (rest ++ [new]) (balance_history l)
                             (balance_history_id_seq l))
                  old new now current_user with
          | Success l' => Success (l', 1%nat)
          | Failure e id_seq => Failure e id_seq
          end
      end
  end.


Inductive account_stmt : Type :=
| InsertAccount (a : Account.t)
| UpdateAccount (k : string) (set : Account.t -> Account.t)
                (now : timestamptz) (current_user : string).

Definition exec_account (l : ledger) (s : account_stmt)
  : attempt (ledger * nat) :=
  match s with
  | InsertAccount a =>
      match insert_account l a with
      | Ok r => Success r
      | Err e => Failure e (balance_history_id_seq l)
      end
  | UpdateAccount k set now current_user =>
      update_account_attempt l k set now current_user
  end.

(** The ledger a statement that raised leaves behind. *)
Definition rolled_back (l : ledger) (id_seq : Z) : ledger :=
  mk_ledger (account_rows l) (balance_history l) id_seq.

Definition after_account (l : ledger) (s : account_stmt) : ledger :=
  match exec_account l s with
  | Success (l', _) => l'
  | Failure _ id_seq => rolled_back l id_seq
  end.

Definition run_accounts (l : ledger) (script : list account_stmt) : ledger :=
  fold_left after_account script l.

(** The statements on the two tables: those on [accounts], and the direct
    [INSERT] into [balance_history] that the script grants. *)
Inductive ledger_stmt : Type :=
| OnAccounts (s : account_stmt)
| InsertBalanceChange (default_id : bool) (h : BalanceChange.t)
                      (current_user : string).

Definition after_ledger (l : ledger) (s : ledger_stmt) : ledger :=
  match s with
  | OnAccounts s => after_account l s
  | InsertBalanceChange default_id h current_user =>
      match insert_balance_change l default_id h current_user with
      | Success l' => l'
      | Failure _ id_seq => rolled_back l id_seq
      end
  end.

Definition run_ledger (l : ledger) (script : list ledger_stmt) : ledger :=
  fold_left after_ledger script l.

Definition ledger_reachable (l : ledger) : Prop :=
  exists script, l = run_ledger initial_ledger script.

(** What the rows that the trigger writes have in common. *)
Definition logged_row_ok (h : BalanceChange.t) : Prop :=
  BalanceChange.change_amount h
  = BalanceChange.new_balance h - BalanceChange.previous_balance h
  /\ BalanceChange.change_amount h <> 0
  /\ 0 <= BalanceChange.previous_balance h
  /\ 0 <= BalanceChange.new_balance h
  /\ BalanceChange.change_type h
     = (if 0 <? BalanceChange.change_amount h then "CREDIT" else "DEBIT")
  /\ BalanceChange.settlement_id h = None
  /\ BalanceChange.invoice_id h = None
  /\ BalanceChange.reason h = "Balance updated".

Record ledger_ok (l : ledger) : Prop := {
  account_ids : NoDup (map Account.id (account_rows l));
  account_emails : NoDup (map Account.email (account_rows l));
  account_rows_checked :
    Forall (fun a => Accounts.row_checks a = true) (account_rows l);
  history_ids : NoDup (map BalanceChange.id (balance_history l));
  id_seq_started : 0 <= balance_history_id_seq l
}.

(** The sum of the changes logged for an account. *)
Definition logged_total (k : string) (rows : list BalanceChange.t) : Z :=
  fold_right Z.add 0
    (map BalanceChange.change_amount
         (filter (fun h => String.eqb (BalanceChange.account_id h) k) rows)).

(** A settlement of 1000.00 between two seed accounts, a rejected overdraft
    and a freeze, run by a role that owns the tables, here [postgres]. *)
Definition transfer_script : list account_stmt :=
  [ UpdateAccount "BUY-001"
      (fun a => Accounts.set_balance (Account.balance a - 100000) a)
      (seconds 1) "postgres";
    UpdateAccount "SUP-001"
      (fun a => Accounts.set_balance (Account.balance a + 100000) a)
      (seconds 1) "postgres";
    UpdateAccount "BUY-002"
      (fun a => Accounts.set_balance (Account.balance a - 1) a)
      (seconds 2) "postgres";
    UpdateAccount "SUP-001" (Accounts.set_status "FROZEN") (seconds 3)
      "postgres" ].

(* ================================================================== *)
(** * Properties *)

(** ** Results *)

Lemma bind_ok (A B : Type) (r : result A) (k : A -> result B) (b : B) :
  bind r k = Ok b -> exists a, r = Ok a /\ k a = Ok b.
Proof.
  destruct r as [a | e]; simpl; intros H; [ | discriminate ].
  exists a; split; [ reflexivity | exact H ].
Qed.

Lemma require_ok (b : bool) (e : error) (u : unit) :
  require b e = Ok u -> b = true.
Proof.
  destruct b; simpl; [ reflexivity | discriminate ].
Qed.

(** Splits a hypothesis [require b e ;;; k = Ok x] into [b = true] and
    [k = Ok x], as far as it goes. *)
Ltac checks H :=
  repeat
    (let a := fresh "u" in
     let Hb := fresh "Hcheck" in
     apply bind_ok in H; destruct H as [a [Hb H]];
     apply require_ok in Hb).

Lemma for_each_ok (A : Type) (f : A -> result unit) (l : list A) (u : unit) :
  for_each f l = Ok u -> forall a, In a l -> f a = Ok tt.
Proof.
  induction l as [ | x l IH]; simpl; intros H a Ha; [ contradiction | ].
  apply bind_ok in H. destruct H as [[] [Hx Hl]].
  destruct Ha as [<- | Ha]; [ exact Hx | exact (IH Hl a Ha) ].
Qed.

(** ** Rows *)

Section RowFacts.

Variables (row : Type) (key : row -> string).

Lemma has_key_true (k : string) (r : row) :
  has_key key k r = true <-> key r = k.
Proof. unfold has_key. apply String.eqb_eq. Qed.

Lemma no_key_not_in (k : string) (t : list row) :
  existsb (has_key key k) t = false -> ~ In k (map key t).
Proof.
  intros H Hin. apply in_map_iff in Hin. destruct Hin as [r [Hr Hin]].
  assert (E : existsb (has_key key k) t = true).
  { apply existsb_exists. exists r. split; [ exact Hin | ].
    apply has_key_true. exact Hr. }
  congruence.
Qed.

Lemma others_incl (k : string) (t : list row) (r : row) :
  In r (others key k t) -> In r t.
Proof. unfold others. intros H. apply filter_In in H. tauto. Qed.

Lemma others_Forall (P : row -> Prop) (k : string) (t : list row) :
  Forall P t -> Forall P (others key k t).
Proof.
  intros H. apply Forall_forall. intros r Hr.
  rewrite Forall_forall in H. apply H. exact (others_incl _ _ _ Hr).
Qed.

Lemma others_no_key (k : string) (t : list row) :
  existsb (has_key key k) (others key k t) = false.
Proof.
  unfold others. induction t as [ | r t IH]; simpl; [ reflexivity | ].
  destruct (has_key key k r) eqn:E; simpl; [ exact IH | ].
  rewrite E. exact IH.
Qed.

Lemma find_row_in (k : string) (t : list row) (r : row) :
  find_row key k t = Some r -> In r t /\ key r = k.
Proof.
  unfold find_row. intros H. apply find_some in H.
  destruct H as [H1 H2]. split; [ exact H1 | ].
  apply has_key_true. exact H2.
Qed.

Lemma find_row_replaced (k : string) (t : list row) (r : row) :
  key r = k -> find_row key k (replace_row key k r t) = Some r.
Proof.
  intros Hk. unfold find_row, replace_row.
  pose proof (others_no_key k t) as Hno.
  induction (others key k t) as [ | x l IH]; simpl.
  - assert (E : has_key key k r = true) by (apply has_key_true; exact Hk).
    rewrite E. reflexivity.
  - simpl in Hno. apply orb_false_iff in Hno. destruct Hno as [Hx Hl].
    rewrite Hx. exact (IH Hl).
Qed.

End RowFacts.

Section ColumnFacts.

Variables (row K : Type) (f : row -> K).

Lemma filter_map_NoDup (p : row -> bool) (t : list row) :
  NoDup (map f t) -> NoDup (map f (filter p t)).
Proof.
  induction t as [ | r t IH]; simpl; intros H; [ constructor | ].
  inversion H as [ | x l Hnot Hrest]; subst.
  destruct (p r); simpl; [ | exact (IH Hrest) ].
  constructor; [ | exact (IH Hrest) ].
  intros Hin. apply Hnot. apply in_map_iff in Hin.
  destruct Hin as [y [Hy Hin]]. apply in_map_iff. exists y.
  split; [ exact Hy | ]. apply filter_In in Hin. tauto.
Qed.

Lemma snoc_map_NoDup (t : list row) (r : row) :
  NoDup (map f t) -> ~ In (f r) (map f t) -> NoDup (map f (t ++ [r])).
Proof.
  intros Hnd Hnot. rewrite map_app. simpl.
  induction (map f t) as [ | x l IH]; simpl.
  - constructor; [ intros [] | constructor ].
  - inversion Hnd as [ | y l' Hx Hl]; subst. constructor.
    + intros Hin. apply in_app_or in Hin. destruct Hin as [Hin | [Hin | []]].
      * exact (Hx Hin).
      * apply Hnot. left. symmetry. exact Hin.
    + apply IH; [ exact Hl | ]. intros Hin. apply Hnot. right. exact Hin.
Qed.

End ColumnFacts.

Lemma Forall_snoc (A : Type) (P : A -> Prop) (l : list A) (a : A) :
  Forall P l -> P a -> Forall P (l ++ [a]).
Proof.
  intros Hl Ha. apply Forall_app. split; [ exact Hl | ].
  constructor; [ exact Ha | constructor ].
Qed.

(** ** Consistency of the stored rows *)

Lemma initial_consistent : consistent initial_db.
Proof.
  constructor; simpl; constructor.
Qed.

Lemma check_invoice_ok (d : db) (t : list Invoice.t) (i : Invoice.t) (u : unit) :
  check_invoice d t i = Ok u -> invoice_row_ok i.
Proof.
  unfold check_invoice. intros H. checks H. split; assumption.
Qed.

Lemma check_line_item_ok (t : list LineItem.t) (c : LineItem.cols) (u : unit) :
  check_line_item t c = Ok u -> line_item_row_ok (LineItems.stored c).
Proof.
  unfold check_line_item. intros H. checks H.
  repeat split; assumption.
Qed.

Lemma store_line_items_ok (rows : list LineItem.cols) :
  forall t t', store_line_items t rows = Ok t' ->
               t' = t ++ map LineItems.stored rows
               /\ Forall line_item_row_ok (map LineItems.stored rows).
Proof.
  induction rows as [ | c rows IH]; simpl; intros t t' H.
  - inversion H; subst. rewrite app_nil_r. split; [ reflexivity | constructor ].
  - apply bind_ok in H. destruct H as [u [Hc H]].
    apply IH in H. destruct H as [-> Hrows]. rewrite <- app_assoc. simpl.
    split; [ reflexivity | ].
    constructor; [ exact (check_line_item_ok _ _ Hc) | exact Hrows ].
Qed.

Lemma check_settlement_ok (d : db) (t : list Settlement.t)
    (c : Settlement.cols) (u : unit) :
  check_settlement d t c = Ok u ->
  settlement_row_ok (Settlements.stored c)
  /\ ~ In (Settlement.invoice_id c) (map settlement_invoice_of t).
Proof.
  unfold check_settlement. intros H. checks H. split.
  - split; [ reflexivity | assumption ].
  - apply no_key_not_in. apply negb_true_iff. assumption.
Qed.

Lemma same_slot_true (a b : Leg.t) :
  Legs.same_slot a b = true <-> slot a = slot b.
Proof.
  unfold Legs.same_slot, slot. rewrite andb_true_iff, !String.eqb_eq.
  split; [ intros [-> ->]; reflexivity | intros H; inversion H; auto ].
Qed.

Lemma no_slot_not_in (l : Leg.t) (t : list Leg.t) :
  existsb (Legs.same_slot l) t = false -> ~ In (slot l) (map slot t).
Proof.
  intros H Hin. apply in_map_iff in Hin. destruct Hin as [r [Hr Hin]].
  assert (E : existsb (Legs.same_slot l) t = true).
  { apply existsb_exists. exists r. split; [ exact Hin | ].
    apply same_slot_true. symmetry. exact Hr. }
  congruence.
Qed.

Lemma check_leg_ok (d : db) (t : list Leg.t) (l : Leg.t) (u : unit) :
  check_leg d t l = Ok u -> leg_row_ok l /\ ~ In (slot l) (map slot t).
Proof.
  unfold check_leg. intros H. checks H. split.
  - split; assumption.
  - apply no_slot_not_in. apply negb_true_iff. assumption.
Qed.

Lemma check_quote_ok (d : db) (t : list Quote.t) (q : Quote.t) (u : unit) :
  check_quote d t q = Ok u -> quote_row_ok q.
Proof.
  unfold check_quote. intros H. checks H. split; assumption.
Qed.

(** ** Every statement keeps the stored rows consistent *)

Lemma insert_invoice_consistent (d d' : db) (i : Invoice.t) (n : nat) :
  consistent d -> insert_invoice d i = Ok (d', n) -> consistent d'.
Proof.
  intros [] H. unfold insert_invoice in H.
  apply bind_ok in H. destruct H as [u [Hc H]]. inversion H; subst.
  constructor; simpl; try assumption.
  apply Forall_snoc; [ assumption | exact (check_invoice_ok _ _ _ Hc) ].
Qed.

Lemma update_invoice_consistent (d d' : db) (k : string) (now : timestamptz)
    (i : Invoice.t) (n : nat) :
  consistent d -> update_invoice d k now i = Ok (d', n) -> consistent d'.
Proof.
  intros Hd H. unfold update_invoice in H.
  destruct (find_row Invoice.id k (invoices d)).
  - apply bind_ok in H. destruct H as [u [Hc H]].
    apply bind_ok in H. destruct H as [u' [_ H]]. inversion H; subst.
    destruct Hd. constructor; simpl; try assumption.
    apply Forall_snoc; [ | exact (check_invoice_ok _ _ _ Hc) ].
    apply others_Forall. assumption.
  - inversion H; subst. exact Hd.
Qed.

Lemma insert_line_items_consistent (d d' : db) (rows : list LineItem.cols)
    (n : nat) :
  consistent d -> insert_line_items d rows = Ok (d', n) -> consistent d'.
Proof.
  intros [] H. unfold insert_line_items in H.
  apply bind_ok in H. destruct H as [t' [Hs H]].
  apply bind_ok in H. destruct H as [u [_ H]]. inversion H; subst.
  apply store_line_items_ok in Hs. destruct Hs as [-> Hrows].
  constructor; simpl; try assumption.
  apply Forall_app. split; assumption.
Qed.

Lemma rewrite_line_items_ok (where_ : LineItem.t -> bool)
    (set : LineItem.t -> LineItem.cols) (todo : list LineItem.t) :
  forall done out,
    rewrite_line_items where_ set done todo = Ok out ->
    Forall line_item_row_ok done -> Forall line_item_row_ok todo ->
    Forall line_item_row_ok (fst out)
    /\ snd out = map set (filter where_ todo).
Proof.
  induction todo as [ | r rest IH]; simpl; intros done out H Hdone Htodo.
  - inversion H; subst. split; [ exact Hdone | reflexivity ].
  - inversion Htodo as [ | x l Hr Hrest]; subst.
    destruct (where_ r).
    + apply bind_ok in H. destruct H as [u [Hc H]].
      apply bind_ok in H. destruct H as [out' [Hrec H]]. inversion H; subst.
      apply IH in Hrec; [ | | exact Hrest ].
      * destruct Hrec as [Hall Hnews]. simpl. rewrite Hnews.
        split; [ exact Hall | reflexivity ].
      * apply Forall_snoc; [ exact Hdone | ].
        exact (check_line_item_ok _ _ Hc).
    + apply IH in H; [ exact H | | exact Hrest ].
      apply Forall_snoc; assumption.
Qed.

Lemma update_line_items_consistent (d d' : db) (where_ : LineItem.t -> bool)
    (set : LineItem.t -> LineItem.cols) (n : nat) :
  consistent d -> update_line_items d where_ set = Ok (d', n) -> consistent d'.
Proof.
  intros Hd H. unfold update_line_items in H.
  apply bind_ok in H. destruct H as [out [Hrw H]].
  apply bind_ok in H. destruct H as [u [_ H]]. inversion H; subst.
  apply rewrite_line_items_ok in Hrw;
    [ | constructor | exact (line_items_rows Hd) ].
  destruct Hrw as [Hall _].
  destruct Hd. constructor; simpl; assumption.
Qed.

Lemma insert_settlement_consistent (d d' : db) (c : Settlement.cols) (n : nat) :
  consistent d -> insert_settlement d c = Ok (d', n) -> consistent d'.
Proof.
  intros [] H. unfold insert_settlement in H.
  apply bind_ok in H. destruct H as [u [Hc H]]. inversion H; subst.
  apply check_settlement_ok in Hc. destruct Hc as [Hrow Hnew].
  constructor; simpl; try assumption.
  - apply Forall_snoc; assumption.
  - apply snoc_map_NoDup; assumption.
Qed.

Lemma update_settlement_consistent (d d' : db) (k : string)
    (c : Settlement.cols) (n : nat) :
  consistent d -> update_settlement d k c = Ok (d', n) -> consistent d'.
Proof.
  intros Hd H. unfold update_settlement in H.
  destruct (find_row settlement_id_of k (settlements d)).
  - apply bind_ok in H. destruct H as [u [Hc H]].
    apply bind_ok in H. destruct H as [u' [_ H]]. inversion H; subst.
    apply check_settlement_ok in Hc. destruct Hc as [Hrow Hnew].
    destruct Hd. constructor; simpl; try assumption.
    + apply Forall_snoc; [ | assumption ]. apply others_Forall. assumption.
    + apply snoc_map_NoDup; [ | assumption ].
      apply filter_map_NoDup. assumption.
  - inversion H; subst. exact Hd.
Qed.

Lemma insert_leg_consistent (d d' : db) (l : Leg.t) (n : nat) :
  consistent d -> insert_leg d l = Ok (d', n) -> consistent d'.
Proof.
  intros [] H. unfold insert_leg in H.
  apply bind_ok in H. destruct H as [u [Hc H]]. inversion H; subst.
  apply check_leg_ok in Hc. destruct Hc as [Hrow Hnew].
  constructor; simpl; try assumption.
  - apply Forall_snoc; assumption.
  - apply snoc_map_NoDup; assumption.
Qed.

Lemma update_leg_consistent (d d' : db) (k : string) (l : Leg.t) (n : nat) :
  consistent d -> update_leg d k l = Ok (d', n) -> consistent d'.
Proof.
  intros Hd H. unfold update_leg in H.
  destruct (find_row Leg.id k (settlement_legs d)).
  - apply bind_ok in H. destruct H as [u [Hc H]]. inversion H; subst.
    apply check_leg_ok in Hc. destruct Hc as [Hrow Hnew].
    destruct Hd. constructor; simpl; try assumption.
    + apply Forall_snoc; [ | assumption ]. apply others_Forall. assumption.
    + apply snoc_map_NoDup; [ | assumption ].
      apply filter_map_NoDup. assumption.
  - inversion H; subst. exact Hd.
Qed.

Lemma insert_quote_consistent (d d' : db) (q : Quote.t) (n : nat) :
  consistent d -> insert_quote d q = Ok (d', n) -> consistent d'.
Proof.
  intros [] H. unfold insert_quote in H.
  apply bind_ok in H. destruct H as [u [Hc H]]. inversion H; subst.
  constructor; simpl; try assumption.
  apply Forall_snoc; [ assumption | exact (check_quote_ok _ _ _ Hc) ].
Qed.

Lemma update_quote_consistent (d d' : db) (k : string) (q : Quote.t) (n : nat) :
  consistent d -> update_quote d k q = Ok (d', n) -> consistent d'.
Proof.
  intros Hd H. unfold update_quote in H.
  destruct (find_row Quote.id k (pricing_quotes d)).
  - apply bind_ok in H. destruct H as [u [Hc H]]. inversion H; subst.
    destruct Hd. constructor; simpl; try assumption.
    apply Forall_snoc; [ | exact (check_quote_ok _ _ _ Hc) ].
    apply others_Forall. assumption.
  - inversion H; subst. exact Hd.
Qed.

Lemma with_decision_ledger_consistent (d : db) (t : list Decision.t) :
  consistent d -> consistent (with_decision_ledger t d).
Proof.
  intros []. constructor; simpl; assumption.
Qed.

Lemma insert_decision_ok (d d' : db) (r : Decision.t) (n : nat) :
  insert_decision d r = Ok (d', n) ->
  d' = with_decision_ledger (decision_ledger d ++ [r]) d.
Proof.
  unfold insert_decision. simpl. intros H.
  apply bind_ok in H. destruct H as [u [_ H]]. inversion H. reflexivity.
Qed.

(** Both rules answer: the statement is replaced by nothing. *)
Lemma update_decisions_nothing (d : db) (w : Decision.t -> bool)
    (f : Decision.t -> Decision.t) :
  update_decisions d w f = Ok (d, 0%nat).
Proof. reflexivity. Qed.

Lemma delete_decisions_nothing (d : db) (w : Decision.t -> bool) :
  delete_decisions d w = Ok (d, 0%nat).
Proof. reflexivity. Qed.

Lemma exec_consistent (d d' : db) (s : stmt) (n : nat) :
  consistent d -> exec d s = Ok (d', n) -> consistent d'.
Proof.
  intros Hd H. destruct s; simpl in H.
  - eapply insert_invoice_consistent; eassumption.
  - eapply update_invoice_consistent; eassumption.
  - eapply insert_line_items_consistent; eassumption.
  - eapply update_line_items_consistent; eassumption.
  - eapply insert_settlement_consistent; eassumption.
  - eapply update_settlement_consistent; eassumption.
  - eapply insert_leg_consistent; eassumption.
  - eapply update_leg_consistent; eassumption.
  - eapply insert_quote_consistent; eassumption.
  - eapply update_quote_consistent; eassumption.
  - apply insert_decision_ok in H. subst d'.
    apply with_decision_ledger_consistent. exact Hd.
  - rewrite update_decisions_nothing in H. inversion H; subst. exact Hd.
  - rewrite delete_decisions_nothing in H. inversion H; subst. exact Hd.
Qed.

Lemma after_consistent (d : db) (s : stmt) :
  consistent d -> consistent (after d s).
Proof.
  intros Hd. unfold after. destruct (exec d s) as [[d' n] | e] eqn:E.
  - eapply exec_consistent; eassumption.
  - exact Hd.
Qed.

Lemma run_consistent (script : list stmt) :
  forall d, consistent d -> consistent (run d script).
Proof.
  induction script as [ | s script IH]; simpl; intros d Hd.
  - exact Hd.
  - apply IH. apply after_consistent. exact Hd.
Qed.

Lemma reachable_consistent (d : db) : reachable d -> consistent d.
Proof.
  intros [script ->]. apply run_consistent. exact initial_consistent.
Qed.

Lemma run_app (d : db) (s1 s2 : list stmt) :
  run d (s1 ++ s2) = run (run d s1) s2.
Proof. unfold run. apply fold_left_app. Qed.

Lemma reachable_run (d : db) (script : list stmt) :
  reachable d -> reachable (run d script).
Proof.
  intros [s0 ->]. exists (s0 ++ script). symmetry. apply run_app.
Qed.

Lemma reachable_initial : reachable initial_db.
Proof. exists []. reflexivity. Qed.

(* ================================================================== *)
(** ** C1: the reconciliation flag of [system_health] *)

(** The flag compares credits with debits and with nothing else. *)
Lemma ledger_balanced_iff (d : db) :
  Health.ledger_balanced (Health.view d) = true
  <-> Health.total_credits (Health.view d) = Health.total_debits (Health.view d).
Proof.
  simpl. rewrite Z.ltb_lt. lia.
Qed.

(** Storing one more ADVANCE leg never changes the flag. *)
Lemma ledger_balanced_advance_blind (d : db) (l : Leg.t) :
  Leg.leg_type l = "ADVANCE" ->
  Health.ledger_balanced
    (Health.view (with_settlement_legs (settlement_legs d ++ [l]) d))
  = Health.ledger_balanced (Health.view d).
Proof.
  intros Hl. unfold Health.view, Health.sum_legs. simpl.
  rewrite !filter_app. simpl. rewrite Hl. simpl. rewrite !app_nil_r.
  reflexivity.
Qed.

(** C1 (code defect). The claim: the reconciliation check reports balanced
    exactly when the credit legs sum to the debit legs plus the capital-advance
    legs, within 0.01. The view's [ledger_balanced] column leaves the ADVANCE
    legs out. With legs CREDIT 50 000.00, DEBIT 30 000.00, ADVANCE 20 000.00
    the claimed equation holds exactly, yet the view reports unbalanced; with
    legs of 50 000.00 each the equation is off by 50 000.00, yet the view
    reports balanced. *)
Theorem C1_ledger_balanced_ignores_advances :
  (Health.sum_legs "CREDIT" Scenario.advance_fills_gap
   = Health.sum_legs "DEBIT" Scenario.advance_fills_gap
     + Health.sum_legs "ADVANCE" Scenario.advance_fills_gap
   /\ Health.sum_legs "ADVANCE" Scenario.advance_fills_gap
      = Decimal.usd 20000 0
   /\ Health.ledger_balanced (Health.view Scenario.advance_fills_gap) = false)
  /\ (Z.abs (Health.sum_legs "CREDIT" Scenario.advance_on_top
             - (Health.sum_legs "DEBIT" Scenario.advance_on_top
                + Health.sum_legs "ADVANCE" Scenario.advance_on_top))
      = Decimal.usd 50000 0
      /\ Health.ledger_balanced (Health.view Scenario.advance_on_top) = true).
Proof.
  vm_compute. repeat split.
Qed.

(* ================================================================== *)
(** ** C2: one settlement per invoice, one leg per type *)

Section Counting.

Variables (row K : Type) (f : row -> K) (p : row -> bool) (v : K).
Hypothesis p_selects : forall r, p r = true -> f r = v.

Lemma selected_absent (t : list row) :
  ~ In v (map f t) -> filter p t = [].
Proof.
  induction t as [ | r t IH]; simpl; intros Hnot; [ reflexivity | ].
  destruct (p r) eqn:E.
  - exfalso. apply Hnot. left. apply p_selects. exact E.
  - apply IH. intros Hin. apply Hnot. right. exact Hin.
Qed.

Lemma NoDup_selects_at_most_one (t : list row) :
  NoDup (map f t) -> (List.length (filter p t) <= 1)%nat.
Proof.
  induction t as [ | r t IH]; simpl; intros Hnd; [ lia | ].
  inversion Hnd as [ | x l Hnot Hrest]; subst.
  destruct (p r) eqn:E; [ | exact (IH Hrest) ].
  simpl. rewrite selected_absent; [ simpl; lia | ].
  rewrite <- (p_selects E). exact Hnot.
Qed.

End Counting.

Lemma leg_types_distinct (k : string) (t : list Leg.t) :
  NoDup (map slot t) ->
  NoDup (map Leg.leg_type (filter (has_key Leg.settlement_id k) t)).
Proof.
  induction t as [ | l t IH]; simpl; intros Hnd; [ constructor | ].
  inversion Hnd as [ | x y Hnot Hrest]; subst.
  destruct (has_key Leg.settlement_id k l) eqn:E; [ | exact (IH Hrest) ].
  simpl. constructor; [ | exact (IH Hrest) ].
  intros Hin. apply Hnot. apply in_map_iff in Hin.
  destruct Hin as [l' [Hty Hin]]. apply filter_In in Hin.
  destruct Hin as [Hin E']. apply in_map_iff. exists l'.
  split; [ | exact Hin ].
  apply has_key_true in E. apply has_key_true in E'.
  unfold slot. congruence.
Qed.

Lemma in_list_In (x : string) (l : list string) :
  in_list x l = true <-> In x l.
Proof.
  unfold in_list. rewrite existsb_exists. split.
  - intros [y [Hy E]]. apply String.eqb_eq in E. subst. exact Hy.
  - intros H. exists x. split; [ exact H | apply String.eqb_refl ].
Qed.

Lemma legs_at_most_three (d : db) (k : string) :
  consistent d -> (List.length (legs_of_settlement d k) <= 3)%nat.
Proof.
  intros Hd. unfold legs_of_settlement.
  rewrite <- (length_map Leg.leg_type).
  change 3%nat with (List.length Legs.leg_types).
  apply NoDup_incl_length.
  - apply leg_types_distinct. exact (legs_slots Hd).
  - intros ty Hin. apply in_map_iff in Hin. destruct Hin as [l [<- Hin]].
    apply filter_In in Hin. destruct Hin as [Hin _].
    pose proof (legs_rows Hd) as Hrows. rewrite Forall_forall in Hrows.
    destruct (Hrows l Hin) as [Hty _]. apply in_list_In. exact Hty.
Qed.

Lemma second_settlement_refused (d : db) (t : list Settlement.t)
    (c : Settlement.cols) (s : Settlement.t) :
  In s t -> settlement_invoice_of s = Settlement.invoice_id c ->
  is_ok (check_settlement d t c) = false.
Proof.
  intros Hin Hsame.
  destruct (check_settlement d t c) as [u | e] eqn:E; [ | reflexivity ].
  apply check_settlement_ok in E. destruct E as [_ Hnew].
  exfalso. apply Hnew. apply in_map_iff. exists s. split; assumption.
Qed.

Lemma second_leg_refused (d : db) (t : list Leg.t) (l l0 : Leg.t) :
  In l0 t -> slot l0 = slot l -> is_ok (check_leg d t l) = false.
Proof.
  intros Hin Hsame.
  destruct (check_leg d t l) as [u | e] eqn:E; [ | reflexivity ].
  apply check_leg_ok in E. destruct E as [_ Hnew].
  exfalso. apply Hnew. apply in_map_iff. exists l0. split; assumption.
Qed.

Lemma is_ok_bind_false (A B : Type) (r : result A) (k : A -> result B) :
  is_ok r = false -> is_ok (bind r k) = false.
Proof.
  destruct r; simpl; [ discriminate | reflexivity ].
Qed.

Lemma after_of_failure (d : db) (s : stmt) :
  is_ok (exec d s) = false -> after d s = d.
Proof.
  unfold after. destruct (exec d s) as [[d' n] | e]; simpl;
    [ discriminate | reflexivity ].
Qed.

(** C2, as stated, fails: the schema never requires a settlement to exist.
    Inserting an invoice whose status is already SETTLED passes every
    constraint, and no settlement row references it. *)
Lemma C2_settled_invoice_without_settlement :
  ~ (forall d i, reachable d -> In i (invoices d) ->
                 Invoice.status i = "SETTLED" ->
                 exists s, In s (settlements d)
                           /\ settlement_invoice_of s = Invoice.id i).
Proof.
  intros claim.
  pose (i := Scenario.invoice "SETTLED" (Decimal.usd 50000 0)).
  destruct (claim (run initial_db [InsertInvoice i]) i) as [s [Hs _]].
  - apply reachable_run. exact reachable_initial.
  - vm_compute. left. reflexivity.
  - reflexivity.
  - vm_compute in Hs. exact Hs.
Qed.

(** C2 (amended). In every reachable state: an invoice is referenced by at
    most one settlement row; a settlement has at most one leg row per leg
    type, every leg type is one of CREDIT, DEBIT, ADVANCE, hence at most three
    leg rows; inserting a second settlement for an invoice, or a second leg of
    a type for a settlement, raises and leaves the database unchanged. *)
Theorem C2_at_most_one_settlement_one_leg_per_type (d : db) :
  reachable d ->
  (forall k, (List.length (settlements_of_invoice d k) <= 1)%nat)
  /\ (forall k ty, (List.length (legs_of_type d k ty) <= 1)%nat)
  /\ (forall k, (List.length (legs_of_settlement d k) <= 3)%nat)
  /\ (forall l, In l (settlement_legs d) -> In (Leg.leg_type l) Legs.leg_types)
  /\ (forall c s, In s (settlements d) ->
                  settlement_invoice_of s = Settlement.invoice_id c ->
                  is_ok (insert_settlement d c) = false
                  /\ after d (InsertSettlement c) = d)
  /\ (forall l l0, In l0 (settlement_legs d) -> slot l0 = slot l ->
                   is_ok (insert_leg d l) = false
                   /\ after d (InsertLeg l) = d).
Proof.
  intros Hreach. pose proof (reachable_consistent Hreach) as Hd.
  repeat split.
  - intros k. unfold settlements_of_invoice.
    apply (NoDup_selects_at_most_one settlement_invoice_of
             (has_key settlement_invoice_of k) (v := k)).
    + intros r Hr. apply has_key_true in Hr. exact Hr.
    + exact (settlement_once Hd).
  - intros k ty. unfold legs_of_type, legs_of_settlement.
    apply (NoDup_selects_at_most_one Leg.leg_type
             (has_key Leg.leg_type ty) (v := ty)).
    + intros r Hr. apply has_key_true in Hr. exact Hr.
    + apply leg_types_distinct. exact (legs_slots Hd).
  - intros k. apply legs_at_most_three. exact Hd.
  - intros l Hin. pose proof (legs_rows Hd) as Hrows.
    rewrite Forall_forall in Hrows. destruct (Hrows l Hin) as [Hty _].
    apply in_list_In. exact Hty.
  - unfold insert_settlement. apply is_ok_bind_false.
    eapply second_settlement_refused; eassumption.
  - apply after_of_failure. simpl. unfold insert_settlement.
    apply is_ok_bind_false. eapply second_settlement_refused; eassumption.
  - unfold insert_leg. apply is_ok_bind_false.
    eapply second_leg_refused; eassumption.
  - apply after_of_failure. simpl. unfold insert_leg.
    apply is_ok_bind_false. eapply second_leg_refused; eassumption.
Qed.

Lemma C2_witness :
  reachable Scenario.happy_path
  /\ (List.length (settlements_of_invoice Scenario.happy_path "INV-001") <= 1)%nat
  /\ (List.length (legs_of_settlement Scenario.happy_path "STL-001") <= 3)%nat
  /\ after Scenario.happy_path
            (InsertLeg (Scenario.leg "L4" "CREDIT" "SUP-002" 1))
     = Scenario.happy_path.
Proof.
  assert (Hd : reachable Scenario.happy_path).
  { apply reachable_run, reachable_run, reachable_initial. }
  destruct (C2_at_most_one_settlement_one_leg_per_type Hd)
    as [Hone [_ [Hthree [_ [_ Hleg]]]]].
  split; [ exact Hd | ]. split; [ apply Hone | ]. split; [ apply Hthree | ].
  apply (Hleg (Scenario.leg "L4" "CREDIT" "SUP-002" 1)
              (Scenario.leg "L1" "CREDIT" "SUP-001" (Decimal.usd 50000 0))).
  - vm_compute. left. reflexivity.
  - reflexivity.
Defined.

(* ================================================================== *)
(** ** C3: the duration check on settlements *)

(** A duration rounds to less than 5.000 s exactly when it is less than
    4.9995 s. *)
Lemma duration_under_five_seconds (n : Z) :
  (Decimal.round_half_away n 1000 <? 5000) = (n <? 4999500).
Proof.
  unfold Decimal.round_half_away.
  destruct (Z.leb_spec 0 n) as [Hn | Hn];
    destruct (Z.ltb_spec n 4999500) as [Hlt | Hge];
    match goal with
    | |- (?x <? 5000) = _ => destruct (Z.ltb_spec x 5000) as [Hx | Hx]
    end; try reflexivity; exfalso;
    Z.to_euclidean_division_equations; lia.
Qed.

Lemma duration_check_stored (c : Settlement.cols) :
  Settlements.settlement_duration_check (Settlements.stored c)
  = match Settlement.completed_at c with
    | None => true
    | Some done => done - Settlement.started_at c <? 4999500
    end.
Proof.
  unfold Settlements.settlement_duration_check, Settlements.stored,
    Settlements.generated_duration_seconds. simpl.
  destruct (Settlement.completed_at c) as [done | ]; [ | reflexivity ].
  apply duration_under_five_seconds.
Qed.

Lemma slow_settlement_refused (d : db) (t : list Settlement.t)
    (c : Settlement.cols) (done : timestamptz) :
  Settlement.completed_at c = Some done ->
  4999500 <= done - Settlement.started_at c ->
  is_ok (check_settlement d t c) = false.
Proof.
  intros Hdone Hslow.
  destruct (check_settlement d t c) as [u | e] eqn:E; [ | reflexivity ].
  apply check_settlement_ok in E. destruct E as [[_ Hcheck] _].
  rewrite duration_check_stored, Hdone in Hcheck.
  apply Z.ltb_lt in Hcheck. lia.
Qed.

(** C3, as stated, fails: all prepares succeeded, one commit was resolved
    through the status endpoint 7 s after the start, and recording the
    settlement as completed at that instant violates
    [settlement_duration_check], whether the row is updated or inserted. *)
Lemma C3_completion_after_seven_seconds_refused :
  complete_settlement Scenario.in_progress "STL-001" (seconds 7) "COMPLETED"
  = Err (CheckViolation "settlement_duration_check")
  /\ after Scenario.in_progress
           (UpdateSettlement "STL-001"
              (Scenario.settlement (Some (seconds 7)) "COMPLETED"))
     = Scenario.in_progress
  /\ insert_settlement
       (run initial_db
            [InsertInvoice (Scenario.invoice "ACCEPTED" (Decimal.usd 50000 0))])
       (Scenario.settlement (Some (seconds 7)) "COMPLETED")
     = Err (CheckViolation "settlement_duration_check").
Proof.
  vm_compute. repeat split.
Qed.

(** C3 (amended). In every reachable state a settlement row whose
    [completed_at] is set has [completed_at - started_at] below 5 s (below
    4.9995 s, so that the duration in milliseconds is below 5.000); a
    statement that would store a row completed 4.9995 s or more after its
    start -- in particular between 5 s and 10 s -- raises and leaves the
    database unchanged. *)
Theorem C3_completed_settlement_under_five_seconds (d : db) :
  reachable d ->
  (forall s done,
      In s (settlements d) ->
      Settlement.completed_at (Settlement.base s) = Some done ->
      done - Settlement.started_at (Settlement.base s) < 4999500
      /\ done - Settlement.started_at (Settlement.base s) < seconds 5)
  /\ (forall c done k,
         Settlement.completed_at c = Some done ->
         4999500 <= done - Settlement.started_at c ->
         is_ok (insert_settlement d c) = false
         /\ after d (InsertSettlement c) = d
         /\ after d (UpdateSettlement k c) = d).
Proof.
  intros Hreach. pose proof (reachable_consistent Hreach) as Hd. split.
  - intros s done Hin Hdone.
    pose proof (settlements_rows Hd) as Hrows. rewrite Forall_forall in Hrows.
    destruct (Hrows s Hin) as [Hstored Hcheck].
    rewrite Hstored, duration_check_stored, Hdone in Hcheck.
    apply Z.ltb_lt in Hcheck. unfold seconds. lia.
  - intros c done k Hdone Hslow.
    assert (Hins : is_ok (insert_settlement d c) = false).
    { unfold insert_settlement. apply is_ok_bind_false.
      eapply slow_settlement_refused; eassumption. }
    split; [ exact Hins | ]. split.
    + apply after_of_failure. exact Hins.
    + unfold after. simpl. unfold update_settlement.
      destruct (find_row settlement_id_of k (settlements d)); [ | reflexivity ].
      pose proof (slow_settlement_refused d
                    (others settlement_id_of k (settlements d)) c Hdone Hslow)
        as Hrefused.
      destruct (check_settlement d _ c); [ discriminate | reflexivity ].
Qed.

Lemma C3_witness :
  reachable Scenario.completed_in_time
  /\ Forall (fun s => Settlement.completed_at (Settlement.base s)
                      = Some (seconds 4))
            (settlements Scenario.completed_in_time)
  /\ seconds 4 - 0 < seconds 5
  /\ after Scenario.completed_in_time
           (UpdateSettlement "STL-001"
              (Scenario.settlement (Some (seconds 10)) "COMPLETED"))
     = Scenario.completed_in_time.
Proof.
  assert (Hd : reachable Scenario.completed_in_time).
  { apply reachable_run, reachable_run, reachable_initial. }
  destruct (C3_completed_settlement_under_five_seconds Hd)
    as [Hstored Hwrite].
  split; [ exact Hd | ]. split; [ | split ].
  - vm_compute. repeat constructor.
  - apply (Hstored (Settlements.stored
                      (Scenario.settlement (Some (seconds 4)) "COMPLETED"))
                   (seconds 4)).
    + vm_compute. left. reflexivity.
    + reflexivity.
  - apply (Hwrite (Scenario.settlement (Some (seconds 10)) "COMPLETED")
                  (seconds 10) "STL-001").
    + reflexivity.
    + vm_compute. discriminate.
Defined.

(* ================================================================== *)
(** ** C4: the FAILED status *)

(** No reachable state stores an invoice whose status is FAILED. *)
Lemma failed_is_never_stored (d : db) (i : Invoice.t) :
  reachable d -> In i (invoices d) -> Invoice.status i <> "FAILED".
Proof.
  intros Hreach Hin Hfailed.
  pose proof (invoices_rows (reachable_consistent Hreach)) as Hrows.
  rewrite Forall_forall in Hrows. destruct (Hrows i Hin) as [Hstatus _].
  unfold Invoices.status_check in Hstatus. rewrite Hfailed in Hstatus.
  vm_compute in Hstatus. discriminate.
Qed.

(** C4 (code defect). The claim: after compensation the invoice moves from
    accepted to failed, from failed only to rejected, and failed is a storable
    status. [ALLOWED_TRANSITIONS] agrees (ACCEPTED allows FAILED, FAILED
    allows REJECTED alone), but the CHECK on [invoices.status] does not list
    FAILED: on the accepted invoice INV-001,
    [UPDATE invoices SET status = 'FAILED'] raises and the invoice stays
    ACCEPTED. *)
Theorem C4_failed_status_rejected_by_check :
  inv_101_pre_check "ACCEPTED" "FAILED" = true
  /\ allowed_transitions "FAILED" = ["REJECTED"]
  /\ in_list "FAILED" Invoices.status_values = false
  /\ update_invoice_status Scenario.in_progress "INV-001" (seconds 6) "FAILED"
     = Err (CheckViolation "invoices_status_check")
  /\ map Invoice.status
         (invoices (after Scenario.in_progress
                          (UpdateInvoice "INV-001" (seconds 6)
                             (Scenario.invoice "FAILED" (Decimal.usd 50000 0)))))
     = ["ACCEPTED"].
Proof.
  vm_compute. repeat split.
Qed.

(* ================================================================== *)
(** ** C5: the fraud gate *)


(* ================================================================== *)
(** ** C6: the amount range at submission *)

Lemma amount_in_range (i : Invoice.t) :
  Invoices.amount_check i = true
  <-> Decimal.usd 100 0 <= Invoice.amount i <= Decimal.usd 10000000 0.
Proof.
  unfold Invoices.amount_check. rewrite andb_true_iff, !Z.leb_le. tauto.
Qed.

(** A row that passes every check at one admissible amount passes them at
    any other amount the column holds and the range admits. *)
Lemma check_invoice_at_amount (d : db) (t : list Invoice.t) (i : Invoice.t)
    (a : Z) (u : unit) :
  check_invoice d t (Invoice.set_amount a i) = Ok u ->
  Invoices.amount_check i = true ->
  check_invoice d t i = Ok tt.
Proof.
  intros H Hamount.
  assert (Hfits : Decimal.fits 15 (Invoice.amount i) = true).
  { apply amount_in_range in Hamount. unfold Decimal.usd in Hamount.
    unfold Decimal.fits. apply Z.ltb_lt.
    change (10 ^ 15) with 1000000000000000. lia. }
  destruct i. unfold check_invoice in *. unfold Invoice.set_amount in H.
  checks H. apply require_ok in H.
  unfold Invoices.columns_fit, Invoices.currency_check, Invoices.terms_check,
    Invoices.status_check, Invoices.different_parties,
    Invoices.valid_fraud_score in *.
  cbn [Invoice.id Invoice.supplier_id Invoice.buyer_id Invoice.amount
       Invoice.currency Invoice.terms Invoice.status Invoice.fraud_score
       Invoice.fraud_score_calculated_at Invoice.invoice_hash
       Invoice.purchase_order_id Invoice.notes] in *.
  repeat match goal with
         | Hc : _ && _ = true |- _ =>
             apply andb_true_iff in Hc; destruct Hc
         end.
  repeat match goal with
         | Hc : ?b = true |- _ => rewrite Hc; clear Hc
         end.
  reflexivity.
Qed.

(** C6. A row that passes every other check of [invoices] is stored exactly
    when its amount lies in [100.00, 10 000 000.00]; the INV-002 pre-check
    draws the same line; a refused row leaves the table as it was, an
    accepted one is the only row added. *)
Theorem C6_amount_accepted_iff_in_closed_range (d : db) (i : Invoice.t) :
  check_invoice d (invoices d) (Invoice.set_amount (Decimal.usd 100 0) i)
  = Ok tt ->
  (is_ok (insert_invoice d i) = true
   <-> Decimal.usd 100 0 <= Invoice.amount i <= Decimal.usd 10000000 0)
  /\ inv_002_pre_check (Invoice.amount i) = Invoices.amount_check i
  /\ (is_ok (insert_invoice d i) = false -> after d (InsertInvoice i) = d)
  /\ (is_ok (insert_invoice d i) = true ->
      after d (InsertInvoice i) = with_invoices (invoices d ++ [i]) d).
Proof.
  intros Hother. split; [ split | split; [ | split ] ].
  - intros Hok. apply amount_in_range.
    destruct (insert_invoice d i) as [o | e] eqn:E; [ | discriminate ].
    unfold insert_invoice in E. apply bind_ok in E.
    destruct E as [u [Hc _]]. apply check_invoice_ok in Hc. apply Hc.
  - intros [Hlo Hhi]. unfold insert_invoice.
    rewrite (check_invoice_at_amount _ _ _ _ Hother); [ reflexivity | ].
    apply amount_in_range. split; assumption.
  - reflexivity.
  - intros Hko. apply after_of_failure. exact Hko.
  - intros Hok. unfold after. simpl.
    destruct (insert_invoice d i) as [[d' n] | e] eqn:E; [ | discriminate ].
    unfold insert_invoice in E. apply bind_ok in E.
    destruct E as [u [_ E]]. inversion E. reflexivity.
Qed.

Lemma C6_witness :
  is_ok (insert_invoice initial_db (Scenario.invoice "PENDING" (Decimal.usd 99 99)))
  = false
  /\ after initial_db (InsertInvoice (Scenario.invoice "PENDING" (Decimal.usd 99 99)))
     = initial_db
  /\ is_ok (insert_invoice initial_db
              (Scenario.invoice "PENDING" (Decimal.usd 100 0))) = true
  /\ is_ok (insert_invoice initial_db
              (Scenario.invoice "PENDING" (Decimal.usd 10000000 0))) = true.
Proof.
  assert (Hother : forall a,
             check_invoice initial_db (invoices initial_db)
               (Invoice.set_amount (Decimal.usd 100 0)
                  (Scenario.invoice "PENDING" a)) = Ok tt)
    by (intros a; reflexivity).
  destruct (C6_amount_accepted_iff_in_closed_range initial_db _
              (Hother (Decimal.usd 99 99))) as [Hlow [_ [Hsame _]]].
  destruct (C6_amount_accepted_iff_in_closed_range initial_db _
              (Hother (Decimal.usd 100 0))) as [Hmin _].
  destruct (C6_amount_accepted_iff_in_closed_range initial_db _
              (Hother (Decimal.usd 10000000 0))) as [Hmax _].
  assert (Hrefused : is_ok (insert_invoice initial_db
                              (Scenario.invoice "PENDING" (Decimal.usd 99 99)))
                     = false).
  { destruct (is_ok (insert_invoice initial_db
                       (Scenario.invoice "PENDING" (Decimal.usd 99 99))))
      eqn:E; [ | reflexivity ].
    pose proof (proj1 Hlow eq_refl) as R.
    unfold Decimal.usd in R. simpl in R. lia. }
  split; [ exact Hrefused | ]. split; [ exact (Hsame Hrefused) | ]. split.
  - apply Hmin. unfold Decimal.usd. simpl. lia.
  - apply Hmax. unfold Decimal.usd. simpl. lia.
Defined.

(* ================================================================== *)
(** ** C7: pricing *)

Section Rounding.

Variables n d : Z.
Hypothesis d_pos : 0 < d.

(** [round_half_away n d] is an integer nearest to [n / d], and on a tie the
    one farther from zero. *)
Lemma round_half_away_nearest :
  2 * Z.abs (Decimal.round_half_away n d * d - n) <= d
  /\ (2 * Z.abs (Decimal.round_half_away n d * d - n) = d ->
      Z.abs n < Z.abs (Decimal.round_half_away n d * d)).
Proof.
  unfold Decimal.round_half_away.
  destruct (Z.leb_spec 0 n) as [Hn | Hn].
  - pose proof (Z.div_mod (2 * n + d) (2 * d) ltac:(lia)) as E.
    pose proof (Z.mod_pos_bound (2 * n + d) (2 * d) ltac:(lia)) as B.
    set (q := (2 * n + d) / (2 * d)) in *.
    set (m := (2 * n + d) mod (2 * d)) in *.
    assert (0 <= q) by (apply Z.div_pos; lia).
    split; [ lia | nia ].
  - pose proof (Z.div_mod (2 * - n + d) (2 * d) ltac:(lia)) as E.
    pose proof (Z.mod_pos_bound (2 * - n + d) (2 * d) ltac:(lia)) as B.
    set (q := (2 * - n + d) / (2 * d)) in *.
    set (m := (2 * - n + d) mod (2 * d)) in *.
    assert (0 <= q) by (apply Z.div_pos; lia).
    split; [ lia | nia ].
Qed.

(** It is the only such integer. *)
Lemma round_half_away_unique (c : Z) :
  2 * Z.abs (c * d - n) <= d ->
  (2 * Z.abs (c * d - n) = d -> Z.abs n < Z.abs (c * d)) ->
  c = Decimal.round_half_away n d.
Proof.
  intros H1 H2. destruct round_half_away_nearest as [R1 R2].
  set (r := Decimal.round_half_away n d) in *.
  assert (Z.abs (c - r) * d <= d) by nia.
  assert (Z.abs (c - r) <= 1) by nia.
  destruct (Z.eq_dec c r) as [ | Hne]; [ assumption | exfalso ].
  assert (Hc : c = r + 1 \/ c = r - 1) by lia.
  destruct Hc; subst c.
  - destruct (Z.le_gt_cases 0 r) as [Hr | Hr].
    + assert (0 <= r * d) by (apply Z.mul_nonneg_nonneg; lia). lia.
    + assert (r * d <= - d) by nia. lia.
  - destruct (Z.le_gt_cases r 0) as [Hr | Hr].
    + assert (r * d <= 0) by nia. lia.
    + assert (d <= r * d) by nia. lia.
Qed.

End Rounding.

Lemma exact_cost_fraction (amount discount_rate terms : Z) :
  (exact_cost amount discount_rate terms
   == Pricing.cost_num amount discount_rate terms # 36500000000)%Q.
Proof.
  unfold exact_cost, Pricing.cost_num, Pricing.rate_scale.
  change (10 ^ 8) with 100000000.
  unfold Qeq, Qdiv, Qinv, Qmult, Qplus, inject_Z. cbn [Qnum Qden].
  rewrite ?Pos2Z.inj_mul. ring.
Qed.

Section Fractions.

Variables (c n : Z) (d : positive).

Lemma distance_to_fraction :
  (Qabs (inject_Z c - (n # d)) == Z.abs (c * Z.pos d - n) # d)%Q.
Proof.
  unfold Qminus, Qplus, Qopp, inject_Z, Qabs, Qeq. cbn [Qnum Qden].
  rewrite ?Pos2Z.inj_mul.
  replace (c * Z.pos d + - n * 1) with (c * Z.pos d - n) by ring.
  ring.
Qed.

Lemma within_half_iff :
  (Qabs (inject_Z c - (n # d)) <= 1 # 2)%Q
  <-> 2 * Z.abs (c * Z.pos d - n) <= Z.pos d.
Proof.
  rewrite distance_to_fraction. unfold Qle. cbn [Qnum Qden]. lia.
Qed.

Lemma tie_iff :
  (Qabs (inject_Z c - (n # d)) == 1 # 2)%Q
  <-> 2 * Z.abs (c * Z.pos d - n) = Z.pos d.
Proof.
  rewrite distance_to_fraction. unfold Qeq. cbn [Qnum Qden]. lia.
Qed.

Lemma farther_from_zero_iff :
  (Qabs (n # d) < Qabs (inject_Z c))%Q <-> Z.abs n < Z.abs (c * Z.pos d).
Proof.
  unfold Qabs, inject_Z, Qlt. cbn [Qnum Qden].
  rewrite Z.abs_mul. simpl (Z.abs (Z.pos d)). lia.
Qed.

End Fractions.

Lemma capital_profit_stored (d : db) (s : Settlement.t) :
  reachable d -> In s (settlements d) ->
  Settlement.capital_profit s
  = Settlement.buyer_cost (Settlement.base s)
    - Settlement.invoice_amount (Settlement.base s).
Proof.
  intros Hreach Hin.
  pose proof (settlements_rows (reachable_consistent Hreach)) as Hrows.
  rewrite Forall_forall in Hrows. destruct (Hrows s Hin) as [Hstored _].
  rewrite Hstored. reflexivity.
Qed.

(** C7. The quoted total cost is [amount * (1 + discount_rate * terms / 365)]
    rounded to the cent, half away from zero: it lies within half a cent of
    the exact value, on a tie it is the value farther from zero, and it is
    the only number of cents that does; the stored capital profit of every
    settlement is its buyer cost minus its invoice amount; for 50 000.00 at
    30 days and 6.0 % the total cost is 50 246.58 and the profit 246.58. *)
Theorem C7_total_cost_rounds_half_away_from_zero
    (amount discount_rate terms : Z) :
  ((Qabs (inject_Z (Pricing.total_cost amount discount_rate terms)
          - exact_cost amount discount_rate terms) <= 1 # 2)%Q
   /\ ((Qabs (inject_Z (Pricing.total_cost amount discount_rate terms)
              - exact_cost amount discount_rate terms) == 1 # 2)%Q ->
       (Qabs (exact_cost amount discount_rate terms)
        < Qabs (inject_Z (Pricing.total_cost amount discount_rate terms)))%Q)
   /\ (forall c,
          (Qabs (inject_Z c - exact_cost amount discount_rate terms)
           <= 1 # 2)%Q ->
          ((Qabs (inject_Z c - exact_cost amount discount_rate terms)
            == 1 # 2)%Q ->
           (Qabs (exact_cost amount discount_rate terms)
            < Qabs (inject_Z c))%Q) ->
          c = Pricing.total_cost amount discount_rate terms))
  /\ (forall d s, reachable d -> In s (settlements d) ->
                  Settlement.capital_profit s
                  = Settlement.buyer_cost (Settlement.base s)
                    - Settlement.invoice_amount (Settlement.base s))
  /\ Pricing.total_cost (Decimal.usd 50000 0) 6000000 30 = Decimal.usd 50246 58
  /\ Settlements.generated_capital_profit
       (Scenario.settlement None "PENDING") = Decimal.usd 246 58.
Proof.
  assert (Hden : 0 < Pricing.cost_den) by reflexivity.
  pose proof (round_half_away_nearest
                (Pricing.cost_num amount discount_rate terms) Hden)
    as [Hnear Htie].
  fold (Pricing.total_cost amount discount_rate terms) in Hnear, Htie.
  change Pricing.cost_den with (Z.pos 36500000000) in Hnear, Htie.
  split; [ split; [ | split ] | split; [ | split ] ].
  - rewrite exact_cost_fraction. apply within_half_iff. exact Hnear.
  - rewrite exact_cost_fraction. intros H. apply farther_from_zero_iff.
    apply Htie. apply tie_iff. exact H.
  - intros c. rewrite exact_cost_fraction. intros Hc Hc'.
    unfold Pricing.total_cost. apply round_half_away_unique.
    + exact Hden.
    + apply within_half_iff in Hc. exact Hc.
    + intros H. apply farther_from_zero_iff. apply Hc'. apply tie_iff.
      exact H.
  - intros d s. apply capital_profit_stored.
  - reflexivity.
  - reflexivity.
Qed.

Lemma C7_witness :
  reachable Scenario.happy_path
  /\ Forall (fun s => Settlement.capital_profit s = Decimal.usd 246 58)
            (settlements Scenario.happy_path).
Proof.
  assert (Hd : reachable Scenario.happy_path).
  { apply reachable_run, reachable_run, reachable_initial. }
  split; [ exact Hd | ].
  apply Forall_forall. intros s Hin.
  destruct (C7_total_cost_rounds_half_away_from_zero 0 0 0)
    as [_ [Hprofit _]].
  rewrite (Hprofit _ s Hd Hin).
  vm_compute in Hin. destruct Hin as [<- | []]. reflexivity.
Defined.

(* ================================================================== *)
(** ** C8: the validity window of a quote and its single use *)

(** C8, as stated, fails: a quote that expires one minute after it was
    issued satisfies [quote_validity] and [quote_expiry_window] and is
    stored. *)
Lemma C8_quote_may_expire_before_five_minutes :
  ~ (forall d q, reachable d -> In q (pricing_quotes d) ->
                 Quote.expires_at q = Quote.created_at q + minutes 5).
Proof.
  intros claim.
  pose (q := Scenario.quote 0 (minutes 1) false).
  assert (H : Quote.expires_at q = Quote.created_at q + minutes 5).
  { apply (claim (run Scenario.in_progress [InsertQuote q])).
    - apply reachable_run, reachable_run, reachable_initial.
    - vm_compute. left. reflexivity. }
  vm_compute in H. discriminate.
Qed.

(* ================================================================== *)
(** ** C9: the decision ledger is append-only *)

(** Statements on the other tables leave the decision ledger alone. *)
Ltac untouched H :=
  repeat match type of H with
         | bind _ _ = Ok _ =>
             let a := fresh "a" in
             let E := fresh "E" in
             apply bind_ok in H; destruct H as [a [E H]]
         | context [match ?x with _ => _ end] => destruct x
         end;
  inversion H; subst; reflexivity.

Lemma exec_decision_ledger (d d' : db) (s : stmt) (n : nat) :
  exec d s = Ok (d', n) ->
  exists more, decision_ledger d' = decision_ledger d ++ more.
Proof.
  intros H. destruct s; simpl in H;
    try (exists []; rewrite app_nil_r;
         match type of H with
         | ?f _ _ = _ => unfold f in H
         | ?f _ _ _ = _ => unfold f in H
         | ?f _ _ _ _ = _ => unfold f in H
         end; untouched H).
  - exists [r]. apply insert_decision_ok in H. subst d'. reflexivity.
  - rewrite update_decisions_nothing in H. inversion H; subst.
    exists []. rewrite app_nil_r. reflexivity.
  - rewrite delete_decisions_nothing in H. inversion H; subst.
    exists []. rewrite app_nil_r. reflexivity.
Qed.

Lemma run_decision_ledger (script : list stmt) :
  forall d, exists more,
    decision_ledger (run d script) = decision_ledger d ++ more.
Proof.
  induction script as [ | s script IH]; simpl; intros d.
  - exists []. rewrite app_nil_r. reflexivity.
  - destruct (IH (after d s)) as [more Hmore]. rewrite Hmore.
    unfold after. destruct (exec d s) as [[d' n] | e] eqn:E.
    + destruct (exec_decision_ledger _ _ E) as [new Hnew]. rewrite Hnew.
      exists (new ++ more). rewrite app_assoc. reflexivity.
    + exists more. reflexivity.
Qed.

(** C9. Every UPDATE and every DELETE on the decision ledger succeeds,
    affects zero rows and returns the database as it was; and whatever
    statements run, the records already in the ledger stay where they are,
    field for field, new records being appended after them. *)
Theorem C9_decision_ledger_update_delete_do_nothing :
  (forall d where_ set, exec d (UpdateDecisions where_ set) = Ok (d, 0%nat))
  /\ (forall d where_, exec d (DeleteDecisions where_) = Ok (d, 0%nat))
  /\ (forall d script, exists more,
         decision_ledger (run d script) = decision_ledger d ++ more).
Proof.
  split; [ | split ].
  - intros d w f. apply update_decisions_nothing.
  - intros d w. apply delete_decisions_nothing.
  - intros d script. apply run_decision_ledger.
Qed.

Lemma C9_witness :
  exec (run initial_db [InsertDecision (Scenario.decision 1 true);
                        InsertDecision (Scenario.decision 2 false)])
       (DeleteDecisions (fun _ => true))
  = Ok (run initial_db [InsertDecision (Scenario.decision 1 true);
                        InsertDecision (Scenario.decision 2 false)], 0%nat)
  /\ map Decision.id
         (decision_ledger
            (run initial_db [InsertDecision (Scenario.decision 1 true);
                             InsertDecision (Scenario.decision 2 false)]))
     = [1; 2].
Proof.
  destruct C9_decision_ledger_update_delete_do_nothing as [_ [Hdelete _]].
  split; [ apply Hdelete | reflexivity ].
Defined.

(* ================================================================== *)
(** ** C10: line items and the sum trigger *)

Lemma line_items_sum_app (d : db) (t1 t2 : list LineItem.t) (k : string) :
  line_items_sum (with_line_items (t1 ++ t2) d) k
  = line_items_sum (with_line_items t1 d) k
    + line_items_sum (with_line_items t2 d) k.
Proof.
  unfold line_items_sum. simpl.
  induction t1 as [ | r t1 IH]; simpl; [ reflexivity | ].
  destruct (String.eqb (LineItem.invoice_id (LineItem.base r)) k); simpl;
    rewrite IH; ring.
Qed.

Lemma line_items_sum_one (d : db) (c : LineItem.cols) :
  line_items_sum (with_line_items [LineItems.stored c] d)
                 (LineItem.invoice_id c)
  = LineItems.generated_amount c.
Proof.
  unfold line_items_sum. simpl. rewrite String.eqb_refl. simpl. ring.
Qed.

Lemma invoice_exists_amount (d : db) (k : string) :
  invoice_exists d k = true -> exists a, invoice_amount d k = Some a.
Proof.
  unfold invoice_exists, invoice_amount, find_row.
  induction (invoices d) as [ | i t IH]; simpl; [ discriminate | ].
  destruct (has_key Invoice.id k i); simpl.
  - intros _. exists (Invoice.amount i). reflexivity.
  - exact IH.
Qed.

Lemma validate_line_items_sum_ok (d : db) (r : LineItem.t) (u : unit) :
  validate_line_items_sum d r = Ok u ->
  forall a, invoice_amount d (LineItem.invoice_id (LineItem.base r)) = Some a ->
            Z.abs (line_items_sum d (LineItem.invoice_id (LineItem.base r)) - a)
            <= 1.
Proof.
  unfold validate_line_items_sum. intros H a Ha.
  apply bind_ok in H. destruct H as [u' [_ H]]. rewrite Ha in H.
  match type of H with
  | (if ?b then _ else _) = _ => destruct b eqn:E; [ discriminate | ]
  end.
  apply Z.ltb_ge in E. exact E.
Qed.

Lemma after_line_items_ok (d' : db) (rows : list LineItem.cols) (u : unit) :
  after_line_items d' rows = Ok u ->
  forall c, In c rows -> within_a_cent d' (LineItem.invoice_id c).
Proof.
  unfold after_line_items. intros H c Hin.
  apply bind_ok in H. destruct H as [u' [Hfk Hsum]].
  pose proof (for_each_ok _ _ Hfk c Hin) as Hexists.
  apply require_ok in Hexists.
  destruct (invoice_exists_amount _ _ Hexists) as [a Ha].
  exists a. split; [ exact Ha | ].
  pose proof (for_each_ok _ _ Hsum c Hin) as Hvalid.
  simpl in Hvalid.
  exact (@validate_line_items_sum_ok d' (LineItems.stored c) tt Hvalid a Ha).
Qed.

Lemma insert_line_items_ok (d d' : db) (rows : list LineItem.cols) (n : nat) :
  insert_line_items d rows = Ok (d', n) ->
  d' = with_line_items (line_items d ++ map LineItems.stored rows) d
  /\ forall c, In c rows -> within_a_cent d' (LineItem.invoice_id c).
Proof.
  unfold insert_line_items. intros H.
  apply bind_ok in H. destruct H as [t' [Hs H]].
  apply bind_ok in H. destruct H as [u [Hafter H]]. inversion H; subst.
  apply store_line_items_ok in Hs. destruct Hs as [-> _].
  split; [ reflexivity | ]. exact (after_line_items_ok _ _ Hafter).
Qed.

Lemma update_line_items_ok (d d' : db) (where_ : LineItem.t -> bool)
    (set : LineItem.t -> LineItem.cols) (n : nat) :
  consistent d ->
  update_line_items d where_ set = Ok (d', n) ->
  forall r, In r (line_items d) -> where_ r = true ->
            within_a_cent d' (LineItem.invoice_id (set r)).
Proof.
  unfold update_line_items. intros Hd H r Hin Hsel.
  apply bind_ok in H. destruct H as [out [Hrw H]].
  apply bind_ok in H. destruct H as [u [Hafter H]]. inversion H; subst.
  apply rewrite_line_items_ok in Hrw;
    [ | constructor | exact (line_items_rows Hd) ].
  destruct Hrw as [_ Hnews].
  apply (after_line_items_ok _ _ Hafter). rewrite Hnews.
  apply in_map. apply filter_In. split; assumption.
Qed.

Lemma one_by_one_prefixes (k : string) (rows : list LineItem.cols) :
  forall d d',
    exec_all d (one_by_one rows) = Ok d' ->
    (forall c, In c rows -> LineItem.invoice_id c = k) ->
    forall j, (0 < j <= List.length rows)%nat ->
      exists a, invoice_amount d k = Some a
                /\ Z.abs (line_items_sum d k
                          + generated_total (firstn j rows) - a) <= 1.
Proof.
  induction rows as [ | c rows IH]; intros d d' H Hk j Hj;
    [ simpl in Hj; lia | ].
  simpl in H. apply bind_ok in H. destruct H as [[d1 n] [Hfirst Hrest]].
  simpl in Hrest. apply insert_line_items_ok in Hfirst.
  destruct Hfirst as [Hd1 Hcent].
  assert (Hc : LineItem.invoice_id c = k) by (apply Hk; left; reflexivity).
  assert (Hamount : invoice_amount d1 k = invoice_amount d k)
    by (subst d1; reflexivity).
  assert (Hsum : line_items_sum d1 k
                 = line_items_sum d k + LineItems.generated_amount c).
  { subst d1. simpl map. rewrite line_items_sum_app. rewrite <- Hc.
    rewrite line_items_sum_one. reflexivity. }
  destruct j as [ | j]; [ lia | ]. destruct j as [ | j].
  - specialize (Hcent c (or_introl eq_refl)). rewrite Hc in Hcent.
    destruct Hcent as [a [Ha Hle]]. exists a.
    rewrite <- Hamount. split; [ exact Ha | ].
    unfold generated_total. simpl. rewrite Hsum in Hle. lia.
  - destruct (IH d1 d' Hrest (fun x Hx => Hk x (or_intror Hx)) (S j))
      as [a [Ha Hle]]; [ simpl in Hj; lia | ].
    exists a. rewrite <- Hamount. split; [ exact Ha | ].
    rewrite Hsum in Hle.
    change (generated_total (firstn (S (S j)) (c :: rows)))
      with (LineItems.generated_amount c
            + generated_total (firstn (S j) rows)).
    lia.
Qed.

(** C10. Every stored line item has [quantity > 0], [unit_price > 0] and
    the derived [amount = quantity * unit_price > 0]. A statement that inserts
    or updates line items succeeds only if, once all its rows are written, the
    line items of each written row's invoice sum to the invoice amount within
    0.01; otherwise it raises and the table is left as it was. Hence line
    items inserted by separate single-row statements all go through only if
    every prefix sums to the invoice amount within 0.01. *)
Theorem C10_line_items_sum_checked_after_each_statement (d : db) :
  reachable d ->
  (forall r, In r (line_items d) ->
             0 < LineItem.quantity (LineItem.base r)
             /\ 0 < LineItem.unit_price (LineItem.base r)
             /\ LineItem.amount r
                = LineItem.quantity (LineItem.base r)
                  * LineItem.unit_price (LineItem.base r)
             /\ 0 < LineItem.amount r)
  /\ (forall rows d' n,
         insert_line_items d rows = Ok (d', n) ->
         forall c, In c rows -> within_a_cent d' (LineItem.invoice_id c))
  /\ (forall where_ set d' n,
         update_line_items d where_ set = Ok (d', n) ->
         forall r, In r (line_items d) -> where_ r = true ->
                   within_a_cent d' (LineItem.invoice_id (set r)))
  /\ (forall rows c,
         In c rows ->
         ~ within_a_cent
             (with_line_items (line_items d ++ map LineItems.stored rows) d)
             (LineItem.invoice_id c) ->
         is_ok (insert_line_items d rows) = false
         /\ after d (InsertLineItems rows) = d)
  /\ (forall k rows d',
         exec_all d (one_by_one rows) = Ok d' ->
         (forall c, In c rows -> LineItem.invoice_id c = k) ->
         forall j, (0 < j <= List.length rows)%nat ->
           exists a, invoice_amount d k = Some a
                     /\ Z.abs (line_items_sum d k
                               + generated_total (firstn j rows) - a) <= 1).
Proof.
  intros Hreach. split; [ | split; [ | split; [ | split ] ] ].
  - intros r Hin.
    pose proof (line_items_rows (reachable_consistent Hreach)) as Hrows.
    rewrite Forall_forall in Hrows.
    destruct (Hrows r Hin) as [Hstored [Hq Hp]].
    unfold LineItems.quantity_check in Hq.
    unfold LineItems.unit_price_check in Hp.
    apply Z.ltb_lt in Hq. apply Z.ltb_lt in Hp.
    assert (Hamount : LineItem.amount r
                      = LineItem.quantity (LineItem.base r)
                        * LineItem.unit_price (LineItem.base r))
      by (rewrite Hstored at 1; reflexivity).
    repeat split; try assumption. rewrite Hamount. apply Z.mul_pos_pos; assumption.
  - intros rows d' n H. apply insert_line_items_ok in H. apply H.
  - intros w f d' n H. eapply update_line_items_ok; [ | exact H ].
    apply reachable_consistent. exact Hreach.
  - intros rows c Hin Hoff.
    assert (Hko : is_ok (insert_line_items d rows) = false).
    { destruct (insert_line_items d rows) as [[d' n] | e] eqn:E;
        [ | reflexivity ].
      apply insert_line_items_ok in E. destruct E as [-> Hcent].
      exfalso. apply Hoff. apply Hcent. exact Hin. }
    split; [ exact Hko | ]. apply after_of_failure. exact Hko.
  - intros k rows d'. apply one_by_one_prefixes.
Qed.

Lemma C10_witness :
  reachable Scenario.in_progress
  /\ after Scenario.in_progress
           (InsertLineItems [Scenario.line "a" 1 1 (Decimal.usd 30000 0)])
     = Scenario.in_progress
  /\ exec_all Scenario.in_progress (one_by_one Scenario.three_lines)
     = Ok (run Scenario.in_progress (one_by_one Scenario.three_lines))
  /\ (exists a,
         invoice_amount Scenario.in_progress "INV-001" = Some a
         /\ Z.abs (line_items_sum Scenario.in_progress "INV-001"
                   + generated_total (firstn 2 Scenario.three_lines) - a)
            <= 1).
Proof.
  assert (Hd : reachable Scenario.in_progress).
  { apply reachable_run, reachable_initial. }
  assert (Hall : exec_all Scenario.in_progress
                          (one_by_one Scenario.three_lines)
                 = Ok (run Scenario.in_progress
                           (one_by_one Scenario.three_lines)))
    by (vm_compute; reflexivity).
  split; [ exact Hd | ].
  destruct (C10_line_items_sum_checked_after_each_statement Hd)
    as [_ [_ [_ [Hraise Hprefix]]]].
  split; [ | split; [ exact Hall | ] ].
  - apply (Hraise [Scenario.line "a" 1 1 (Decimal.usd 30000 0)]
                  (Scenario.line "a" 1 1 (Decimal.usd 30000 0))).
    + left. reflexivity.
    + intros [a [Ha Hle]]. vm_compute in Ha. inversion Ha; subst a.
      vm_compute in Hle. apply Hle. reflexivity.
  - apply (Hprefix "INV-001" Scenario.three_lines _ Hall).
    + intros c [<- | [<- | [<- | []]]]; reflexivity.
    + simpl. lia.
Defined.

(* ================================================================== *)
(** * Further properties *)

(** ** Keys *)

Section KeyFacts.

Variables (row : Type) (key : row -> string).


Lemma others_keeps (k k' : string) (t : list row) :
  k' <> k ->
  existsb (has_key key k') t = true ->
  existsb (has_key key k') (others key k t) = true.
Proof.
  intros Hne H. apply existsb_exists in H. destruct H as [r [Hin Hr]].
  apply existsb_exists. exists r. split; [ | exact Hr ].
  unfold others. apply filter_In. split; [ exact Hin | ].
  apply negb_true_iff. apply has_key_true in Hr.
  destruct (has_key key k r) eqn:E; [ | reflexivity ].
  apply has_key_true in E. congruence.
Qed.

Lemma has_key_exists (k : string) (t : list row) (r : row) :
  In r t -> key r = k -> existsb (has_key key k) t = true.
Proof.
  intros Hin Hk. apply existsb_exists. exists r.
  split; [ exact Hin | apply has_key_true; exact Hk ].
Qed.

Lemma find_row_some (k : string) (t : list row) :
  existsb (has_key key k) t = true -> exists r, find_row key k t = Some r.
Proof.
  unfold find_row. induction t as [ | x t IH]; simpl; [ discriminate | ].
  destruct (has_key key k x); simpl.
  - intros _. exists x. reflexivity.
  - exact IH.
Qed.

(** With distinct keys, the row of a key is the one [find_row] returns. *)
Lemma find_row_unique (t : list row) (r : row) :
  NoDup (map key t) -> In r t -> find_row key (key r) t = Some r.
Proof.
  unfold find_row. induction t as [ | x t IH]; simpl; intros Hnd Hin;
    [ contradiction | ].
  inversion Hnd as [ | y l Hx Hrest]; subst.
  destruct (has_key key (key r) x) eqn:E.
  - apply has_key_true in E. destruct Hin as [-> | Hin]; [ reflexivity | ].
    exfalso. apply Hx. rewrite E. apply in_map. exact Hin.
  - destruct Hin as [-> | Hin]; [ | exact (IH Hrest Hin) ].
    assert (E' : has_key key (key r) r = true)
      by (apply has_key_true; reflexivity).
    congruence.
Qed.

End KeyFacts.

Section InjectiveColumns.

Variables (row K : Type) (f : row -> K).

Lemma NoDup_map_injective (t : list row) (a b : row) :
  NoDup (map f t) -> In a t -> In b t -> f a = f b -> a = b.
Proof.
  induction t as [ | x t IH]; simpl; intros Hnd Ha Hb Hf; [ contradiction | ].
  inversion Hnd as [ | y l Hx Hrest]; subst.
  destruct Ha as [-> | Ha]; destruct Hb as [-> | Hb].
  - reflexivity.
  - exfalso. apply Hx. rewrite Hf. apply in_map. exact Hb.
  - exfalso. apply Hx. rewrite <- Hf. apply in_map. exact Ha.
  - exact (IH Hrest Ha Hb Hf).
Qed.

Lemma NoDup_middle (a b : list row) (r : row) :
  NoDup (map f (a ++ b)) -> ~ In (f r) (map f (a ++ b)) ->
  NoDup (map f (a ++ r :: b)).
Proof.
  induction a as [ | x a IH]; simpl; intros Hnd Hnot.
  - constructor; assumption.
  - inversion Hnd as [ | y l Hx Hrest]; subst. constructor.
    + rewrite map_app in *. simpl. intros Hin.
      apply in_app_or in Hin. destruct Hin as [Hin | [Hin | Hin]].
      * apply Hx. apply in_or_app. left. exact Hin.
      * apply Hnot. left. symmetry. exact Hin.
      * apply Hx. apply in_or_app. right. exact Hin.
    + apply IH; [ exact Hrest | ]. intros Hin. apply Hnot. right. exact Hin.
Qed.

Lemma NoDup_middle_out (a b : list row) (r : row) :
  NoDup (map f (a ++ r :: b)) -> NoDup (map f (a ++ b)).
Proof.
  rewrite !map_app. simpl. apply NoDup_remove_1.
Qed.

End InjectiveColumns.

Lemma check_invoice_all (d : db) (t : list Invoice.t) (i : Invoice.t)
    (u : unit) :
  check_invoice d t i = Ok u ->
  invoice_checks i = true
  /\ ~ In (Invoice.id i) (map Invoice.id t)
  /\ ~ In (Invoice.invoice_hash i) (map Invoice.invoice_hash t)
  /\ account_exists d (Invoice.supplier_id i) = true
  /\ account_exists d (Invoice.buyer_id i) = true.
Proof.
  unfold check_invoice. intros H. checks H. apply require_ok in H.
  split; [ | split; [ | split; [ | split ] ] ].
  - unfold invoice_checks.
    repeat match goal with
           | Hc : ?b = true |- context [?b] => rewrite Hc
           end.
    reflexivity.
  - apply no_key_not_in. apply negb_true_iff. assumption.
  - apply no_key_not_in. apply negb_true_iff. assumption.
  - assumption.
  - assumption.
Qed.

Lemma same_line_true (a b : LineItem.cols) :
  same_line a b = true <-> line_key a = line_key b.
Proof.
  unfold same_line, line_key. rewrite andb_true_iff, String.eqb_eq, Z.eqb_eq.
  split; [ intros [-> ->]; reflexivity | intros H; inversion H; auto ].
Qed.

Lemma check_line_item_keys (t : list LineItem.t) (c : LineItem.cols)
    (u : unit) :
  check_line_item t c = Ok u ->
  ~ In (LineItem.id c) (map line_item_id_of t)
  /\ ~ In (line_key c) (map (fun r => line_key (LineItem.base r)) t).
Proof.
  unfold check_line_item. intros H. checks H. apply require_ok in H. split.
  - apply (no_key_not_in line_item_id_of). apply negb_true_iff. assumption.
  - apply negb_true_iff in H. intros Hin. apply in_map_iff in Hin.
    destruct Hin as [r [Hr Hin]].
    assert (E : existsb (fun r => same_line (LineItem.base r) c) t = true).
    { apply existsb_exists. exists r. split; [ exact Hin | ].
      apply same_line_true. exact Hr. }
    congruence.
Qed.

Lemma store_line_items_keys (rows : list LineItem.cols) :
  forall t t',
    store_line_items t rows = Ok t' ->
    NoDup (map line_item_id_of t) ->
    NoDup (map (fun r => line_key (LineItem.base r)) t) ->
    NoDup (map line_item_id_of t')
    /\ NoDup (map (fun r => line_key (LineItem.base r)) t').
Proof.
  induction rows as [ | c rows IH]; simpl; intros t t' H Hid Hline.
  - inversion H; subst. split; assumption.
  - apply bind_ok in H. destruct H as [u [Hc H]].
    apply check_line_item_keys in Hc. destruct Hc as [Hnew Hnewline].
    apply (IH _ _ H).
    + apply snoc_map_NoDup; assumption.
    + apply snoc_map_NoDup; assumption.
Qed.

Lemma rewrite_line_items_keys (where_ : LineItem.t -> bool)
    (set : LineItem.t -> LineItem.cols) (todo : list LineItem.t) :
  forall done out,
    rewrite_line_items where_ set done todo = Ok out ->
    NoDup (map line_item_id_of (done ++ todo)) ->
    NoDup (map (fun r => line_key (LineItem.base r)) (done ++ todo)) ->
    NoDup (map line_item_id_of (fst out))
    /\ NoDup (map (fun r => line_key (LineItem.base r)) (fst out)).
Proof.
  induction todo as [ | r rest IH]; simpl; intros done out H Hid Hline.
  - inversion H; subst. simpl. rewrite app_nil_r in *. split; assumption.
  - destruct (where_ r).
    + apply bind_ok in H. destruct H as [u [Hc H]].
      apply bind_ok in H. destruct H as [out' [Hrec H]]. inversion H; subst.
      simpl. apply check_line_item_keys in Hc. destruct Hc as [Hnew Hnewline].
      apply (IH _ _ Hrec); rewrite <- app_assoc; simpl.
      * apply NoDup_middle; [ | exact Hnew ].
        exact (NoDup_middle_out _ _ _ _ Hid).
      * apply (NoDup_middle (fun x => line_key (LineItem.base x)));
          [ | exact Hnewline ].
        exact (NoDup_middle_out _ _ _ _ Hline).
    + apply (IH _ _ H); rewrite <- app_assoc; assumption.
Qed.

Lemma check_settlement_keys (d : db) (t : list Settlement.t)
    (c : Settlement.cols) (u : unit) :
  check_settlement d t c = Ok u ->
  ~ In (Settlement.id c) (map settlement_id_of t)
  /\ settlement_refs d (Settlements.stored c).
Proof.
  unfold check_settlement. intros H. checks H. apply require_ok in H. split.
  - apply no_key_not_in. apply negb_true_iff. assumption.
  - repeat split; assumption.
Qed.

Lemma check_leg_keys (d : db) (t : list Leg.t) (l : Leg.t) (u : unit) :
  check_leg d t l = Ok u ->
  ~ In (Leg.id l) (map Leg.id t)
  /\ settlement_exists d (Leg.settlement_id l) = true
  /\ account_exists d (Leg.account_id l) = true.
Proof.
  unfold check_leg. intros H. checks H. apply require_ok in H. split.
  - apply no_key_not_in. apply negb_true_iff. assumption.
  - split; assumption.
Qed.

Lemma check_quote_keys (d : db) (t : list Quote.t) (q : Quote.t) (u : unit) :
  check_quote d t q = Ok u ->
  ~ In (Quote.id q) (map Quote.id t)
  /\ invoice_exists d (Quote.invoice_id q) = true.
Proof.
  unfold check_quote. intros H. checks H. apply require_ok in H. split.
  - apply no_key_not_in. apply negb_true_iff. assumption.
  - assumption.
Qed.

Lemma check_decision_keys (t : list Decision.t) (r : Decision.t) (u : unit) :
  check_decision t r = Ok u -> ~ In (Decision.id r) (map Decision.id t).
Proof.
  unfold check_decision. intros H. checks H. apply require_ok in H.
  apply negb_true_iff in H. intros Hin. apply in_map_iff in Hin.
  destruct Hin as [x [Hx Hin]].
  assert (E : existsb (fun x => decision_key x (Decision.id r)) t = true).
  { apply existsb_exists. exists x. split; [ exact Hin | ].
    unfold decision_key. apply Z.eqb_eq. exact Hx. }
  congruence.
Qed.

Lemma initial_keyed : keyed initial_db.
Proof. constructor; simpl; constructor. Qed.

Lemma exec_keyed (d d' : db) (s : stmt) (n : nat) :
  keyed d -> exec d s = Ok (d', n) -> keyed d'.
Proof.
  intros Hd H. destruct s; simpl in H.
  - unfold insert_invoice in H. apply bind_ok in H.
    destruct H as [u [Hc H]]. inversion H; subst.
    apply check_invoice_all in Hc. destruct Hc as [_ [Hid [Hhash _]]].
    destruct Hd. constructor; simpl; try assumption;
      apply snoc_map_NoDup; assumption.
  - unfold update_invoice in H.
    destruct (find_row Invoice.id k (invoices d)); [ | inversion H; subst; exact Hd ].
    apply bind_ok in H. destruct H as [u [Hc H]].
    apply bind_ok in H. destruct H as [u' [_ H]]. inversion H; subst.
    apply check_invoice_all in Hc. destruct Hc as [_ [Hid [Hhash _]]].
    destruct Hd. constructor; simpl; try assumption;
      (apply snoc_map_NoDup; [ apply filter_map_NoDup; assumption | assumption ]).
  - unfold insert_line_items in H. apply bind_ok in H.
    destruct H as [t' [Hs H]]. apply bind_ok in H.
    destruct H as [u [_ H]]. inversion H; subst.
    destruct Hd.
    destruct (store_line_items_keys _ _ Hs line_item_ids0 line_item_lines0).
    constructor; simpl; assumption.
  - unfold update_line_items in H. apply bind_ok in H.
    destruct H as [out [Hrw H]]. apply bind_ok in H.
    destruct H as [u [_ H]]. inversion H; subst.
    destruct Hd.
    destruct (rewrite_line_items_keys _ _ _ _ Hrw line_item_ids0
                                      line_item_lines0).
    constructor; simpl; assumption.
  - unfold insert_settlement in H. apply bind_ok in H.
    destruct H as [u [Hc H]]. inversion H; subst.
    apply check_settlement_keys in Hc. destruct Hc as [Hid _].
    destruct Hd. constructor; simpl; try assumption.
    apply snoc_map_NoDup; assumption.
  - unfold update_settlement in H.
    destruct (find_row settlement_id_of k (settlements d));
      [ | inversion H; subst; exact Hd ].
    apply bind_ok in H. destruct H as [u [Hc H]].
    apply bind_ok in H. destruct H as [u' [_ H]]. inversion H; subst.
    apply check_settlement_keys in Hc. destruct Hc as [Hid _].
    destruct Hd. constructor; simpl; try assumption.
    apply snoc_map_NoDup; [ apply filter_map_NoDup; assumption | assumption ].
  - unfold insert_leg in H. apply bind_ok in H.
    destruct H as [u [Hc H]]. inversion H; subst.
    apply check_leg_keys in Hc. destruct Hc as [Hid _].
    destruct Hd. constructor; simpl; try assumption.
    apply snoc_map_NoDup; assumption.
  - unfold update_leg in H.
    destruct (find_row Leg.id k (settlement_legs d));
      [ | inversion H; subst; exact Hd ].
    apply bind_ok in H. destruct H as [u [Hc H]]. inversion H; subst.
    apply check_leg_keys in Hc. destruct Hc as [Hid _].
    destruct Hd. constructor; simpl; try assumption.
    apply snoc_map_NoDup; [ apply filter_map_NoDup; assumption | assumption ].
  - unfold insert_quote in H. apply bind_ok in H.
    destruct H as [u [Hc H]]. inversion H; subst.
    apply check_quote_keys in Hc. destruct Hc as [Hid _].
    destruct Hd. constructor; simpl; try assumption.
    apply snoc_map_NoDup; assumption.
  - unfold update_quote in H.
    destruct (find_row Quote.id k (pricing_quotes d));
      [ | inversion H; subst; exact Hd ].
    apply bind_ok in H. destruct H as [u [Hc H]]. inversion H; subst.
    apply check_quote_keys in Hc. destruct Hc as [Hid _].
    destruct Hd. constructor; simpl; try assumption.
    apply snoc_map_NoDup; [ apply filter_map_NoDup; assumption | assumption ].
  - unfold insert_decision in H. simpl in H. apply bind_ok in H.
    destruct H as [u [Hc H]]. inversion H; subst.
    apply check_decision_keys in Hc.
    destruct Hd. constructor; simpl; try assumption.
    apply snoc_map_NoDup; assumption.
  - rewrite update_decisions_nothing in H. inversion H; subst. exact Hd.
  - rewrite delete_decisions_nothing in H. inversion H; subst. exact Hd.
Qed.

Lemma run_keeps (P : db -> Prop) :
  (forall d d' s n, P d -> exec d s = Ok (d', n) -> P d') ->
  forall script d, P d -> P (run d script).
Proof.
  intros Hstep script. induction script as [ | s script IH]; simpl; intros d Hd.
  - exact Hd.
  - apply IH. unfold after. destruct (exec d s) as [[d' n] | e] eqn:E.
    + exact (Hstep _ _ _ _ Hd E).
    + exact Hd.
Qed.

Lemma reachable_keyed (d : db) : reachable d -> keyed d.
Proof.
  intros [script ->]. apply (run_keeps keyed exec_keyed). exact initial_keyed.
Qed.


(** ** References *)

Lemma Forall_impl_in (A : Type) (P Q : A -> Prop) (t : list A) :
  (forall a, In a t -> P a -> Q a) -> Forall P t -> Forall Q t.
Proof.
  intros H Hp. apply Forall_forall. intros a Ha.
  rewrite Forall_forall in Hp. exact (H a Ha (Hp a Ha)).
Qed.

Lemma existsb_snoc (A : Type) (p : A -> bool) (t : list A) (a : A) :
  existsb p t = true -> existsb p (t ++ [a]) = true.
Proof.
  intros H. rewrite existsb_app, H. reflexivity.
Qed.

Lemma exists_after_update (row : Type) (key : row -> string)
    (t : list row) (k x : string) (new : row) :
  existsb (has_key key x) t = true ->
  key new = k \/ x <> k ->
  existsb (has_key key x) (others key k t ++ [new]) = true.
Proof.
  intros H Hor. destruct (String.eqb_spec x k) as [-> | Hne].
  - destruct Hor as [Hk | Hk]; [ | congruence ].
    rewrite existsb_app. simpl.
    assert (E : has_key key k new = true)
      by (apply has_key_true; exact Hk).
    rewrite E. apply orb_true_iff. right. reflexivity.
  - apply existsb_snoc. apply others_keeps; assumption.
Qed.

Lemma not_referenced (A : Type) (ref : A -> string) (t : list A) (k : string)
    (r : A) :
  existsb (fun r => String.eqb (ref r) k) t = false -> In r t -> ref r <> k.
Proof.
  intros H Hin Hk.
  assert (E : existsb (fun r => String.eqb (ref r) k) t = true).
  { apply existsb_exists. exists r. split; [ exact Hin | ].
    apply String.eqb_eq. exact Hk. }
  congruence.
Qed.

Lemma initial_linked : linked initial_db.
Proof. constructor; simpl; try constructor. Qed.

Lemma insert_invoice_linked (d d' : db) (i : Invoice.t) (n : nat) :
  linked d -> insert_invoice d i = Ok (d', n) -> linked d'.
Proof.
  intros Hd H. unfold insert_invoice in H. apply bind_ok in H.
  destruct H as [u [Hc H]]. inversion H; subst.
  apply check_invoice_all in Hc. destruct Hc as [Hrow [_ [_ [Hs Hb]]]].
  destruct Hd. constructor; simpl; try assumption.
  - apply Forall_snoc; assumption.
  - apply Forall_snoc; [ assumption | split; assumption ].
  - revert line_item_invoices0. apply Forall_impl. intros r Hr.
    apply existsb_snoc. exact Hr.
  - revert settlement_links0. apply Forall_impl.
    intros s [Hi Hrest]. split; [ | exact Hrest ].
    apply existsb_snoc. exact Hi.
  - revert quote_invoices0. apply Forall_impl. intros q Hq.
    apply existsb_snoc. exact Hq.
Qed.

Lemma update_invoice_linked (d d' : db) (k : string) (now : timestamptz)
    (i : Invoice.t) (n : nat) :
  linked d -> update_invoice d k now i = Ok (d', n) -> linked d'.
Proof.
  intros Hd H. unfold update_invoice in H.
  destruct (find_row Invoice.id k (invoices d));
    [ | inversion H; subst; exact Hd ].
  apply bind_ok in H. destruct H as [u [Hc H]].
  apply bind_ok in H. destruct H as [u' [Hfk H]]. inversion H; subst.
  apply require_ok in Hfk.
  apply check_invoice_all in Hc. destruct Hc as [Hrow [_ [_ [Hs Hb]]]].
  assert (Hkeep : forall (A : Type) (ref : A -> string) (rows : list A)
                          (r : A),
             (invoice_referenced d k = false ->
              existsb (fun r => String.eqb (ref r) k) rows = false) ->
             In r rows ->
             Invoice.id (Invoice.set_updated_at now i) = k \/ ref r <> k).
  { intros A ref rows r Href Hin. apply orb_true_iff in Hfk.
    destruct Hfk as [Hsame | Hfree].
    - left. apply String.eqb_eq. exact Hsame.
    - right. apply negb_true_iff in Hfree.
      exact (@not_referenced _ ref rows k r (Href Hfree) Hin). }
  destruct Hd. constructor; simpl; try assumption.
  - apply Forall_snoc; [ apply others_Forall | ]; assumption.
  - apply Forall_snoc; [ apply others_Forall; assumption | split; assumption ].
  - revert line_item_invoices0. apply Forall_impl_in. intros r Hin Hr.
    apply exists_after_update; [ exact Hr | ].
    apply (Hkeep _ (fun r => LineItem.invoice_id (LineItem.base r))
                 (line_items d) r); [ | exact Hin ].
    unfold invoice_referenced. intros E.
    apply orb_false_iff in E. destruct E as [E _].
    apply orb_false_iff in E. destruct E as [E _]. exact E.
  - revert settlement_links0. apply Forall_impl_in.
    intros s Hin [Hi Hrest]. split; [ | exact Hrest ].
    apply exists_after_update; [ exact Hi | ].
    apply (Hkeep _ settlement_invoice_of (settlements d) s); [ | exact Hin ].
    unfold invoice_referenced. intros E.
    apply orb_false_iff in E. destruct E as [E _].
    apply orb_false_iff in E. destruct E as [_ E]. exact E.
  - revert quote_invoices0. apply Forall_impl_in. intros q Hin Hq.
    apply exists_after_update; [ exact Hq | ].
    apply (Hkeep _ Quote.invoice_id (pricing_quotes d) q); [ | exact Hin ].
    unfold invoice_referenced. intros E.
    apply orb_false_iff in E. destruct E as [_ E]. exact E.
Qed.

Lemma store_line_items_linked (d : db) (rows : list LineItem.cols) (u : unit) :
  for_each (fun c => require (invoice_exists d (LineItem.invoice_id c))
                             (ForeignKeyViolation "line_items_invoice_id_fkey"))
           rows = Ok u ->
  Forall (fun r => invoice_exists d (LineItem.invoice_id (LineItem.base r))
                   = true)
         (map LineItems.stored rows).
Proof.
  intros H. apply Forall_forall. intros r Hin. apply in_map_iff in Hin.
  destruct Hin as [c [<- Hin]]. simpl.
  pose proof (for_each_ok _ _ H c Hin) as Hc. apply require_ok in Hc.
  exact Hc.
Qed.

Lemma insert_line_items_linked (d d' : db) (rows : list LineItem.cols)
    (n : nat) :
  linked d -> insert_line_items d rows = Ok (d', n) -> linked d'.
Proof.
  intros Hd H. unfold insert_line_items in H. apply bind_ok in H.
  destruct H as [t' [Hs H]]. apply bind_ok in H.
  destruct H as [u [Hafter H]]. inversion H; subst.
  apply store_line_items_ok in Hs. destruct Hs as [-> _].
  unfold after_line_items in Hafter. apply bind_ok in Hafter.
  destruct Hafter as [u' [Hfk _]].
  apply store_line_items_linked in Hfk.
  destruct Hd. constructor; simpl; try assumption.
  apply Forall_app. split; assumption.
Qed.

Lemma rewrite_line_items_rows (where_ : LineItem.t -> bool)
    (set : LineItem.t -> LineItem.cols) (todo : list LineItem.t) :
  forall done out,
    rewrite_line_items where_ set done todo = Ok out ->
    forall r, In r (fst out) ->
              In r done \/ In r todo
              \/ exists c, In c (snd out) /\ r = LineItems.stored c.
Proof.
  induction todo as [ | x rest IH]; simpl; intros done out H r Hin.
  - inversion H; subst. left. exact Hin.
  - destruct (where_ x).
    + apply bind_ok in H. destruct H as [u [_ H]].
      apply bind_ok in H. destruct H as [out' [Hrec H]]. inversion H; subst.
      simpl in *. destruct (IH _ _ Hrec r Hin) as [Hd | [Ht | [c [Hc Hr]]]].
      * apply in_app_or in Hd. destruct Hd as [Hd | [<- | []]].
        -- left. exact Hd.
        -- right. right. exists (set x). split; [ left | ]; reflexivity.
      * right. left. right. exact Ht.
      * right. right. exists c. split; [ right; exact Hc | exact Hr ].
    + destruct (IH _ _ H r Hin) as [Hd | [Ht | Hnew]].
      * apply in_app_or in Hd. destruct Hd as [Hd | [<- | []]].
        -- left. exact Hd.
        -- right. left. left. reflexivity.
      * right. left. right. exact Ht.
      * right. right. exact Hnew.
Qed.

Lemma update_line_items_linked (d d' : db) (where_ : LineItem.t -> bool)
    (set : LineItem.t -> LineItem.cols) (n : nat) :
  linked d -> update_line_items d where_ set = Ok (d', n) -> linked d'.
Proof.
  intros Hd H. unfold update_line_items in H. apply bind_ok in H.
  destruct H as [out [Hrw H]]. apply bind_ok in H.
  destruct H as [u [Hafter H]]. inversion H; subst.
  unfold after_line_items in Hafter. apply bind_ok in Hafter.
  destruct Hafter as [u' [Hfk _]].
  destruct Hd. constructor; simpl; try assumption.
  apply Forall_forall. intros r Hin.
  destruct (rewrite_line_items_rows _ _ _ _ Hrw r Hin)
    as [[] | [Hold | [c [Hc ->]]]].
  - rewrite Forall_forall in line_item_invoices0.
    exact (line_item_invoices0 r Hold).
  - pose proof (for_each_ok _ _ Hfk c Hc) as Hok. apply require_ok in Hok.
    exact Hok.
Qed.

Lemma insert_settlement_linked (d d' : db) (c : Settlement.cols) (n : nat) :
  linked d -> insert_settlement d c = Ok (d', n) -> linked d'.
Proof.
  intros Hd H. unfold insert_settlement in H. apply bind_ok in H.
  destruct H as [u [Hc H]]. inversion H; subst.
  apply check_settlement_keys in Hc. destruct Hc as [_ Hrefs].
  destruct Hd. constructor; simpl; try assumption.
  - apply Forall_snoc; assumption.
  - revert leg_links0. apply Forall_impl. intros l [Hs Ha].
    split; [ | exact Ha ]. apply existsb_snoc. exact Hs.
Qed.

Lemma update_settlement_linked (d d' : db) (k : string)
    (c : Settlement.cols) (n : nat) :
  linked d -> update_settlement d k c = Ok (d', n) -> linked d'.
Proof.
  intros Hd H. unfold update_settlement in H.
  destruct (find_row settlement_id_of k (settlements d));
    [ | inversion H; subst; exact Hd ].
  apply bind_ok in H. destruct H as [u [Hc H]].
  apply bind_ok in H. destruct H as [u' [Hfk H]]. inversion H; subst.
  apply require_ok in Hfk.
  apply check_settlement_keys in Hc. destruct Hc as [_ Hrefs].
  destruct Hd. constructor; simpl; try assumption.
  - apply Forall_snoc; [ apply others_Forall | ]; assumption.
  - revert leg_links0. apply Forall_impl_in. intros l Hin [Hs Ha].
    split; [ | exact Ha ].
    apply (exists_after_update settlement_id_of); [ exact Hs | ].
    apply orb_true_iff in Hfk. destruct Hfk as [Hsame | Hfree].
    + left. apply String.eqb_eq. exact Hsame.
    + right. apply negb_true_iff in Hfree.
      exact (@not_referenced _ Leg.settlement_id _ k l Hfree Hin).
Qed.

Lemma exec_linked (d d' : db) (s : stmt) (n : nat) :
  linked d -> exec d s = Ok (d', n) -> linked d'.
Proof.
  intros Hd H. destruct s; simpl in H.
  - eapply insert_invoice_linked; eassumption.
  - eapply update_invoice_linked; eassumption.
  - eapply insert_line_items_linked; eassumption.
  - eapply update_line_items_linked; eassumption.
  - eapply insert_settlement_linked; eassumption.
  - eapply update_settlement_linked; eassumption.
  - unfold insert_leg in H. apply bind_ok in H.
    destruct H as [u [Hc H]]. inversion H; subst.
    apply check_leg_keys in Hc. destruct Hc as [_ Hrefs].
    destruct Hd. constructor; simpl; try assumption.
    apply Forall_snoc; assumption.
  - unfold update_leg in H.
    destruct (find_row Leg.id k (settlement_legs d));
      [ | inversion H; subst; exact Hd ].
    apply bind_ok in H. destruct H as [u [Hc H]]. inversion H; subst.
    apply check_leg_keys in Hc. destruct Hc as [_ Hrefs].
    destruct Hd. constructor; simpl; try assumption.
    apply Forall_snoc; [ apply others_Forall | ]; assumption.
  - unfold insert_quote in H. apply bind_ok in H.
    destruct H as [u [Hc H]]. inversion H; subst.
    apply check_quote_keys in Hc. destruct Hc as [_ Href].
    destruct Hd. constructor; simpl; try assumption.
    apply Forall_snoc; assumption.
  - unfold update_quote in H.
    destruct (find_row Quote.id k (pricing_quotes d));
      [ | inversion H; subst; exact Hd ].
    apply bind_ok in H. destruct H as [u [Hc H]]. inversion H; subst.
    apply check_quote_keys in Hc. destruct Hc as [_ Href].
    destruct Hd. constructor; simpl; try assumption.
    apply Forall_snoc; [ apply others_Forall | ]; assumption.
  - apply insert_decision_ok in H. subst d'.
    destruct Hd. constructor; simpl; assumption.
  - rewrite update_decisions_nothing in H. inversion H; subst. exact Hd.
  - rewrite delete_decisions_nothing in H. inversion H; subst. exact Hd.
Qed.

Lemma reachable_linked (d : db) : reachable d -> linked d.
Proof.
  intros [script ->]. apply (run_keeps linked exec_linked). exact initial_linked.
Qed.


(** ** Rewriting a stored invoice *)

Lemma invoice_checks_split (i : Invoice.t) :
  invoice_checks i = true ->
  Invoices.columns_fit i = true /\ Invoices.amount_check i = true
  /\ Invoices.currency_check i = true /\ Invoices.terms_check i = true
  /\ Invoices.status_check i = true /\ Invoices.different_parties i = true
  /\ Invoices.valid_fraud_score i = true.
Proof.
  unfold invoice_checks. intros H.
  do 6 (apply andb_true_iff in H; destruct H as [H ?]).
  repeat split; assumption.
Qed.

Lemma status_value_fits (st : string) :
  in_list st Invoices.status_values = true -> varchar 20 st = true.
Proof.
  intros H. apply in_list_In in H. simpl in H.
  repeat (destruct H as [<- | H]; [ reflexivity | ]). contradiction.
Qed.

Lemma invoice_checks_set_status (i : Invoice.t) (st : string) :
  invoice_checks i = true ->
  in_list st Invoices.status_values = true ->
  invoice_checks (Invoice.set_status st i) = true.
Proof.
  intros Hi Hst. pose proof (status_value_fits st Hst) as Hfit.
  destruct i. unfold invoice_checks in *.
  unfold Invoice.set_status, Invoices.columns_fit, Invoices.amount_check,
    Invoices.currency_check, Invoices.terms_check, Invoices.status_check,
    Invoices.different_parties, Invoices.valid_fraud_score in *.
  cbn [Invoice.id Invoice.supplier_id Invoice.buyer_id Invoice.amount
       Invoice.currency Invoice.terms Invoice.status Invoice.fraud_score
       Invoice.fraud_score_calculated_at Invoice.invoice_hash
       Invoice.purchase_order_id Invoice.notes] in *.
  repeat (apply andb_true_iff in Hi; destruct Hi as [Hi ?]).
  repeat match goal with
         | Hc : ?b = true |- context [?b] => rewrite Hc
         end.
  reflexivity.
Qed.

Lemma invoice_checks_set_amount (i : Invoice.t) (a : Z) :
  invoice_checks i = true ->
  Decimal.usd 100 0 <= a <= Decimal.usd 10000000 0 ->
  invoice_checks (Invoice.set_amount a i) = true.
Proof.
  intros Hi Ha.
  assert (Hfits : Decimal.fits 15 a = true).
  { unfold Decimal.usd in Ha. unfold Decimal.fits. apply Z.ltb_lt.
    change (10 ^ 15) with 1000000000000000. lia. }
  assert (Hrange : (Decimal.usd 100 0 <=? a) && (a <=? Decimal.usd 10000000 0)
                   = true).
  { apply andb_true_iff. rewrite !Z.leb_le. exact Ha. }
  destruct i. unfold invoice_checks in *.
  unfold Invoice.set_amount, Invoices.columns_fit, Invoices.amount_check,
    Invoices.currency_check, Invoices.terms_check, Invoices.status_check,
    Invoices.different_parties, Invoices.valid_fraud_score in *.
  cbn [Invoice.id Invoice.supplier_id Invoice.buyer_id Invoice.amount
       Invoice.currency Invoice.terms Invoice.status Invoice.fraud_score
       Invoice.fraud_score_calculated_at Invoice.invoice_hash
       Invoice.purchase_order_id Invoice.notes] in *.
  repeat (apply andb_true_iff in Hi; destruct Hi as [Hi ?]).
  repeat match goal with
         | Hc : ?b = true |- context [?b] => rewrite Hc
         end.
  reflexivity.
Qed.

(** A stored invoice rewritten in columns other than its id, hash and
    parties passes every check again as soon as the new row passes the row
    checks. *)
Lemma rewritten_invoice_passes (d : db) (i new : Invoice.t) :
  keyed d -> linked d -> In i (invoices d) ->
  Invoice.id new = Invoice.id i ->
  Invoice.invoice_hash new = Invoice.invoice_hash i ->
  Invoice.supplier_id new = Invoice.supplier_id i ->
  Invoice.buyer_id new = Invoice.buyer_id i ->
  invoice_checks new = true ->
  check_invoice d (others Invoice.id (Invoice.id i) (invoices d)) new = Ok tt.
Proof.
  intros Hk Hl Hin Hid Hhash Hs Hb Hrow.
  destruct (invoice_checks_split _ Hrow) as [H1 [H2 [H3 [H4 [H5 [H6 H7]]]]]].
  pose proof (invoice_parties Hl) as Hparties.
  rewrite Forall_forall in Hparties. destruct (Hparties i Hin) as [Hsup Hbuy].
  assert (Hpk : existsb (has_key Invoice.id (Invoice.id new))
                        (others Invoice.id (Invoice.id i) (invoices d))
                = false)
    by (rewrite Hid; apply others_no_key).
  assert (Hh : existsb (has_key Invoice.invoice_hash (Invoice.invoice_hash new))
                       (others Invoice.id (Invoice.id i) (invoices d))
               = false).
  { destruct (existsb (has_key Invoice.invoice_hash
                                  (Invoice.invoice_hash new))
                         (others Invoice.id (Invoice.id i) (invoices d)))
      eqn:E; [ exfalso | reflexivity ].
    apply existsb_exists in E. destruct E as [j [Hj Hjh]].
    apply has_key_true in Hjh. unfold others in Hj. apply filter_In in Hj.
    destruct Hj as [Hj Hne]. apply negb_true_iff in Hne.
    assert (j = i).
    { apply (NoDup_map_injective Invoice.invoice_hash (invoices d));
        [ exact (invoice_hashes Hk) | exact Hj | exact Hin | congruence ]. }
    subst j.
    assert (E : has_key Invoice.id (Invoice.id i) i = true)
      by (apply has_key_true; reflexivity).
    congruence. }
  unfold check_invoice.
  rewrite H1, H2, H3, H4, H5, H6, H7, Hpk, Hh, Hs, Hb, Hsup, Hbuy.
  reflexivity.
Qed.

Lemma rewritten_invoice_stored (d : db) (i new : Invoice.t)
    (now : timestamptz) :
  keyed d -> linked d -> In i (invoices d) ->
  Invoice.id new = Invoice.id i ->
  Invoice.invoice_hash new = Invoice.invoice_hash i ->
  Invoice.supplier_id new = Invoice.supplier_id i ->
  Invoice.buyer_id new = Invoice.buyer_id i ->
  invoice_checks new = true ->
  update_invoice d (Invoice.id i) now new
  = Ok (with_invoices (others Invoice.id (Invoice.id i) (invoices d)
                       ++ [Invoice.set_updated_at now new]) d, 1%nat).
Proof.
  intros Hk Hl Hin Hid Hhash Hs Hb Hrow. unfold update_invoice.
  rewrite (find_row_unique Invoice.id _ _ (invoice_ids Hk) Hin).
  assert (Hc : check_invoice d (others Invoice.id (Invoice.id i) (invoices d))
                             (Invoice.set_updated_at now new) = Ok tt).
  { apply rewritten_invoice_passes; assumption. }
  rewrite Hc. simpl. rewrite Hid, String.eqb_refl. reflexivity.
Qed.


(** ** Invoices: uniqueness, catalogue checks, row checks *)

Lemma filter_key_absent (row : Type) (key : row -> string) (k : string)
    (t : list row) :
  ~ In k (map key t) -> filter (has_key key k) t = [].
Proof.
  induction t as [ | r t IH]; simpl; intros H; [ reflexivity | ].
  destruct (has_key key k r) eqn:E.
  - exfalso. apply H. left. apply has_key_true. exact E.
  - apply IH. intros Hin. apply H. right. exact Hin.
Qed.

Lemma count_rows_absent (row : Type) (key : row -> string) (k : string)
    (t : list row) :
  ~ In k (map key t) -> count_rows (has_key key k) t = 0%nat.
Proof.
  intros H. unfold count_rows.
  rewrite (@filter_key_absent _ key k t H). reflexivity.
Qed.

Lemma count_rows_snoc (row : Type) (key : row -> string) (t : list row)
    (r : row) :
  ~ In (key r) (map key t) ->
  count_rows (has_key key (key r)) (t ++ [r]) = 1%nat.
Proof.
  intros H. unfold count_rows. rewrite filter_app.
  rewrite (@filter_key_absent _ key (key r) t H). simpl.
  assert (E : has_key key (key r) r = true)
    by (apply has_key_true; reflexivity).
  rewrite E. reflexivity.
Qed.

(** X1. In every reachable state no two invoice rows share an id and no two
    share a content hash; inserting an invoice whose hash is already stored
    raises and leaves the database unchanged. *)
Theorem X1_invoice_id_and_hash_unique (d : db) :
  reachable d ->
  (forall i j, In i (invoices d) -> In j (invoices d) ->
               Invoice.id i = Invoice.id j -> i = j)
  /\ (forall i j, In i (invoices d) -> In j (invoices d) ->
                  Invoice.invoice_hash i = Invoice.invoice_hash j -> i = j)
  /\ (forall i j, In j (invoices d) ->
                  Invoice.invoice_hash i = Invoice.invoice_hash j ->
                  is_ok (insert_invoice d i) = false
                  /\ after d (InsertInvoice i) = d).
Proof.
  intros Hreach. pose proof (reachable_keyed Hreach) as Hk.
  split; [ | split ].
  - intros i j Hi Hj.
    exact (@NoDup_map_injective _ _ Invoice.id (invoices d) i j
             (invoice_ids Hk) Hi Hj).
  - intros i j Hi Hj.
    exact (@NoDup_map_injective _ _ Invoice.invoice_hash (invoices d) i j
             (invoice_hashes Hk) Hi Hj).
  - intros i j Hj Hsame.
    assert (Hko : is_ok (insert_invoice d i) = false).
    { destruct (insert_invoice d i) as [o | e] eqn:E; [ | reflexivity ].
      unfold insert_invoice in E. apply bind_ok in E.
      destruct E as [u [Hc _]]. apply check_invoice_all in Hc.
      destruct Hc as [_ [_ [Hhash _]]]. exfalso. apply Hhash.
      rewrite Hsame. apply in_map. exact Hj. }
    split; [ exact Hko | apply after_of_failure; exact Hko ].
Qed.

Lemma X1_witness :
  reachable Scenario.in_progress
  /\ after Scenario.in_progress
           (InsertInvoice
              (Invoice.mk "INV-002" "SUP-002" "BUY-001" (Decimal.usd 700 0)
                          "USD" 15 "PENDING" None None "hash-001" None None
                          0 0 None None))
     = Scenario.in_progress.
Proof.
  assert (Hd : reachable Scenario.in_progress).
  { apply reachable_run, reachable_initial. }
  split; [ exact Hd | ].
  destruct (X1_invoice_id_and_hash_unique Hd) as [_ [_ Hdup]].
  apply (Hdup _ (Scenario.invoice "ACCEPTED" (Decimal.usd 50000 0))).
  - vm_compute. left. reflexivity.
  - reflexivity.
Defined.

(** X2. Whenever an INSERT of an invoice succeeds, the pre-checks of
    INV-001 (no invoice with the id), INV-002 (amount range), INV-004 (no
    invoice with the hash) and INV-007 (terms whitelist) held before it, and
    the post-checks of INV-001 and INV-004 (exactly one row with the id, with
    the hash) hold after it; one row is affected. *)
Theorem X2_inserted_invoice_meets_catalogue_checks (d d' : db)
    (i : Invoice.t) (n : nat) :
  insert_invoice d i = Ok (d', n) ->
  inv_001_pre_check d (Invoice.id i) = true
  /\ inv_002_pre_check (Invoice.amount i) = true
  /\ inv_004_pre_check d (Invoice.invoice_hash i) = true
  /\ inv_007_pre_check (Invoice.terms i) = true
  /\ inv_001_post_check d' (Invoice.id i) = true
  /\ inv_004_post_check d' (Invoice.invoice_hash i) = true
  /\ n = 1%nat.
Proof.
  intros H. unfold insert_invoice in H. apply bind_ok in H.
  destruct H as [u [Hc H]]. inversion H; subst.
  apply check_invoice_all in Hc. destruct Hc as [Hrow [Hid [Hhash _]]].
  destruct (invoice_checks_split _ Hrow) as [_ [Hamount [_ [Hterms _]]]].
  unfold inv_001_pre_check, inv_004_pre_check, inv_001_post_check,
    inv_004_post_check. simpl.
  rewrite (@count_rows_absent _ Invoice.id _ _ Hid).
  rewrite (@count_rows_absent _ Invoice.invoice_hash _ _ Hhash).
  rewrite (@count_rows_snoc _ Invoice.id _ _ Hid).
  rewrite (@count_rows_snoc _ Invoice.invoice_hash _ _ Hhash).
  repeat split; assumption.
Qed.

Lemma X2_witness :
  inv_001_post_check
    (after initial_db
           (InsertInvoice (Scenario.invoice "PENDING" (Decimal.usd 50000 0))))
    "INV-001" = true
  /\ inv_007_pre_check 30 = true.
Proof.
  destruct (@X2_inserted_invoice_meets_catalogue_checks initial_db
              (after initial_db
                     (InsertInvoice
                        (Scenario.invoice "PENDING" (Decimal.usd 50000 0))))
              (Scenario.invoice "PENDING" (Decimal.usd 50000 0)) 1%nat
              eq_refl)
    as [_ [_ [_ [Hterms [Hpost _]]]]].
  split; [ exact Hpost | exact Hterms ].
Defined.

(** X3. Whenever an INSERT of a settlement succeeds, the INV-006 pre-check
    (no settlement for the invoice) held before it and the INV-006 post-check
    (exactly one settlement for the invoice) holds after it; and in every
    reachable state the post-check count is 0 or 1 for every invoice. *)
Theorem X3_inserted_settlement_meets_inv_006 (d d' : db)
    (c : Settlement.cols) (n : nat) :
  reachable d ->
  (insert_settlement d c = Ok (d', n) ->
   inv_006_pre_check d (Settlement.invoice_id c) = true
   /\ inv_006_post_check d' (Settlement.invoice_id c) = true)
  /\ (forall k, inv_006_pre_check d k = true \/ inv_006_post_check d k = true).
Proof.
  intros Hreach. split.
  - intros H. unfold insert_settlement in H. apply bind_ok in H.
    destruct H as [u [Hc H]]. inversion H; subst.
    apply check_settlement_ok in Hc. destruct Hc as [_ Hnew].
    unfold inv_006_pre_check, inv_006_post_check. simpl.
    rewrite (@count_rows_absent _ settlement_invoice_of _ _ Hnew).
    change (Settlement.invoice_id c)
      with (settlement_invoice_of (Settlements.stored c)).
    rewrite (@count_rows_snoc _ settlement_invoice_of (settlements d)
                              (Settlements.stored c) Hnew).
    split; reflexivity.
  - intros k. unfold inv_006_pre_check, inv_006_post_check, count_rows.
    assert (Hle : (List.length (filter (has_key settlement_invoice_of k)
                                       (settlements d)) <= 1)%nat).
    { apply (NoDup_selects_at_most_one settlement_invoice_of
               (has_key settlement_invoice_of k) (v := k)).
      - intros r Hr. apply has_key_true in Hr. exact Hr.
      - exact (settlement_once (reachable_consistent Hreach)). }
    destruct (List.length (filter (has_key settlement_invoice_of k)
                                  (settlements d))) as [ | [ | m]].
    + left. reflexivity.
    + right. reflexivity.
    + lia.
Qed.

Lemma X3_witness :
  inv_006_pre_check
    (run initial_db
         [InsertInvoice (Scenario.invoice "ACCEPTED" (Decimal.usd 50000 0))])
    "INV-001" = true
  /\ inv_006_post_check Scenario.in_progress "INV-001" = true.
Proof.
  apply (@X3_inserted_settlement_meets_inv_006
           (run initial_db
                [InsertInvoice
                   (Scenario.invoice "ACCEPTED" (Decimal.usd 50000 0))])
           Scenario.in_progress (Scenario.settlement None "IN_PROGRESS")
           1%nat).
  - apply reachable_run, reachable_initial.
  - reflexivity.
Defined.

(** X4. Every invoice stored in a reachable state has its terms among 0,
    15, 30, 45, 60, 90, its currency among USD, EUR, GBP, JPY, a supplier
    different from its buyer, and a fraud score that is NULL or between 0 and
    1. *)
Theorem X4_stored_invoice_row_checks (d : db) (i : Invoice.t) :
  reachable d -> In i (invoices d) ->
  In (Invoice.terms i) [0; 15; 30; 45; 60; 90]
  /\ In (Invoice.currency i) ["USD"; "EUR"; "GBP"; "JPY"]
  /\ Invoice.supplier_id i <> Invoice.buyer_id i
  /\ (forall s, Invoice.fraud_score i = Some s -> 0 <= s <= 10000).
Proof.
  intros Hreach Hin.
  pose proof (invoices_checked (reachable_linked Hreach)) as Hrows.
  rewrite Forall_forall in Hrows.
  destruct (invoice_checks_split _ (Hrows i Hin))
    as [_ [_ [Hcur [Hterms [_ [Hparties Hscore]]]]]].
  split; [ | split; [ | split ] ].
  - unfold Invoices.terms_check in Hterms. apply existsb_exists in Hterms.
    destruct Hterms as [x [Hx E]]. apply Z.eqb_eq in E. subst x. exact Hx.
  - apply in_list_In. exact Hcur.
  - unfold Invoices.different_parties in Hparties.
    apply negb_true_iff in Hparties. apply String.eqb_neq. exact Hparties.
  - intros s Hs. unfold Invoices.valid_fraud_score in Hscore.
    rewrite Hs in Hscore. apply andb_true_iff in Hscore.
    rewrite !Z.leb_le in Hscore. exact Hscore.
Qed.

Lemma X4_witness :
  reachable Scenario.in_progress
  /\ Forall (fun i => In (Invoice.terms i) [0; 15; 30; 45; 60; 90])
            (invoices Scenario.in_progress).
Proof.
  assert (Hd : reachable Scenario.in_progress).
  { apply reachable_run, reachable_initial. }
  split; [ exact Hd | ]. apply Forall_forall. intros i Hin.
  apply (X4_stored_invoice_row_checks i Hd Hin).
Defined.

(** ** Referential integrity *)

Lemma exists_row (row : Type) (key : row -> string) (k : string)
    (t : list row) :
  existsb (has_key key k) t = true -> exists r, In r t /\ key r = k.
Proof.
  intros H. apply existsb_exists in H. destruct H as [r [Hin Hr]].
  exists r. split; [ exact Hin | apply has_key_true; exact Hr ].
Qed.

(** X5. In every reachable state no row is orphaned: the supplier and the
    buyer of every invoice are accounts; every line item, settlement and
    pricing quote references a stored invoice; every settlement leg references
    a stored settlement and an account. *)
Theorem X5_no_orphan_rows (d : db) :
  reachable d ->
  (forall i, In i (invoices d) ->
             (exists a, In a (accounts d)
                        /\ Account.id a = Invoice.supplier_id i)
             /\ (exists a, In a (accounts d)
                           /\ Account.id a = Invoice.buyer_id i))
  /\ (forall r, In r (line_items d) ->
                exists i, In i (invoices d)
                          /\ Invoice.id i
                             = LineItem.invoice_id (LineItem.base r))
  /\ (forall s, In s (settlements d) ->
                exists i, In i (invoices d)
                          /\ Invoice.id i = settlement_invoice_of s)
  /\ (forall q, In q (pricing_quotes d) ->
                exists i, In i (invoices d)
                          /\ Invoice.id i = Quote.invoice_id q)
  /\ (forall l, In l (settlement_legs d) ->
                (exists s, In s (settlements d)
                           /\ settlement_id_of s = Leg.settlement_id l)
                /\ (exists a, In a (accounts d)
                              /\ Account.id a = Leg.account_id l)).
Proof.
  intros Hreach. destruct (reachable_linked Hreach).
  rewrite Forall_forall in *.
  split; [ | split; [ | split; [ | split ] ] ].
  - intros i Hin. destruct (invoice_parties0 i Hin) as [Hs Hb].
    split; apply (exists_row Account.id); assumption.
  - intros r Hin. apply (exists_row Invoice.id).
    exact (line_item_invoices0 r Hin).
  - intros s Hin. apply (exists_row Invoice.id).
    destruct (settlement_links0 s Hin) as [Hi _]. exact Hi.
  - intros q Hin. apply (exists_row Invoice.id).
    exact (quote_invoices0 q Hin).
  - intros l Hin. destruct (leg_links0 l Hin) as [Hs Ha]. split.
    + apply (exists_row settlement_id_of). exact Hs.
    + apply (exists_row Account.id). exact Ha.
Qed.

Lemma X5_witness :
  reachable Scenario.happy_path
  /\ Forall (fun l => exists s, In s (settlements Scenario.happy_path)
                                /\ settlement_id_of s = Leg.settlement_id l)
            (settlement_legs Scenario.happy_path).
Proof.
  assert (Hd : reachable Scenario.happy_path).
  { apply reachable_run, reachable_run, reachable_initial. }
  split; [ exact Hd | ]. apply Forall_forall. intros l Hin.
  destruct (X5_no_orphan_rows Hd) as [_ [_ [_ [_ Hlegs]]]].
  apply (Hlegs l Hin).
Defined.


(** ** Status writes, the amount, and the detectors *)

(** A status the CHECK lists can be written to a stored invoice. *)
Lemma listed_status_written (d : db) (i : Invoice.t) (now : timestamptz)
    (st : string) :
  reachable d -> In i (invoices d) -> In st Invoices.status_values ->
  update_invoice_status d (Invoice.id i) now st
  = Ok (with_invoices
          (others Invoice.id (Invoice.id i) (invoices d)
           ++ [Invoice.set_updated_at now (Invoice.set_status st i)]) d,
        1%nat).
Proof.
  intros Hreach Hin Hst.
  pose proof (reachable_keyed Hreach) as Hk.
  pose proof (reachable_linked Hreach) as Hl.
  pose proof (invoices_checked Hl) as Hrows. rewrite Forall_forall in Hrows.
  assert (Hfind : find_row Invoice.id (Invoice.id i) (invoices d) = Some i)
    by (apply find_row_unique; [ exact (invoice_ids Hk) | exact Hin ]).
  unfold update_invoice_status. rewrite Hfind.
  apply rewritten_invoice_stored; try assumption; try reflexivity.
  apply invoice_checks_set_status; [ exact (Hrows i Hin) | ].
  apply in_list_In. exact Hst.
Qed.

(** A status that was written to a stored invoice is one the CHECK lists. *)
Lemma written_status_listed (d : db) (i : Invoice.t) (now : timestamptz)
    (st : string) :
  reachable d -> In i (invoices d) ->
  is_ok (update_invoice_status d (Invoice.id i) now st) = true ->
  In st Invoices.status_values.
Proof.
  intros Hreach Hin H.
  pose proof (reachable_keyed Hreach) as Hk.
  assert (Hfind : find_row Invoice.id (Invoice.id i) (invoices d) = Some i)
    by (apply find_row_unique; [ exact (invoice_ids Hk) | exact Hin ]).
  unfold update_invoice_status in H. rewrite Hfind in H.
  destruct (update_invoice d (Invoice.id i) now (Invoice.set_status st i))
    as [o | e] eqn:E; [ | discriminate ].
  unfold update_invoice in E. rewrite Hfind in E. apply bind_ok in E.
  destruct E as [u [Hc _]]. apply check_invoice_ok in Hc.
  destruct Hc as [Hstatus _]. apply in_list_In. exact Hstatus.
Qed.

(** X6. On an invoice stored in a reachable state,
    [UPDATE invoices SET status = st] succeeds exactly when [st] is one of
    the six statuses of the CHECK constraint; it then rewrites that one row,
    changing its status and stamping [updated_at], and touches nothing
    else. *)
Theorem X6_status_write_succeeds_iff_listed (d : db) (i : Invoice.t)
    (now : timestamptz) (st : string) :
  reachable d -> In i (invoices d) ->
  (is_ok (update_invoice_status d (Invoice.id i) now st) = true
   <-> In st Invoices.status_values)
  /\ (In st Invoices.status_values ->
      update_invoice_status d (Invoice.id i) now st
      = Ok (with_invoices
              (others Invoice.id (Invoice.id i) (invoices d)
               ++ [Invoice.set_updated_at now (Invoice.set_status st i)]) d,
            1%nat)).
Proof.
  intros Hreach Hin.
  pose proof (@listed_status_written d i now st Hreach Hin) as Hok.
  split; [ split | exact Hok ].
  - intros H. eapply written_status_listed; eassumption.
  - intros Hst. rewrite (Hok Hst). reflexivity.
Qed.

Lemma X6_witness :
  reachable Scenario.in_progress
  /\ is_ok (update_invoice_status Scenario.in_progress "INV-001" (seconds 3)
                                  "SETTLED") = true.
Proof.
  assert (Hd : reachable Scenario.in_progress).
  { apply reachable_run, reachable_initial. }
  split; [ exact Hd | ].
  apply (@X6_status_write_succeeds_iff_listed Scenario.in_progress
           (Scenario.invoice "ACCEPTED" (Decimal.usd 50000 0)) (seconds 3)
           "SETTLED" Hd).
  - vm_compute. left. reflexivity.
  - vm_compute. tauto.
Defined.

(** X7. The line-item trigger guards [line_items] only: on an invoice stored
    in a reachable state, an UPDATE of [amount] to any value in
    [100.00, 10 000 000.00] succeeds, leaves the line items as they were and
    makes the new amount the invoice amount; so whenever the line items do not
    sum to the new amount within 0.01, the resulting state breaks INV-602
    without any exception. *)
Theorem X7_amount_update_is_not_revalidated (d : db) (i : Invoice.t)
    (now : timestamptz) (a : Z) :
  reachable d -> In i (invoices d) ->
  Decimal.usd 100 0 <= a <= Decimal.usd 10000000 0 ->
  exists d',
    exec d (UpdateInvoice (Invoice.id i) now (Invoice.set_amount a i))
    = Ok (d', 1%nat)
    /\ line_items d' = line_items d
    /\ invoice_amount d' (Invoice.id i) = Some a
    /\ (1 < Z.abs (line_items_sum d (Invoice.id i) - a) ->
        ~ within_a_cent d' (Invoice.id i)).
Proof.
  intros Hreach Hin Ha.
  pose proof (reachable_keyed Hreach) as Hk.
  pose proof (reachable_linked Hreach) as Hl.
  pose proof (invoices_checked Hl) as Hrows. rewrite Forall_forall in Hrows.
  eexists. split.
  - simpl. apply rewritten_invoice_stored; try assumption; try reflexivity.
    apply invoice_checks_set_amount; [ exact (Hrows i Hin) | exact Ha ].
  - assert (Hamount :
              invoice_amount
                (with_invoices
                   (others Invoice.id (Invoice.id i) (invoices d)
                    ++ [Invoice.set_updated_at now (Invoice.set_amount a i)])
                   d) (Invoice.id i) = Some a).
    { unfold invoice_amount. simpl.
      pose proof (@find_row_replaced _ Invoice.id (Invoice.id i) (invoices d)
                    (Invoice.set_updated_at now (Invoice.set_amount a i))
                    eq_refl) as E.
      unfold replace_row in E. rewrite E. reflexivity. }
    split; [ reflexivity | ]. split; [ exact Hamount | ].
    intros Hoff [a' [Ha' Hle]]. rewrite Hamount in Ha'. inversion Ha'; subst a'.
    change (line_items_sum
              (with_invoices
                 (others Invoice.id (Invoice.id i) (invoices d)
                  ++ [Invoice.set_updated_at now (Invoice.set_amount a i)]) d)
              (Invoice.id i))
      with (line_items_sum d (Invoice.id i)) in Hle.
    lia.
Qed.

Lemma X7_witness :
  reachable (run Scenario.in_progress (one_by_one Scenario.three_lines))
  /\ exists d',
       exec (run Scenario.in_progress (one_by_one Scenario.three_lines))
            (UpdateInvoice "INV-001" (seconds 9)
               (Scenario.invoice "ACCEPTED" (Decimal.usd 100 0)))
       = Ok (d', 1%nat)
       /\ ~ within_a_cent d' "INV-001".
Proof.
  assert (Hd : reachable
                 (run Scenario.in_progress (one_by_one Scenario.three_lines))).
  { apply reachable_run, reachable_run, reachable_initial. }
  split; [ exact Hd | ].
  destruct (@X7_amount_update_is_not_revalidated
              (run Scenario.in_progress (one_by_one Scenario.three_lines))
              (Scenario.invoice "ACCEPTED" (Decimal.usd 50000 0))
              (seconds 9) (Decimal.usd 100 0) Hd)
    as [d' [Hexec [_ [_ Hbreak]]]].
  - vm_compute. left. reflexivity.
  - vm_compute. split; discriminate.
  - exists d'. split; [ exact Hexec | ]. apply Hbreak.
    vm_compute. reflexivity.
Defined.

(** X8. [detect_limbo] never fires on a reachable state: the CHECK on
    [invoices.status] lists the detector's valid statuses, so the list of
    limbo invoices is empty. The detector would, however, report any invoice
    in the FAILED status of the transition table. *)
Theorem X8_detect_limbo_is_silent (d : db) :
  reachable d ->
  limbo_invoices d = []
  /\ detect_limbo d = Ok tt
  /\ (forall d0 i, In i (invoices d0) -> Invoice.status i = "FAILED" ->
                   In i (limbo_invoices d0) /\ is_ok (detect_limbo d0) = false).
Proof.
  intros Hreach.
  assert (Hnone : limbo_invoices d = []).
  { unfold limbo_invoices.
    pose proof (invoices_rows (reachable_consistent Hreach)) as Hrows.
    induction (invoices d) as [ | i t IH]; [ reflexivity | ].
    inversion Hrows as [ | x l [Hstatus _] Hrest]; subst.
    unfold Invoices.status_check in Hstatus.
    assert (E : in_list (Invoice.status i) valid_statuses = true).
    { apply in_list_In. apply in_list_In in Hstatus. simpl in *. tauto. }
    cbn [filter]. rewrite E. exact (IH Hrest). }
  split; [ exact Hnone | ]. split.
  - unfold detect_limbo. rewrite Hnone. reflexivity.
  - intros d0 i Hin Hfailed.
    assert (Hlimbo : In i (limbo_invoices d0)).
    { unfold limbo_invoices. apply filter_In. split; [ exact Hin | ].
      rewrite Hfailed. reflexivity. }
    split; [ exact Hlimbo | ]. unfold detect_limbo.
    destruct (limbo_invoices d0); [ contradiction | reflexivity ].
Qed.

Lemma X8_witness :
  reachable Scenario.happy_path /\ detect_limbo Scenario.happy_path = Ok tt.
Proof.
  assert (Hd : reachable Scenario.happy_path).
  { apply reachable_run, reachable_run, reachable_initial. }
  split; [ exact Hd | ].
  destruct (X8_detect_limbo_is_silent Hd) as [_ [Hsilent _]]. exact Hsilent.
Defined.


(** ** C5, amended: the fraud gate at acceptance *)



(** ** C8, amended: the validity window of a quote and its single use *)

Lemma find_row_app_some (row : Type) (key : row -> string) (k : string)
    (t t' : list row) (r : row) :
  find_row key k t = Some r -> find_row key k (t ++ t') = Some r.
Proof.
  unfold find_row. induction t as [ | x t IH]; simpl; [ discriminate | ].
  destruct (has_key key k x); [ exact (fun H => H) | exact IH ].
Qed.

Lemma find_row_others_other (row : Type) (key : row -> string)
    (k k' : string) (t : list row) :
  k <> k' -> find_row key k (others key k' t) = find_row key k t.
Proof.
  intros Hne. unfold find_row, others.
  induction t as [ | x t IH]; simpl; [ reflexivity | ].
  destruct (has_key key k' x) eqn:E'; simpl.
  - destruct (has_key key k x) eqn:E; [ | exact IH ].
    apply has_key_true in E. apply has_key_true in E'. congruence.
  - destruct (has_key key k x); [ reflexivity | exact IH ].
Qed.

(** An [UPDATE] of another quote leaves a used quote used. *)
Lemma update_quote_keeps_used_up (d d' : db) (k k' : string) (q : Quote.t)
    (n : nat) :
  Pricing.used_up k d -> k' <> k ->
  update_quote d k' q = Ok (d', n) -> Pricing.used_up k d'.
Proof.
  intros [q0 [Hfind Hused]] Hne H. unfold update_quote in H.
  destruct (find_row Quote.id k' (pricing_quotes d));
    [ | inversion H; subst; exists q0; split; assumption ].
  apply bind_ok in H. destruct H as [u [_ H]]. inversion H; subst.
  exists q0. split; [ | exact Hused ]. simpl.
  apply find_row_app_some. rewrite find_row_others_other; [ exact Hfind | ].
  congruence.
Qed.

(** The statements of the schema other than an [UPDATE] of that quote leave
    a used quote used. *)
Lemma exec_keeps_used_up (d d' : db) (k : string) (s : stmt) (n : nat) :
  Pricing.used_up k d ->
  Pricing.rewrites_quote k (Pricing.Statement s) = false ->
  exec d s = Ok (d', n) -> Pricing.used_up k d'.
Proof.
  intros Hused Hrw H. destruct s; simpl in H, Hrw;
    try (assert (E : pricing_quotes d' = pricing_quotes d)
           by (match type of H with
               | ?f _ _ = _ => unfold f in H
               | ?f _ _ _ = _ => unfold f in H
               | ?f _ _ _ _ = _ => unfold f in H
               end; untouched H);
         unfold Pricing.used_up; rewrite E; exact Hused).
  - unfold insert_quote in H. apply bind_ok in H.
    destruct H as [u [_ H]]. inversion H; subst.
    destruct Hused as [q0 [Hfind Hu]]. exists q0. split; [ | exact Hu ].
    simpl. apply find_row_app_some. exact Hfind.
  - apply String.eqb_neq in Hrw.
    exact (@update_quote_keeps_used_up d d' k k0 q n Hused Hrw H).
Qed.

Lemma consume_used_up_fails (d : db) (k : string) (now : timestamptz) :
  Pricing.used_up k d -> is_ok (Pricing.consume_quote d k now) = false.
Proof.
  intros [q [Hfind Hused]]. unfold Pricing.consume_quote. rewrite Hfind.
  apply is_ok_bind_false. unfold Pricing.quote_pre_check.
  rewrite Hused, andb_false_r. reflexivity.
Qed.

Lemma consume_makes_used_up (d d' : db) (k : string) (now : timestamptz)
    (n : nat) :
  Pricing.consume_quote d k now = Ok (d', n) -> Pricing.used_up k d'.
Proof.
  unfold Pricing.consume_quote.
  destruct (find_row Quote.id k (pricing_quotes d)) as [q | ] eqn:Hfind;
    [ | discriminate ].
  intros H. apply bind_ok in H. destruct H as [u [_ H]].
  unfold update_quote in H. rewrite Hfind in H.
  apply bind_ok in H. destruct H as [u' [_ H]]. inversion H; subst.
  exists (Quote.mark_used now q). split; [ | reflexivity ].
  simpl. apply find_row_replaced.
  destruct (find_row_in _ _ _ Hfind) as [_ Hk]. exact Hk.
Qed.

Lemma step_keeps_used_up (d d' : db) (k : string) (st : Pricing.step)
    (n : nat) :
  Pricing.used_up k d -> Pricing.rewrites_quote k st = false ->
  Pricing.step_result d st = Ok (d', n) ->
  Pricing.used_up k d' /\ Pricing.consumes k st = false.
Proof.
  intros Hused Hrw H. destruct st as [s | k' now]; simpl in H.
  - split; [ | reflexivity ]. exact (@exec_keeps_used_up d d' k s n Hused Hrw H).
  - simpl. destruct (String.eqb_spec k' k) as [-> | Hne].
    + pose proof (@consume_used_up_fails d k now Hused) as Hf.
      rewrite H in Hf. discriminate.
    + split; [ | reflexivity ].
      unfold Pricing.consume_quote in H.
      destruct (find_row Quote.id k' (pricing_quotes d)); [ | discriminate ].
      apply bind_ok in H. destruct H as [u [_ H]].
      exact (@update_quote_keeps_used_up d d' k k' _ n Hused Hne H).
Qed.

Lemma used_up_is_not_consumed (k : string) (steps : list Pricing.step) :
  forall d,
    Pricing.used_up k d ->
    forallb (fun st => negb (Pricing.rewrites_quote k st)) steps = true ->
    Pricing.consumed_times k d steps = 0%nat.
Proof.
  induction steps as [ | st rest IH]; intros d Hused Hsteps;
    [ reflexivity | ].
  simpl in Hsteps. apply andb_true_iff in Hsteps.
  destruct Hsteps as [Hst Hrest]. apply negb_true_iff in Hst.
  simpl. destruct (Pricing.step_result d st) as [[d' n] | e] eqn:E.
  - destruct (@step_keeps_used_up d d' k st n Hused Hst E) as [Hused' Hc].
    rewrite Hc, (IH d' Hused' Hrest). reflexivity.
  - exact (IH d Hused Hrest).
Qed.

Lemma consumed_at_most_once (k : string) (steps : list Pricing.step) :
  forall d,
    forallb (fun st => negb (Pricing.rewrites_quote k st)) steps = true ->
    (Pricing.consumed_times k d steps <= 1)%nat.
Proof.
  induction steps as [ | st rest IH]; intros d Hsteps; [ simpl; lia | ].
  simpl in Hsteps. apply andb_true_iff in Hsteps.
  destruct Hsteps as [Hst Hrest].
  simpl. destruct (Pricing.step_result d st) as [[d' n] | e] eqn:E;
    [ | exact (IH d Hrest) ].
  destruct (Pricing.consumes k st) eqn:Ec; [ | exact (IH d' Hrest) ].
  destruct st as [s | k' now]; [ discriminate | ].
  simpl in Ec, E. apply String.eqb_eq in Ec. subst k'.
  apply consume_makes_used_up in E.
  rewrite (@used_up_is_not_consumed k rest d' E Hrest). lia.
Qed.

(** C8 (amended). Every stored pricing quote satisfies
    [0 < expires_at - created_at <= 5 minutes]: the schema bounds the window
    by five minutes and does not force it to be exactly five minutes. The
    acceptance pre-check passes a stored quote exactly when the quote is
    unused and has not expired; so an unused quote with the full window of
    five minutes passes at an age of 299 s, and every quote fails at 301 s,
    after its expiry, or once marked used. A consumption succeeds only on an
    unused, unexpired quote and marks that one row used, with the time of the
    consumption as [used_at]. A quote is consumed at most once for as long as
    no [UPDATE] rewrites its row: whatever statements and consumptions run,
    that [UPDATE] apart, at most one consumption of the quote succeeds. *)
Theorem C8_quote_window_and_single_use (d : db) (q : Quote.t) :
  reachable d -> In q (pricing_quotes d) ->
  0 < Quote.expires_at q - Quote.created_at q <= minutes 5
  /\ (forall now, Pricing.quote_pre_check now q = true
                  <-> Quote.used q = false /\ now < Quote.expires_at q)
  /\ (forall now, now - Quote.created_at q = seconds 299 ->
                  Quote.used q = false ->
                  Quote.expires_at q = Quote.created_at q + minutes 5 ->
                  Pricing.quote_pre_check now q = true)
  /\ (forall now, now - Quote.created_at q = seconds 301 ->
                  Pricing.quote_pre_check now q = false)
  /\ (forall now, Quote.used q = true ->
                  Pricing.quote_pre_check now q = false)
  /\ (forall now d' n,
         Pricing.consume_quote d (Quote.id q) now = Ok (d', n) ->
         Quote.used q = false /\ now < Quote.expires_at q /\ n = 1%nat
         /\ d' = with_pricing_quotes
                   (others Quote.id (Quote.id q) (pricing_quotes d)
                    ++ [Quote.mark_used now q]) d)
  /\ (forall steps,
         forallb (fun st => negb (Pricing.rewrites_quote (Quote.id q) st))
                 steps = true ->
         (Pricing.consumed_times (Quote.id q) d steps <= 1)%nat).
Proof.
  intros Hreach Hin.
  pose proof (quotes_rows (reachable_consistent Hreach)) as Hrows.
  rewrite Forall_forall in Hrows. destruct (Hrows q Hin) as [Hvalid Hwindow].
  unfold Quotes.quote_validity in Hvalid.
  unfold Quotes.quote_expiry_window in Hwindow.
  apply Z.ltb_lt in Hvalid. apply Z.leb_le in Hwindow.
  assert (Hpre : forall now,
             Pricing.quote_pre_check now q = true
             <-> Quote.used q = false /\ now < Quote.expires_at q).
  { intros now. unfold Pricing.quote_pre_check, inv_109_pre_check.
    rewrite !andb_true_iff, negb_true_iff, !Z.ltb_lt.
    unfold minutes, seconds in *. split.
    - intros [[_ He] Hu]. split; assumption.
    - intros [Hu He]. split; [ split; [ lia | exact He ] | exact Hu ]. }
  assert (Hnot : forall now,
             Quote.used q = true \/ Quote.expires_at q <= now ->
             Pricing.quote_pre_check now q = false).
  { intros now Hor. apply not_true_is_false. intros E.
    apply Hpre in E. destruct E as [Hu He].
    destruct Hor as [Hu' | He']; [ congruence | lia ]. }
  split; [ lia | ]. split; [ exact Hpre | ].
  split; [ | split; [ | split; [ | split ] ] ].
  - intros now Hage Hunused Hfull. apply Hpre. split; [ exact Hunused | ].
    unfold minutes, seconds in *. lia.
  - intros now Hage. apply Hnot. right. unfold minutes, seconds in *. lia.
  - intros now Hused. apply Hnot. left. exact Hused.
  - intros now d' n H.
    assert (Hfind : find_row Quote.id (Quote.id q) (pricing_quotes d) = Some q).
    { apply find_row_unique; [ | exact Hin ].
      exact (quote_ids (reachable_keyed Hreach)). }
    unfold Pricing.consume_quote in H. rewrite Hfind in H.
    apply bind_ok in H. destruct H as [u [Hc H]]. apply require_ok in Hc.
    apply Hpre in Hc. destruct Hc as [Hu He].
    unfold update_quote in H. rewrite Hfind in H.
    apply bind_ok in H. destruct H as [u' [_ H]]. inversion H; subst.
    repeat split; assumption.
  - intros steps Hsteps. apply consumed_at_most_once. exact Hsteps.
Qed.

Lemma C8_witness :
  reachable (run Scenario.in_progress
                 [InsertQuote (Scenario.quote 0 (minutes 5) false)])
  /\ Pricing.quote_pre_check (seconds 299)
       (Scenario.quote 0 (minutes 5) false) = true
  /\ Pricing.quote_pre_check (seconds 301)
       (Scenario.quote 0 (minutes 5) false) = false
  /\ Nat.le
       (Pricing.consumed_times "Q-001"
          (run Scenario.in_progress
               [InsertQuote (Scenario.quote 0 (minutes 5) false)])
          [Pricing.Consume "Q-001" (seconds 299);
           Pricing.Statement
             (UpdateInvoice "INV-001" (seconds 299)
                (Scenario.invoice "SETTLED" (Decimal.usd 50000 0)));
           Pricing.Consume "Q-001" (seconds 299)])
       1.
Proof.
  assert (Hd : reachable
                 (run Scenario.in_progress
                      [InsertQuote (Scenario.quote 0 (minutes 5) false)])).
  { apply reachable_run, reachable_run, reachable_initial. }
  assert (Hin : In (Scenario.quote 0 (minutes 5) false)
                   (pricing_quotes
                      (run Scenario.in_progress
                           [InsertQuote (Scenario.quote 0 (minutes 5) false)]))).
  { vm_compute. left. reflexivity. }
  destruct (@C8_quote_window_and_single_use _ _ Hd Hin)
    as [_ [_ [Hfresh [Hstale [_ [_ Honce]]]]]].
  split; [ exact Hd | ]. split; [ | split ].
  - apply Hfresh; reflexivity.
  - apply Hstale; reflexivity.
  - apply (Honce [Pricing.Consume "Q-001" (seconds 299);
                  Pricing.Statement
                    (UpdateInvoice "INV-001" (seconds 299)
                       (Scenario.invoice "SETTLED" (Decimal.usd 50000 0)));
                  Pricing.Consume "Q-001" (seconds 299)]).
    reflexivity.
Defined.

(** The schema does not protect the flag: an [UPDATE] that clears [used] on
    a consumed quote is accepted, and the quote is then consumed a second
    time. *)
Example cleared_quote_is_consumed_again :
  Pricing.consumed_times "Q-001"
    (run Scenario.in_progress
         [InsertQuote (Scenario.quote 0 (minutes 5) false)])
    [Pricing.Consume "Q-001" (seconds 100);
     Pricing.Statement
       (UpdateQuote "Q-001" (Scenario.quote 0 (minutes 5) false));
     Pricing.Consume "Q-001" (seconds 200)]
  = 2%nat.
Proof. vm_compute. reflexivity. Qed.

(** A quote that expires after one minute fails the pre-check at an age of
    299 s, unused though it is. *)
Example expired_quote_fails_the_pre_check :
  Pricing.quote_pre_check (seconds 299) (Scenario.quote 0 (minutes 1) false)
  = false.
Proof. vm_compute. reflexivity. Qed.


(** ** The views *)

Lemma filter_key_singleton (row : Type) (key : row -> string) (t : list row)
    (r : row) :
  NoDup (map key t) -> In r t -> filter (has_key key (key r)) t = [r].
Proof.
  induction t as [ | x t IH]; simpl; intros Hnd Hin; [ contradiction | ].
  inversion Hnd as [ | y l Hx Hrest]; subst.
  destruct Hin as [-> | Hin].
  - assert (E : has_key key (key r) r = true)
      by (apply has_key_true; reflexivity).
    rewrite E. rewrite (@filter_key_absent _ key (key r) t Hx). reflexivity.
  - destruct (has_key key (key r) x) eqn:E.
    + exfalso. apply Hx. apply has_key_true in E. rewrite E.
      apply in_map. exact Hin.
    + exact (IH Hrest Hin).
Qed.

Lemma seed_account_ids_distinct : NoDup (map Account.id seed_accounts).
Proof.
  simpl. repeat constructor; simpl; intuition discriminate.
Qed.

Lemma account_row (d : db) (k : string) :
  NoDup (map Account.id (accounts d)) ->
  account_exists d k = true ->
  exists a, filter (has_key Account.id k) (accounts d) = [a].
Proof.
  intros Hnd H. apply exists_row in H. destruct H as [a [Hin <-]].
  exists a. apply filter_key_singleton; assumption.
Qed.

(** The rows of the model's list come in the order of the model's table. *)
Lemma active_invoices_listed (d : db) :
  reachable d ->
  map ActiveInvoices.invoice (ActiveInvoices.view d)
  = filter (fun i => in_list (Invoice.status i) ["PENDING"; "ACCEPTED"])
           (invoices d).
Proof.
  intros Hreach. pose proof (reachable_linked Hreach) as Hl.
  assert (Hids : NoDup (map Account.id (accounts d))).
  { rewrite (accounts_seeded Hl). exact seed_account_ids_distinct. }
  unfold ActiveInvoices.view.
  pose proof (invoice_parties Hl) as Hparties.
  induction (invoices d) as [ | i t IH]; [ reflexivity | ].
  inversion Hparties as [ | x l [Hs Hb] Hrest]; subst.
  cbn [flat_map filter]. rewrite map_app, (IH Hrest).
  destruct (@account_row d _ Hids Hs) as [s ->].
  destruct (@account_row d _ Hids Hb) as [b ->].
  cbn [flat_map]. rewrite !app_nil_r.
  destruct (in_list (Invoice.status i) ["PENDING"; "ACCEPTED"]);
    reflexivity.
Qed.

(** X9. In every reachable state the view [active_invoices] lists exactly
    the invoices whose status is PENDING or ACCEPTED, each once (the view has
    no ORDER BY, and nothing is said of the order of its rows); every row
    carries the names of the accounts of its supplier and of its buyer; and
    [calculated_amount] is NULL for an invoice without line items and the sum
    of its line items otherwise. *)
Theorem X9_active_invoices_lists_each_open_invoice_once (d : db) :
  reachable d ->
  Permutation
    (map ActiveInvoices.invoice (ActiveInvoices.view d))
    (filter (fun i => in_list (Invoice.status i) ["PENDING"; "ACCEPTED"])
            (invoices d))
  /\ NoDup (map (fun row => Invoice.id (ActiveInvoices.invoice row))
               (ActiveInvoices.view d))
  /\ (forall row, In row (ActiveInvoices.view d) ->
        (exists s b,
            In s (accounts d) /\ In b (accounts d)
            /\ Account.id s = Invoice.supplier_id (ActiveInvoices.invoice row)
            /\ Account.id b = Invoice.buyer_id (ActiveInvoices.invoice row)
            /\ ActiveInvoices.supplier_name row = Account.name s
            /\ ActiveInvoices.buyer_name row = Account.name b)
        /\ ActiveInvoices.calculated_amount row
           = ActiveInvoices.calculated d
               (Invoice.id (ActiveInvoices.invoice row)))
  /\ (forall k,
        (ActiveInvoices.calculated d k = None
         <-> forall r, In r (line_items d) ->
                       LineItem.invoice_id (LineItem.base r) <> k)
        /\ (forall a, ActiveInvoices.calculated d k = Some a ->
                      a = line_items_sum d k)).
Proof.
  intros Hreach. pose proof (reachable_linked Hreach) as Hl.
  split; [ | split; [ | split ] ].
  - rewrite (active_invoices_listed Hreach). apply Permutation_refl.
  - rewrite <- map_map, (active_invoices_listed Hreach).
    apply filter_map_NoDup.
    exact (invoice_ids (reachable_keyed Hreach)).
  - intros row Hin. unfold ActiveInvoices.view in Hin.
    apply in_flat_map in Hin. destruct Hin as [i [_ Hin]].
    apply in_flat_map in Hin. destruct Hin as [s [Hs Hin]].
    apply in_flat_map in Hin. destruct Hin as [b [Hb Hin]].
    destruct (in_list (Invoice.status i) ["PENDING"; "ACCEPTED"]);
      [ | contradiction ].
    destruct Hin as [<- | []]. simpl.
    apply filter_In in Hs. destruct Hs as [Hs Hsk].
    apply filter_In in Hb. destruct Hb as [Hb Hbk].
    apply has_key_true in Hsk. apply has_key_true in Hbk.
    split; [ | reflexivity ]. exists s, b. repeat split; assumption.
  - intros k. unfold ActiveInvoices.calculated, line_items_sum. split.
    + split.
      * intros Hnone r Hin Hk.
        destruct (filter _ (line_items d)) as [ | x l] eqn:E;
          [ | discriminate ].
        assert (Hr : In r []).
        { rewrite <- E. apply filter_In. split; [ exact Hin | ].
          apply String.eqb_eq. exact Hk. }
        contradiction.
      * intros Hnone.
        destruct (filter _ (line_items d)) as [ | x l] eqn:E;
          [ reflexivity | exfalso ].
        assert (Hx : In x (x :: l)) by (left; reflexivity).
        rewrite <- E in Hx. apply filter_In in Hx. destruct Hx as [Hx Hk].
        apply String.eqb_eq in Hk. exact (Hnone x Hx Hk).
    + intros a Ha.
      destruct (filter _ (line_items d)) as [ | x l]; [ discriminate | ].
      inversion Ha. reflexivity.
Qed.

Lemma X9_witness :
  reachable Scenario.in_progress
  /\ map (fun row => (Invoice.id (ActiveInvoices.invoice row),
                      ActiveInvoices.calculated_amount row))
         (ActiveInvoices.view Scenario.in_progress)
     = [("INV-001", None)]
  /\ List.length (ActiveInvoices.view Scenario.in_progress)
     = List.length
         (filter (fun i => in_list (Invoice.status i) ["PENDING"; "ACCEPTED"])
                 (invoices Scenario.in_progress)).
Proof.
  assert (Hd : reachable Scenario.in_progress).
  { apply reachable_run, reachable_initial. }
  split; [ exact Hd | ].
  destruct (X9_active_invoices_lists_each_open_invoice_once Hd) as [Hview _].
  split; [ reflexivity | ].
  rewrite <- (Permutation_length Hview). rewrite length_map. reflexivity.
Defined.

(** X10. The INV-109 pre-check looks at the age of a quote, not at its
    [expires_at]: on a quote stored in a reachable state it never rejects a
    quote that has not expired, but it passes an expired quote for as long as
    the quote is less than five minutes old. *)
Theorem X10_inv_109_passes_live_and_young_quotes (d : db) (q : Quote.t)
    (now : timestamptz) :
  reachable d -> In q (pricing_quotes d) ->
  (now < Quote.expires_at q -> inv_109_pre_check now q = true)
  /\ (Quote.expires_at q <= now -> now < Quote.created_at q + minutes 5 ->
      inv_109_pre_check now q = true)
  /\ (inv_109_pre_check now q = false -> Quote.expires_at q <= now).
Proof.
  intros Hreach Hin.
  pose proof (quotes_rows (reachable_consistent Hreach)) as Hrows.
  rewrite Forall_forall in Hrows. destruct (Hrows q Hin) as [_ Hwindow].
  unfold Quotes.quote_expiry_window in Hwindow. apply Z.leb_le in Hwindow.
  unfold inv_109_pre_check. repeat split.
  - intros Hlive. apply Z.ltb_lt. lia.
  - intros _ Hyoung. apply Z.ltb_lt. lia.
  - intros Hrejected. apply Z.ltb_ge in Hrejected. lia.
Qed.

Lemma X10_witness :
  reachable (run Scenario.in_progress
                 [InsertQuote (Scenario.quote 0 (minutes 1) false)])
  /\ Quote.expires_at (Scenario.quote 0 (minutes 1) false) <= minutes 2
  /\ inv_109_pre_check (minutes 2) (Scenario.quote 0 (minutes 1) false) = true.
Proof.
  assert (Hd : reachable
                 (run Scenario.in_progress
                      [InsertQuote (Scenario.quote 0 (minutes 1) false)])).
  { apply reachable_run, reachable_run, reachable_initial. }
  split; [ exact Hd | ]. split; [ vm_compute; discriminate | ].
  apply (@X10_inv_109_passes_live_and_young_quotes _
           (Scenario.quote 0 (minutes 1) false) (minutes 2) Hd).
  - vm_compute. left. reflexivity.
  - vm_compute. discriminate.
  - reflexivity.
Defined.

Lemma count_partition (A : Type) (p : A -> bool) (t : list A) :
  (Health.count p t + Health.count (fun a => negb (p a)) t)%nat
  = List.length t.
Proof.
  unfold Health.count.
  induction t as [ | a t IH]; simpl; [ reflexivity | ].
  destruct (p a); simpl; lia.
Qed.

Lemma count_at_most (A : Type) (p : A -> bool) (t : list A) :
  (Health.count p t <= List.length t)%nat.
Proof.
  unfold Health.count. apply filter_length_le.
Qed.

Lemma sum_legs_nonnegative (ty : string) (d : db) :
  Forall leg_row_ok (settlement_legs d) -> 0 <= Health.sum_legs ty d.
Proof.
  unfold Health.sum_legs. intros H.
  induction (settlement_legs d) as [ | l t IH]; simpl; [ lia | ].
  inversion H as [ | x y [_ Hamount] Hrest]; subst.
  unfold Legs.amount_check in Hamount. apply Z.ltb_lt in Hamount.
  destruct (String.eqb (Leg.leg_type l) ty); simpl;
    specialize (IH Hrest); lia.
Qed.

(** X11. In every reachable state the [system_health] view satisfies:
    passed and failed checks add up to the total of invariant checks; settled
    invoices and completed settlements do not exceed the rows of their tables;
    the ledger sums are not negative; and [ledger_balanced] holds exactly when
    total credits equal total debits -- on amounts of two decimal places the
    tolerance of 0.01 admits no difference at all. *)
Theorem X11_system_health_counts_and_balance (d : db) :
  reachable d ->
  (Health.passed_checks (Health.view d) + Health.failed_checks (Health.view d)
   = Health.total_invariant_checks (Health.view d))%nat
  /\ (Health.settled_invoices (Health.view d)
      <= Health.total_invoices (Health.view d))%nat
  /\ (Health.completed_settlements (Health.view d)
      <= List.length (settlements d))%nat
  /\ 0 <= Health.total_credits (Health.view d)
  /\ 0 <= Health.total_debits (Health.view d)
  /\ (Health.ledger_balanced (Health.view d) = true
      <-> Health.total_credits (Health.view d)
          = Health.total_debits (Health.view d)).
Proof.
  intros Hreach. pose proof (legs_rows (reachable_consistent Hreach)) as Hlegs.
  simpl. repeat split.
  - apply (count_partition Decision.result).
  - apply count_at_most.
  - apply count_at_most.
  - apply sum_legs_nonnegative. exact Hlegs.
  - apply sum_legs_nonnegative. exact Hlegs.
  - rewrite Z.ltb_lt. lia.
  - intros H. apply Z.ltb_lt. lia.
Qed.

Lemma X11_witness :
  reachable Scenario.happy_path
  /\ Health.ledger_balanced (Health.view Scenario.happy_path) = false.
Proof.
  assert (Hd : reachable Scenario.happy_path).
  { apply reachable_run, reachable_run, reachable_initial. }
  split; [ exact Hd | ].
  destruct (X11_system_health_counts_and_balance Hd)
    as [_ [_ [_ [_ [_ Hiff]]]]].
  destruct (Health.ledger_balanced (Health.view Scenario.happy_path)) eqn:E;
    [ | reflexivity ].
  pose proof (proj1 Hiff eq_refl) as Heq. vm_compute in Heq. discriminate.
Defined.


(** ** The transition table *)

(** The targets the table gives for a source, case by case. *)
Lemma allowed_transitions_cases (from to : string) :
  inv_101_pre_check from to = true ->
  (from = "PENDING"
   /\ (to = "ACCEPTED" \/ to = "REJECTED" \/ to = "EXPIRED"
       \/ to = "FRAUD_REVIEW"))
  \/ (from = "ACCEPTED" /\ (to = "SETTLED" \/ to = "FAILED"))
  \/ (from = "FRAUD_REVIEW" /\ (to = "ACCEPTED" \/ to = "REJECTED"))
  \/ (from = "FAILED" /\ to = "REJECTED").
Proof.
  unfold inv_101_pre_check, allowed_transitions, ALLOWED_TRANSITIONS.
  cbn [find fst snd].
  repeat match goal with
         | |- context [String.eqb ?a from] =>
             destruct (String.eqb_spec a from) as [<- | ?]
         end;
    intros H; apply in_list_In in H; simpl in H; intuition (subst; auto).
Qed.

Lemma transition_uses_one (from to : string) :
  inv_101_pre_check from to = true ->
  (transitions_left to < transitions_left from)%nat.
Proof.
  intros H. apply allowed_transitions_cases in H.
  destruct H as [[-> H] | [[-> H] | [[-> H] | [-> H]]]];
    repeat (destruct H as [-> | H]); subst; vm_compute; lia.
Qed.

Lemma transition_chain_bounded (statuses : list string) :
  transition_chain statuses ->
  match statuses with
  | [] => True
  | from :: _ => (List.length statuses <= S (transitions_left from))%nat
  end.
Proof.
  induction statuses as [ | from rest IH]; [ exact (fun _ => I) | ].
  intros H. simpl in H. destruct rest as [ | to rest'].
  - simpl. lia.
  - destruct H as [Hstep Hrest]. specialize (IH Hrest).
    apply transition_uses_one in Hstep.
    change (List.length (from :: to :: rest'))
      with (S (List.length (to :: rest'))).
    lia.
Qed.

(** X12. The transition table has no cycle: along any sequence of statuses
    in which each follows the one before by an allowed transition, no status
    occurs twice, and the sequence has at most five statuses -- an invoice can
    change status at most four times (PENDING, FRAUD_REVIEW, ACCEPTED, FAILED,
    REJECTED). *)
Theorem X12_transition_chains_are_short (statuses : list string) :
  transition_chain statuses ->
  (List.length statuses <= 5)%nat /\ NoDup statuses.
Proof.
  intros H. split.
  - pose proof (transition_chain_bounded statuses H) as Hb.
    destruct statuses as [ | from rest]; [ simpl; lia | ].
    assert (transitions_left from <= 4)%nat.
    { unfold transitions_left.
      repeat match goal with
             | |- context [String.eqb ?a ?b] => destruct (String.eqb a b)
             end; lia. }
    lia.
  - assert (Hlater : forall l from x,
               transition_chain (from :: l) -> In x l ->
               (transitions_left x < transitions_left from)%nat).
    { induction l as [ | to l IH]; intros from x Hc Hin; [ contradiction | ].
      simpl in Hc. destruct Hc as [Hstep Hrest].
      apply transition_uses_one in Hstep.
      destruct Hin as [<- | Hin]; [ exact Hstep | ].
      specialize (IH to x Hrest Hin). lia. }
    induction statuses as [ | from rest IH]; [ constructor | ].
    constructor.
    + intros Hin. pose proof (Hlater rest from from H Hin). lia.
    + apply IH. simpl in H. destruct rest as [ | to rest'];
        [ exact I | exact (proj2 H) ].
Qed.

Lemma X12_witness :
  transition_chain
    ["PENDING"; "FRAUD_REVIEW"; "ACCEPTED"; "FAILED"; "REJECTED"]
  /\ NoDup ["PENDING"; "FRAUD_REVIEW"; "ACCEPTED"; "FAILED"; "REJECTED"].
Proof.
  assert (H : transition_chain
                ["PENDING"; "FRAUD_REVIEW"; "ACCEPTED"; "FAILED"; "REJECTED"]).
  { simpl. repeat split. }
  split; [ exact H | ].
  apply (X12_transition_chains_are_short _ H).
Defined.

(** X13. Terminal statuses are absorbing and the table is closed: no
    transition is allowed out of SETTLED, REJECTED or EXPIRED, nor out of a
    status the table does not know; whatever INV-101 allows, INV-105 allows
    too; no transition leads back to PENDING; and the target of every allowed
    transition is itself a key of the table. *)
Theorem X13_terminal_statuses_absorb (from to : string) :
  (inv_105_pre_check from = false -> inv_101_pre_check from to = false)
  /\ (inv_101_pre_check from to = true -> inv_105_pre_check from = true)
  /\ (~ In from (map fst ALLOWED_TRANSITIONS) ->
      inv_101_pre_check from to = false)
  /\ inv_101_pre_check from "PENDING" = false
  /\ (inv_101_pre_check from to = true ->
      In to (map fst ALLOWED_TRANSITIONS)).
Proof.
  assert (Hallowed : inv_101_pre_check from to = true ->
                     inv_105_pre_check from = true
                     /\ In from (map fst ALLOWED_TRANSITIONS)
                     /\ In to (map fst ALLOWED_TRANSITIONS)
                     /\ to <> "PENDING").
  { intros H. apply allowed_transitions_cases in H.
    destruct H as [[-> H] | [[-> H] | [[-> H] | [-> H]]]];
      repeat (destruct H as [-> | H]); subst;
      (split; [ reflexivity | ]); simpl;
      (split; [ tauto | ]); (split; [ tauto | discriminate ]). }
  split; [ | split; [ | split; [ | split ] ] ].
  - intros H105. destruct (inv_101_pre_check from to) eqn:E;
      [ | reflexivity ].
    destruct (Hallowed eq_refl) as [H _]. congruence.
  - intros H. apply Hallowed. exact H.
  - intros Hkey. destruct (inv_101_pre_check from to) eqn:E;
      [ | reflexivity ].
    destruct (Hallowed eq_refl) as [_ [H _]]. contradiction.
  - destruct (inv_101_pre_check from "PENDING") eqn:E; [ | reflexivity ].
    apply allowed_transitions_cases in E.
    intuition discriminate.
  - intros H. apply Hallowed. exact H.
Qed.

Lemma X13_witness :
  inv_101_pre_check "SETTLED" "ACCEPTED" = false
  /\ In "FRAUD_REVIEW" (map fst ALLOWED_TRANSITIONS).
Proof.
  split.
  - exact (proj1 (X13_terminal_statuses_absorb "SETTLED" "ACCEPTED")
             eq_refl).
  - exact (proj2 (proj2 (proj2 (proj2
             (X13_terminal_statuses_absorb "PENDING" "FRAUD_REVIEW"))))
             eq_refl).
Defined.

(** X14. A transition that INV-101 allows can be written to the invoice
    unless it leads to FAILED: on an invoice stored in a reachable state, for
    every allowed target other than FAILED the UPDATE of the status column
    succeeds on exactly that row; for the target FAILED it raises and the
    database stays as it was. *)
Theorem X14_allowed_transitions_are_storable_except_failed (d : db)
    (i : Invoice.t) (now : timestamptz) (to : string) :
  reachable d -> In i (invoices d) ->
  inv_101_pre_check (Invoice.status i) to = true ->
  (to <> "FAILED" ->
   update_invoice_status d (Invoice.id i) now to
   = Ok (with_invoices
           (others Invoice.id (Invoice.id i) (invoices d)
            ++ [Invoice.set_updated_at now (Invoice.set_status to i)]) d,
         1%nat))
  /\ (to = "FAILED" ->
      is_ok (update_invoice_status d (Invoice.id i) now to) = false).
Proof.
  intros Hreach Hin Hallowed.
  split.
  - intros Hne. apply listed_status_written; try assumption.
    apply allowed_transitions_cases in Hallowed.
    destruct Hallowed as [[_ H] | [[_ H] | [[_ H] | [_ H]]]];
      repeat (destruct H as [-> | H]); subst; simpl; tauto.
  - intros ->.
    apply Bool.not_true_is_false. intros E.
    apply (@written_status_listed d i now "FAILED" Hreach Hin) in E.
    simpl in E. intuition discriminate.
Qed.

Lemma X14_witness :
  reachable Scenario.in_progress
  /\ is_ok (update_invoice_status Scenario.in_progress "INV-001" (seconds 2)
                                  "SETTLED") = true
  /\ is_ok (update_invoice_status Scenario.in_progress "INV-001" (seconds 2)
                                  "FAILED") = false.
Proof.
  assert (Hd : reachable Scenario.in_progress).
  { apply reachable_run, reachable_initial. }
  assert (Hin : In (Scenario.invoice "ACCEPTED" (Decimal.usd 50000 0))
                   (invoices Scenario.in_progress)).
  { vm_compute. left. reflexivity. }
  split; [ exact Hd | ]. split.
  - destruct (@X14_allowed_transitions_are_storable_except_failed
                Scenario.in_progress _ (seconds 2) "SETTLED" Hd Hin eq_refl)
      as [Hok _].
    change "INV-001"
      with (Invoice.id (Scenario.invoice "ACCEPTED" (Decimal.usd 50000 0))).
    rewrite Hok; [ reflexivity | discriminate ].
  - destruct (@X14_allowed_transitions_are_storable_except_failed
                Scenario.in_progress _ (seconds 2) "FAILED" Hd Hin eq_refl)
      as [_ Hko].
    apply Hko. reflexivity.
Defined.


(** ** Cycle detection in the dependency graph *)

Lemma dfs_post_impl (r : dfs_result)
    (cycle_ok cycle_ok' : list string -> Prop)
    (none_ok none_ok' : dfs_state -> Prop)
    (raised_ok raised_ok' : exception -> Prop) (no_fuel_ok no_fuel_ok' : Prop) :
  dfs_post r cycle_ok none_ok raised_ok no_fuel_ok ->
  (forall c, cycle_ok c -> cycle_ok' c) ->
  (forall st, none_ok st -> none_ok' st) ->
  (forall e, raised_ok e -> raised_ok' e) ->
  (no_fuel_ok -> no_fuel_ok') ->
  dfs_post r cycle_ok' none_ok' raised_ok' no_fuel_ok'.
Proof.
  intros H Hc Hn He Hf.
  destruct r as [[[c | ] st] | e | ]; simpl in *; auto.
Qed.

(** The rule of the loop: an invariant indexed by the dependencies still to
    visit. *)
Lemma each_dependency_post (visit : string -> dfs_state -> dfs_result)
    (cycle_ok : list string -> Prop)
    (I : list string -> dfs_state -> Prop)
    (raised_ok : exception -> Prop) (no_fuel_ok : Prop)
    (all : list string) :
  (forall dep rest st, In dep all -> I (dep :: rest) st ->
     dfs_post (visit dep st) cycle_ok (I rest) raised_ok no_fuel_ok) ->
  forall deps st, incl deps all -> I deps st ->
    dfs_post (each_dependency visit deps st) cycle_ok (I []) raised_ok
             no_fuel_ok.
Proof.
  intros Hvisit. induction deps as [ | dep rest IH]; intros st Hincl HI.
  - exact HI.
  - pose proof (Hvisit dep rest st (Hincl dep (or_introl eq_refl)) HI) as Hp.
    simpl. destruct (visit dep st) as [[[c | ] st'] | e | ]; simpl in *;
      try exact Hp.
    apply IH; [ | exact Hp ].
    intros y Hy. apply Hincl. right. exact Hy.
Qed.

Lemma remove_absent (x : string) (l : list string) :
  ~ In x l -> filter (fun y => negb (String.eqb y x)) l = l.
Proof.
  induction l as [ | a l IH]; intros H; [ reflexivity | ].
  simpl. destruct (String.eqb_spec a x) as [-> | Hne].
  - exfalso. apply H. left. reflexivity.
  - simpl. f_equal. apply IH. intros Hin. apply H. right. exact Hin.
Qed.

Lemma remove_head (x : string) (l : list string) :
  ~ In x l -> filter (fun y => negb (String.eqb y x)) (x :: l) = l.
Proof.
  intros H. simpl. rewrite String.eqb_refl. simpl.
  apply remove_absent. exact H.
Qed.

Lemma in_list_false (x : string) (l : list string) :
  in_list x l = false <-> ~ In x l.
Proof.
  rewrite <- in_list_In. destruct (in_list x l); split; intros H;
    try congruence; try reflexivity; try discriminate;
    exfalso; apply H; reflexivity.
Qed.

Lemma in_list_head (x : string) (l : list string) : in_list x (x :: l) = true.
Proof. apply in_list_In. left. reflexivity. Qed.

Section FilterLength.
Variable A : Type.
Variables f g : A -> bool.
Hypothesis f_g : forall a, f a = true -> g a = true.

Lemma filter_length_le (l : list A) :
  (List.length (filter f l) <= List.length (filter g l))%nat.
Proof.
  induction l as [ | a l IH]; [ simpl; lia | ].
  simpl. destruct (f a) eqn:Ef.
  - rewrite (@f_g a Ef). simpl. lia.
  - destruct (g a); simpl; lia.
Qed.

Lemma filter_length_lt (l : list A) (x : A) :
  In x l -> g x = true -> f x = false ->
  (List.length (filter f l) < List.length (filter g l))%nat.
Proof.
  induction l as [ | a l IH]; intros Hin Hg Hf; [ contradiction | ].
  simpl. destruct Hin as [-> | Hin].
  - rewrite Hg, Hf. simpl. pose proof (filter_length_le l). lia.
  - specialize (IH Hin Hg Hf). destruct (f a) eqn:Ef.
    + rewrite (@f_g a Ef). simpl. lia.
    + destruct (g a); simpl; lia.
Qed.
End FilterLength.

Section DetectCyclesFacts.

Variable get_invariant : string -> option Invariant.t.


Lemma dependency_chain_snoc (l : list string) (a b : string) :
  dependency_chain get_invariant (l ++ [a]) -> depends_on get_invariant a b ->
  dependency_chain get_invariant ((l ++ [a]) ++ [b]).
Proof.
  induction l as [ | x l IH]; intros Hc Hd.
  - simpl. split; [ exact Hd | exact I ].
  - simpl in Hc |- *. destruct (l ++ [a]) as [ | y rest] eqn:E.
    + destruct l; discriminate.
    + destruct Hc as [Hxy Hrest]. simpl. split; [ exact Hxy | ].
      apply IH; [ exact Hrest | exact Hd ].
Qed.

Lemma dependency_chain_tail (a : string) (l : list string) :
  dependency_chain get_invariant (a :: l) -> dependency_chain get_invariant l.
Proof.
  simpl. destruct l as [ | b l]; [ intros _; exact I | ].
  intros [_ H]. exact H.
Qed.

(** *** What a returned cycle is *)

Lemma dfs_sound (fuel : nat) :
  forall inv_id path st,
    (forall y, In y (rec_stack st) -> In y path) ->
    dependency_chain get_invariant (path ++ [inv_id]) ->
    dfs_post (dfs get_invariant fuel inv_id path st)
      (fun cycle => dependency_chain get_invariant cycle /\ closes_a_cycle cycle
                    /\ exists more, cycle = (path ++ [inv_id]) ++ more)
      (fun st' => rec_stack st' = rec_stack st)
      (fun e => exists k, e = LookupError k /\ get_invariant k = None)
      True.
Proof.
  induction fuel as [ | fuel IH]; intros x path st Hstack Hchain;
    [ exact I | ].
  simpl. destruct (in_list x (rec_stack st)) eqn:Estack.
  { simpl. split; [ exact Hchain | ]. split.
    - apply in_list_In in Estack. apply Hstack in Estack.
      apply in_split in Estack. destruct Estack as [l1 [l2 ->]].
      exists l1, x, l2. rewrite <- app_assoc. reflexivity.
    - exists []. rewrite app_nil_r. reflexivity. }
  destruct (in_list x (visited st)) eqn:Evisited; [ reflexivity | ].
  destruct (get_invariant x) as [inv | ] eqn:Einv;
    [ | simpl; exists x; split; [ reflexivity | exact Einv ] ].
  apply in_list_false in Estack.
  pose proof
    (@each_dependency_post
       (fun dep_id => dfs get_invariant fuel dep_id (path ++ [x]))
       (fun cycle => dependency_chain get_invariant cycle /\ closes_a_cycle cycle
                     /\ exists more, cycle = (path ++ [x]) ++ more)
       (fun _ st' => rec_stack st' = x :: rec_stack st)
       (fun e => exists k, e = LookupError k /\ get_invariant k = None) True
       (Invariant.dependencies inv)) as Hloop.
  match type of Hloop with
  | ?P -> _ => assert (Hvisit : P)
  end.
  { intros dep rest st' Hdep Hst'.
    eapply dfs_post_impl.
    - apply IH.
      + intros y Hy. rewrite Hst' in Hy. apply in_or_app.
        destruct Hy as [<- | Hy]; [ right; left; reflexivity | ].
        left. apply Hstack. exact Hy.
      + apply dependency_chain_snoc; [ exact Hchain | ].
        exists inv. split; assumption.
    - intros c [Hc [Hcl [more ->]]]. split; [ exact Hc | ].
      split; [ exact Hcl | ].
      exists (dep :: more). rewrite <- !app_assoc. reflexivity.
    - intros st'' E. rewrite E. exact Hst'.
    - exact (fun _ H => H).
    - exact (fun H => H). }
  specialize (Hloop Hvisit (Invariant.dependencies inv)
                {| visited := x :: visited st;
                   rec_stack := x :: rec_stack st |}
                (fun y H => H) eq_refl).
  destruct (each_dependency _ _ _) as [[[c | ] st2] | e | ];
    simpl in Hloop |- *.
  - exact Hloop.
  - rewrite Hloop, in_list_head. simpl dfs_post.
    cbn [rec_stack]. apply remove_head. exact Estack.
  - exact Hloop.
  - exact I.
Qed.

(** *** Enough fuel *)

Section Termination.
Variable universe : list string.
Hypothesis closed : dependency_closed get_invariant universe.

Lemma unvisited_mono (st st' : dfs_state) :
  incl (visited st) (visited st') ->
  (unvisited universe st' <= unvisited universe st)%nat.
Proof.
  intros H. apply filter_length_le. intros u Hu.
  apply Bool.negb_true_iff in Hu. apply Bool.negb_true_iff.
  apply in_list_false in Hu. apply in_list_false.
  intros Hin. apply Hu. apply H. exact Hin.
Qed.

Lemma unvisited_less (st st' : dfs_state) (x : string) :
  In x universe -> ~ In x (visited st) ->
  incl (x :: visited st) (visited st') ->
  (unvisited universe st' < unvisited universe st)%nat.
Proof.
  intros Hx Hnew H. apply filter_length_lt with (x := x).
  - intros u Hu.
    apply Bool.negb_true_iff in Hu. apply Bool.negb_true_iff.
    apply in_list_false in Hu. apply in_list_false.
    intros Hin. apply Hu. apply H. right. exact Hin.
  - exact Hx.
  - apply Bool.negb_true_iff. apply in_list_false. exact Hnew.
  - apply Bool.negb_false_iff. apply in_list_In. apply H. left.
    reflexivity.
Qed.

Lemma dfs_terminates (fuel : nat) :
  forall inv_id path st,
    In inv_id universe ->
    (unvisited universe st < fuel)%nat ->
    dfs_post (dfs get_invariant fuel inv_id path st)
      (fun _ => True)
      (fun st' => incl (visited st) (visited st'))
      (fun e => exists k, (e = LookupError k \/ e = KeyError k)
                          /\ In k universe)
      False.
Proof.
  induction fuel as [ | fuel IH]; intros x path st Hx Hfuel; [ lia | ].
  simpl. destruct (in_list x (rec_stack st)); [ exact I | ].
  destruct (in_list x (visited st)) eqn:Evisited;
    [ simpl; apply incl_refl | ].
  apply in_list_false in Evisited.
  destruct (get_invariant x) as [inv | ] eqn:Einv;
    [ | simpl; exists x; split; [ left; reflexivity | exact Hx ] ].
  pose proof
    (@each_dependency_post
       (fun dep_id => dfs get_invariant fuel dep_id (path ++ [x]))
       (fun _ => True)
       (fun _ st' => incl (x :: visited st) (visited st'))
       (fun e => exists k, (e = LookupError k \/ e = KeyError k)
                           /\ In k universe)
       False
       (Invariant.dependencies inv)) as Hloop.
  match type of Hloop with
  | ?P -> _ => assert (Hvisit : P)
  end.
  { intros dep rest st' Hdep Hst'.
    eapply dfs_post_impl.
    - apply IH.
      + apply (closed Hx). exists inv. split; assumption.
      + pose proof (@unvisited_less st st' x Hx Evisited Hst'). lia.
    - exact (fun _ H => H).
    - intros st'' H. simpl in H.
      intros y Hy. apply H. apply Hst'. exact Hy.
    - exact (fun _ H => H).
    - exact (fun H => H). }
  specialize (Hloop Hvisit (Invariant.dependencies inv)
                {| visited := x :: visited st;
                   rec_stack := x :: rec_stack st |}
                (fun y H => H) (fun y H => H)).
  destruct (each_dependency _ _ _) as [[[c | ] st2] | e | ];
    simpl in Hloop |- *; try exact Hloop.
  destruct (in_list x (rec_stack st2)); simpl.
  - intros y Hy. apply Hloop. right. exact Hy.
  - exists x. split; [ right; reflexivity | exact Hx ].
Qed.
End Termination.

(** *** What the absence of a cycle means *)

Lemma ranked_push (st : dfs_state) (x : string) :
  ~ In x (visited st) -> ranked get_invariant st ->
  ranked get_invariant {| visited := x :: visited st; rec_stack := x :: rec_stack st |}.
Proof.
  intros Hnew [rank Hrank]. exists rank. intros y [Hv Hs]. simpl in Hv, Hs.
  assert (Hy : finished st y).
  { split.
    - destruct Hv as [<- | Hv]; [ | exact Hv ].
      exfalso. apply Hs. left. reflexivity.
    - intros H. apply Hs. right. exact H. }
  destruct (Hrank y Hy) as [inv [Einv Hdeps]].
  exists inv. split; [ exact Einv | ].
  intros d Hd. destruct (Hdeps d Hd) as [[Hdv Hds] Hlt].
  split; [ | exact Hlt ]. split; simpl.
  - right. exact Hdv.
  - intros [<- | H]; [ apply Hnew; exact Hdv | apply Hds; exact H ].
Qed.

Lemma list_max_ge (l : list nat) (n : nat) :
  In n l -> (n <= list_max l)%nat.
Proof.
  induction l as [ | a l IH]; intros H; [ contradiction | ].
  simpl. destruct H as [-> | H]; [ lia | ].
  specialize (IH H). lia.
Qed.

Lemma ranked_pop (st : dfs_state) (x : string) (inv : Invariant.t)
    (stack : list string) :
  get_invariant x = Some inv ->
  rec_stack st = x :: stack -> ~ In x stack ->
  In x (visited st) ->
  (forall d, In d (Invariant.dependencies inv) -> finished st d) ->
  ranked get_invariant st ->
  ranked get_invariant {| visited := visited st; rec_stack := stack |}.
Proof.
  intros Einv Estack Hx Hv Hdeps [rank Hrank].
  assert (Hnot : ~ finished st x).
  { intros [_ H]. apply H. rewrite Estack. left. reflexivity. }
  assert (Hold : forall y, y <> x ->
             finished {| visited := visited st; rec_stack := stack |} y ->
             finished st y).
  { intros y Hne [Hyv Hys]. simpl in Hyv, Hys. split; [ exact Hyv | ].
    rewrite Estack. intros [E | H]; [ apply Hne; symmetry; exact E | ].
    apply Hys. exact H. }
  assert (Hkeep : forall y, finished st y ->
             finished {| visited := visited st; rec_stack := stack |} y).
  { intros y [Hyv Hys]. split; [ exact Hyv | ]. simpl.
    intros H. apply Hys. rewrite Estack. right. exact H. }
  exists (fun y => if String.eqb y x
                   then S (list_max (map rank (Invariant.dependencies inv)))
                   else rank y).
  intros y Hy. destruct (String.eqb_spec y x) as [-> | Hne].
  - exists inv. split; [ exact Einv | ]. intros d Hd.
    pose proof (Hdeps d Hd) as Hfd. split; [ apply Hkeep; exact Hfd | ].
    destruct (String.eqb_spec d x) as [-> | _]; [ contradiction | ].
    pose proof (@list_max_ge (map rank (Invariant.dependencies inv))
                  (rank d) (in_map rank _ _ Hd)).
    lia.
  - destruct (Hrank y (Hold y Hne Hy)) as [inv' [Einv' Hdeps']].
    exists inv'. split; [ exact Einv' | ]. intros d Hd.
    destruct (Hdeps' d Hd) as [Hfd Hlt].
    split; [ apply Hkeep; exact Hfd | ].
    destruct (String.eqb_spec d x) as [-> | _]; [ contradiction | ].
    exact Hlt.
Qed.

Lemma dfs_complete (fuel : nat) :
  forall inv_id path st,
    ranked get_invariant st ->
    dfs_post (dfs get_invariant fuel inv_id path st)
      (fun _ => True)
      (fun st' => ranked get_invariant st' /\ finished st' inv_id
                  /\ rec_stack st' = rec_stack st
                  /\ incl (visited st) (visited st'))
      (fun _ => True)
      True.
Proof.
  induction fuel as [ | fuel IH]; intros x path st Hranked; [ exact I | ].
  simpl. destruct (in_list x (rec_stack st)) eqn:Estack; [ exact I | ].
  apply in_list_false in Estack.
  destruct (in_list x (visited st)) eqn:Evisited.
  { apply in_list_In in Evisited. simpl.
    split; [ exact Hranked | ]. split; [ split; assumption | ].
    split; [ reflexivity | apply incl_refl ]. }
  apply in_list_false in Evisited.
  destruct (get_invariant x) as [inv | ] eqn:Einv; [ | exact I ].
  pose proof
    (@each_dependency_post
       (fun dep_id => dfs get_invariant fuel dep_id (path ++ [x]))
       (fun _ => True)
       (fun rest st' =>
          ranked get_invariant st' /\ rec_stack st' = x :: rec_stack st
          /\ incl (x :: visited st) (visited st')
          /\ exists done, Invariant.dependencies inv = done ++ rest
                          /\ forall d, In d done -> finished st' d)
       (fun _ => True) True
       (Invariant.dependencies inv)) as Hloop.
  match type of Hloop with
  | ?P -> _ => assert (Hvisit : P)
  end.
  { intros dep rest st' Hdep [Hr [Hs [Hv [done [Hsplit Hdone]]]]].
    eapply dfs_post_impl.
    - apply IH. exact Hr.
    - exact (fun _ H => H).
    - intros st'' [Hr' [Hf' [Hs' Hv']]]. simpl.
      split; [ exact Hr' | ]. split; [ congruence | ].
      split; [ intros y Hy; apply Hv'; apply Hv; exact Hy | ].
      exists (done ++ [dep]). split.
      + rewrite <- app_assoc. exact Hsplit.
      + intros d Hd. apply in_app_or in Hd.
        destruct Hd as [Hd | [<- | []]]; [ | exact Hf' ].
        destruct (Hdone d Hd) as [Hdv Hds]. split.
        * apply Hv'. exact Hdv.
        * rewrite Hs'. exact Hds.
    - exact (fun _ H => H).
    - exact (fun H => H). }
  specialize (Hloop Hvisit (Invariant.dependencies inv)
                {| visited := x :: visited st;
                   rec_stack := x :: rec_stack st |}
                (fun y H => H)).
  match type of Hloop with
  | ?P -> _ => assert (Hstart : P)
  end.
  { split; [ apply ranked_push; assumption | ].
    split; [ reflexivity | ]. split; [ apply incl_refl | ].
    exists []. split; [ reflexivity | intros d [] ]. }
  specialize (Hloop Hstart).
  destruct (each_dependency _ _ _) as [[[c | ] st2] | e | ];
    simpl in Hloop |- *; try exact I.
  destruct Hloop as [Hr [Hs [Hv [done [Hsplit Hdone]]]]].
  rewrite app_nil_r in Hsplit. subst done.
  rewrite Hs, in_list_head. cbv beta iota delta [dfs_post].
  cbn [rec_stack visited].
  rewrite (@remove_head x (rec_stack st) Estack).
  split; [ | split; [ | split ] ].
  - eapply ranked_pop; try eassumption.
    apply Hv. left. reflexivity.
  - split; simpl; [ apply Hv; left; reflexivity | exact Estack ].
  - reflexivity.
  - intros y Hy. apply Hv. right. exact Hy.
Qed.

(** Along a chain that starts at an id explored and left, ranks fall. *)
Lemma ranked_chain (st : dfs_state) (rank : string -> nat) :
  (forall x, finished st x ->
     exists inv, get_invariant x = Some inv
       /\ forall d, In d (Invariant.dependencies inv) ->
            finished st d /\ (rank d < rank x)%nat) ->
  forall ids a, finished st a -> dependency_chain get_invariant (a :: ids) ->
    forall y, In y ids -> (rank y < rank a)%nat.
Proof.
  intros Hrank. induction ids as [ | b ids IH]; intros a Ha Hc y Hy;
    [ contradiction | ].
  simpl in Hc. destruct Hc as [[inv [Einv Hb]] Hrest].
  destruct (Hrank a Ha) as [inv' [Einv' Hdeps]].
  assert (inv' = inv) by congruence. subst inv'.
  destruct (Hdeps b Hb) as [Hfb Hlt].
  destruct Hy as [<- | Hy]; [ exact Hlt | ].
  specialize (IH b Hfb Hrest y Hy). lia.
Qed.

Lemma ranked_chain_NoDup (st : dfs_state) (rank : string -> nat) :
  (forall x, finished st x ->
     exists inv, get_invariant x = Some inv
       /\ forall d, In d (Invariant.dependencies inv) ->
            finished st d /\ (rank d < rank x)%nat) ->
  forall ids a, finished st a -> dependency_chain get_invariant (a :: ids) ->
    NoDup (a :: ids).
Proof.
  intros Hrank. induction ids as [ | b ids IH]; intros a Ha Hc.
  - constructor; [ intros [] | constructor ].
  - constructor.
    + intros Hin. pose proof (@ranked_chain st rank Hrank _ a Ha Hc a Hin).
      lia.
    + simpl in Hc. destruct Hc as [[inv [Einv Hb]] Hrest].
      destruct (Hrank a Ha) as [inv' [Einv' Hdeps]].
      assert (inv' = inv) by congruence. subst inv'.
      apply IH; [ apply (Hdeps b Hb) | exact Hrest ].
Qed.

End DetectCyclesFacts.


Lemma dependency_closedb_sound (get_invariant : string -> option Invariant.t)
    (universe : list string) :
  dependency_closedb get_invariant universe = true ->
  dependency_closed get_invariant universe.
Proof.
  unfold dependency_closedb, dependency_closed. intros H a b Ha [inv [E Hb]].
  rewrite forallb_forall in H. specialize (H a Ha). rewrite E in H.
  rewrite forallb_forall in H. apply in_list_In. apply H. exact Hb.
Qed.

Lemma closes_a_cycle_repeats (ids : list string) :
  closes_a_cycle ids -> ~ NoDup ids.
Proof.
  intros [before [x [inside ->]]] H.
  apply NoDup_remove_2 in H. apply H.
  apply in_or_app. right. apply in_or_app. right. left. reflexivity.
Qed.

Lemma detect_cycles_sound (get_invariant : string -> option Invariant.t)
    (fuel : nat) (invariants : list Invariant.t) :
  match detect_cycles get_invariant fuel invariants with
  | Done (Some cycle) =>
      dependency_chain get_invariant cycle /\ closes_a_cycle cycle
      /\ exists inv, In inv invariants
                     /\ hd_error cycle = Some (Invariant.id inv)
  | Done None => True
  | Raised e => exists k, e = LookupError k /\ get_invariant k = None
  | OutOfFuel => True
  end.
Proof.
  unfold detect_cycles.
  pose proof
    (@each_dependency_post
       (fun inv_id => dfs get_invariant fuel inv_id [])
       (fun cycle =>
          dependency_chain get_invariant cycle /\ closes_a_cycle cycle
          /\ exists inv, In inv invariants
                         /\ hd_error cycle = Some (Invariant.id inv))
       (fun _ st => rec_stack st = [])
       (fun e => exists k, e = LookupError k /\ get_invariant k = None) True
       (map Invariant.id invariants)) as Hloop.
  match type of Hloop with
  | ?P -> _ => assert (Hvisit : P)
  end.
  { intros dep rest st Hdep Hst.
    apply in_map_iff in Hdep. destruct Hdep as [inv [<- Hinv]].
    eapply dfs_post_impl.
    - apply dfs_sound with (path := []).
      + intros y Hy. rewrite Hst in Hy. exact Hy.
      + exact I.
    - intros c [Hc [Hcl [more ->]]]. split; [ exact Hc | ].
      split; [ exact Hcl | ]. exists inv. split; [ exact Hinv | reflexivity ].
    - intros st' E. rewrite E. exact Hst.
    - exact (fun _ H => H).
    - exact (fun H => H). }
  specialize (Hloop Hvisit (map Invariant.id invariants)
                {| visited := []; rec_stack := [] |}
                (fun y H => H) eq_refl).
  destruct (each_dependency _ _ _) as [[[c | ] st] | e | ];
    simpl in Hloop |- *; try exact Hloop; exact I.
Qed.

Lemma detect_cycles_fuel (get_invariant : string -> option Invariant.t)
    (universe : list string) (fuel : nat) (invariants : list Invariant.t) :
  dependency_closed get_invariant universe ->
  (forall inv, In inv invariants -> In (Invariant.id inv) universe) ->
  (List.length universe < fuel)%nat ->
  match detect_cycles get_invariant fuel invariants with
  | Done _ => True
  | Raised e => exists k, (e = LookupError k \/ e = KeyError k)
                          /\ In k universe
  | OutOfFuel => False
  end.
Proof.
  intros Hclosed Hids Hfuel. unfold detect_cycles.
  assert (Hall : forall st, (unvisited universe st <= List.length universe)%nat).
  { intros st. unfold unvisited.
    pose proof (@filter_length_le _
                  (fun u => negb (in_list u (visited st))) (fun _ => true)
                  (fun _ _ => eq_refl) universe) as H.
    replace (filter (fun _ => true) universe) with universe in H;
      [ exact H | ].
    clear. induction universe as [ | a l IH]; [ reflexivity | ].
    simpl. f_equal. exact IH. }
  pose proof
    (@each_dependency_post
       (fun inv_id => dfs get_invariant fuel inv_id [])
       (fun _ => True)
       (fun _ _ => True)
       (fun e => exists k, (e = LookupError k \/ e = KeyError k)
                           /\ In k universe)
       False
       (map Invariant.id invariants)) as Hloop.
  match type of Hloop with
  | ?P -> _ => assert (Hvisit : P)
  end.
  { intros dep rest st Hdep _.
    apply in_map_iff in Hdep. destruct Hdep as [inv [<- Hinv]].
    eapply dfs_post_impl.
    - eapply dfs_terminates with (universe := universe).
      + exact Hclosed.
      + apply Hids. exact Hinv.
      + pose proof (Hall st). lia.
    - exact (fun _ H => H).
    - exact (fun _ _ => I).
    - exact (fun _ H => H).
    - exact (fun H => H). }
  specialize (Hloop Hvisit (map Invariant.id invariants)
                {| visited := []; rec_stack := [] |}
                (fun y H => H) I).
  destruct (each_dependency _ _ _) as [[[c | ] st] | e | ];
    simpl in Hloop |- *; try exact Hloop; exact I.
Qed.

Lemma detect_cycles_complete (get_invariant : string -> option Invariant.t)
    (fuel : nat) (invariants : list Invariant.t) :
  detect_cycles get_invariant fuel invariants = Done None ->
  exists st, ranked get_invariant st
             /\ forall inv, In inv invariants ->
                  finished st (Invariant.id inv).
Proof.
  unfold detect_cycles.
  pose proof
    (@each_dependency_post
       (fun inv_id => dfs get_invariant fuel inv_id [])
       (fun _ => True)
       (fun rest st =>
          ranked get_invariant st /\ rec_stack st = []
          /\ exists done, map Invariant.id invariants = done ++ rest
                          /\ forall d, In d done -> finished st d)
       (fun _ => True) True
       (map Invariant.id invariants)) as Hloop.
  match type of Hloop with
  | ?P -> _ => assert (Hvisit : P)
  end.
  { intros dep rest st Hdep [Hr [Hs [done [Hsplit Hdone]]]].
    eapply dfs_post_impl.
    - apply dfs_complete. exact Hr.
    - exact (fun _ H => H).
    - intros st' [Hr' [Hf' [Hs' Hv']]]. simpl.
      split; [ exact Hr' | ]. split; [ congruence | ].
      exists (done ++ [dep]). split.
      + rewrite <- app_assoc. exact Hsplit.
      + intros d Hd. apply in_app_or in Hd.
        destruct Hd as [Hd | [<- | []]]; [ | exact Hf' ].
        destruct (Hdone d Hd) as [Hdv Hds]. split.
        * apply Hv'. exact Hdv.
        * rewrite Hs'. exact Hds.
    - exact (fun _ H => H).
    - exact (fun H => H). }
  specialize (Hloop Hvisit (map Invariant.id invariants)
                {| visited := []; rec_stack := [] |}
                (fun y H => H)).
  match type of Hloop with
  | ?P -> _ => assert (Hstart : P)
  end.
  { split.
    - exists (fun _ => O). intros x [[] _].
    - split; [ reflexivity | ].
      exists []. split; [ reflexivity | intros d [] ]. }
  specialize (Hloop Hstart).
  destruct (each_dependency _ _ _) as [[[c | ] st] | e | ];
    simpl in Hloop |- *; try discriminate.
  intros _. destruct Hloop as [Hr [_ [done [Hsplit Hdone]]]].
  rewrite app_nil_r in Hsplit. subst done.
  exists st. split; [ exact Hr | ].
  intros inv Hinv. apply Hdone. apply in_map. exact Hinv.
Qed.

(** X15. A cycle that [detect_cycles] returns is a real one: every id of
    the returned path lists the next one among its dependencies, the path
    starts at one of the invariants given, and it ends on an id it has
    already passed. The traversal never fails on its own bookkeeping: the
    only exception it can raise is the failure of [get_invariant] on an id
    that has no invariant. *)
Theorem X15_detect_cycles_returns_a_real_cycle
    (get_invariant : string -> option Invariant.t) (fuel : nat)
    (invariants : list Invariant.t) :
  (forall cycle,
     detect_cycles get_invariant fuel invariants = Done (Some cycle) ->
     dependency_chain get_invariant cycle
     /\ closes_a_cycle cycle /\ ~ NoDup cycle
     /\ exists inv, In inv invariants
                    /\ hd_error cycle = Some (Invariant.id inv))
  /\ (forall e,
        detect_cycles get_invariant fuel invariants = Raised e ->
        exists k, e = LookupError k /\ get_invariant k = None).
Proof.
  pose proof (detect_cycles_sound get_invariant fuel invariants) as H.
  split.
  - intros cycle E. rewrite E in H. destruct H as [Hc [Hcl Hhd]].
    split; [ exact Hc | ]. split; [ exact Hcl | ].
    split; [ apply closes_a_cycle_repeats; exact Hcl | exact Hhd ].
  - intros e E. rewrite E in H. exact H.
Qed.

Lemma X15_witness :
  detect_cycles circular_invariant 4 circular_invariants
  = Done (Some ["inv_a"; "inv_b"; "inv_c"; "inv_b"])
  /\ dependency_chain circular_invariant ["inv_a"; "inv_b"; "inv_c"; "inv_b"]
  /\ closes_a_cycle ["inv_a"; "inv_b"; "inv_c"; "inv_b"].
Proof.
  assert (E : detect_cycles circular_invariant 4 circular_invariants
              = Done (Some ["inv_a"; "inv_b"; "inv_c"; "inv_b"])).
  { vm_compute. reflexivity. }
  split; [ exact E | ].
  destruct (X15_detect_cycles_returns_a_real_cycle circular_invariant 4
              circular_invariants) as [H _].
  destruct (H _ E) as [Hc [Hcl _]].
  split; [ exact Hc | exact Hcl ].
Defined.

(** X16. [detect_cycles] terminates, and the recursion of [dfs] never goes
    deeper than the number of ids plus one: when all the ids that can be met
    (those of the invariants given and, transitively, their dependencies) are
    among [universe], any recursion bound above the length of [universe] is
    enough for a result. The result is then a verdict or the failure of
    [get_invariant] on an id of [universe] that has no invariant; if every id
    of [universe] has one, it is a verdict. *)
Theorem X16_detect_cycles_terminates
    (get_invariant : string -> option Invariant.t)
    (universe : list string) (fuel : nat) (invariants : list Invariant.t) :
  dependency_closed get_invariant universe ->
  (forall inv, In inv invariants -> In (Invariant.id inv) universe) ->
  (List.length universe < fuel)%nat ->
  ((exists verdict,
      detect_cycles get_invariant fuel invariants = Done verdict)
   \/ (exists k,
         detect_cycles get_invariant fuel invariants = Raised (LookupError k)
         /\ In k universe /\ get_invariant k = None))
  /\ ((forall k, In k universe -> get_invariant k <> None) ->
      exists verdict,
        detect_cycles get_invariant fuel invariants = Done verdict).
Proof.
  intros Hclosed Hids Hfuel.
  pose proof (detect_cycles_sound get_invariant fuel invariants) as Hs.
  pose proof (@detect_cycles_fuel get_invariant universe fuel invariants
                Hclosed Hids Hfuel) as Hf.
  destruct (detect_cycles get_invariant fuel invariants)
    as [verdict | e | ] eqn:E; [ | | contradiction ].
  - split; [ left | intros _ ]; exists verdict; reflexivity.
  - destruct Hs as [k [-> Hnone]].
    destruct Hf as [k' [[Ek | Ek] Hk]]; [ | discriminate ].
    injection Ek as <-.
    split.
    + right. exists k. split; [ reflexivity | ]. split; assumption.
    + intros Hall. exfalso. apply (Hall k Hk). exact Hnone.
Qed.

Lemma X16_witness :
  dependency_closed catalogue_invariant (map Invariant.id ALL_INVARIANTS)
  /\ exists verdict,
       detect_cycles catalogue_invariant 33 ALL_INVARIANTS = Done verdict.
Proof.
  assert (Hclosed : dependency_closed catalogue_invariant
                      (map Invariant.id ALL_INVARIANTS)).
  { apply dependency_closedb_sound. vm_compute. reflexivity. }
  split; [ exact Hclosed | ].
  assert (Hfuel : (List.length (map Invariant.id ALL_INVARIANTS) < 33)%nat).
  { vm_compute. lia. }
  destruct (@X16_detect_cycles_terminates catalogue_invariant
              (map Invariant.id ALL_INVARIANTS) 33 ALL_INVARIANTS
              Hclosed (fun inv H => in_map Invariant.id _ _ H) Hfuel)
    as [_ H].
  apply H. intros k Hk.
  assert (Hall : forallb (fun k => match catalogue_invariant k with
                                   | Some _ => true
                                   | None => false
                                   end)
                         (map Invariant.id ALL_INVARIANTS) = true).
  { vm_compute. reflexivity. }
  rewrite forallb_forall in Hall. specialize (Hall k Hk).
  destruct (catalogue_invariant k); [ discriminate | discriminate ].
Defined.

(** X17. When [detect_cycles] reports no cycle there is none within reach
    of the invariants given: every chain of dependencies that starts at one
    of them passes through ids that all have an invariant, and through no id
    twice. *)
Theorem X17_no_cycle_reported_means_none_reachable
    (get_invariant : string -> option Invariant.t) (fuel : nat)
    (invariants : list Invariant.t) (inv : Invariant.t) (ids : list string) :
  detect_cycles get_invariant fuel invariants = Done None ->
  In inv invariants ->
  dependency_chain get_invariant (Invariant.id inv :: ids) ->
  NoDup (Invariant.id inv :: ids)
  /\ ~ closes_a_cycle (Invariant.id inv :: ids)
  /\ get_invariant (Invariant.id inv) <> None.
Proof.
  intros E Hinv Hchain.
  destruct (detect_cycles_complete _ _ _ E) as [st [[rank Hrank] Hfin]].
  assert (Hnd : NoDup (Invariant.id inv :: ids)).
  { eapply ranked_chain_NoDup; [ exact Hrank | | exact Hchain ].
    apply Hfin. exact Hinv. }
  split; [ exact Hnd | ]. split.
  - intros Hcl. apply (closes_a_cycle_repeats Hcl). exact Hnd.
  - destruct (Hrank _ (Hfin inv Hinv)) as [inv' [E' _]]. congruence.
Qed.

Lemma X17_witness :
  detect_cycles catalogue_invariant 33 ALL_INVARIANTS = Done None
  /\ NoDup ["inv_502_pricing_accuracy"; "inv_103_pricing_before_acceptance";
            "inv_109_pricing_freshness"].
Proof.
  assert (E : detect_cycles catalogue_invariant 33 ALL_INVARIANTS
              = Done None).
  { vm_compute. reflexivity. }
  split; [ exact E | ].
  apply (@X17_no_cycle_reported_means_none_reachable catalogue_invariant 33
           ALL_INVARIANTS
           (Invariant.mk "inv_502_pricing_accuracy"
              ["inv_103_pricing_before_acceptance";
               "inv_109_pricing_freshness"])
           ["inv_103_pricing_before_acceptance"; "inv_109_pricing_freshness"]
           E).
  - vm_compute. do 27 right. left. reflexivity.
  - simpl. split.
    + eexists. split; [ vm_compute; reflexivity | left; reflexivity ].
    + split; [ | exact I ].
      eexists. split; [ vm_compute; reflexivity | left; reflexivity ].
Defined.


(** ** Settlement routing *)

Lemma try_rails_none_answers (rails : list Rail.t) (invoice_id : string) :
  (forall rail, In rail rails -> answers invoice_id rail = false) ->
  try_rails rails invoice_id
  = (SettlementFailed,
     map (fun rail => (Rail.name rail, Rail.RailException))
         (filter Rail.is_available rails)).
Proof.
  induction rails as [ | rail rest IH]; intros H; [ reflexivity | ].
  pose proof (H rail (or_introl eq_refl)) as Hrail.
  specialize (IH (fun r Hr => H r (or_intror Hr))).
  unfold answers in Hrail. simpl.
  destruct (Rail.is_available rail); [ | exact IH ].
  destruct (Rail.settle rail invoice_id); [ discriminate | ].
  rewrite IH. reflexivity.
Qed.

Lemma try_rails_skips (before : list Rail.t) (rails : list Rail.t)
    (invoice_id : string) :
  (forall rail, In rail before -> answers invoice_id rail = false) ->
  try_rails (before ++ rails) invoice_id
  = (fst (try_rails rails invoice_id),
     map (fun rail => (Rail.name rail, Rail.RailException))
         (filter Rail.is_available before)
     ++ snd (try_rails rails invoice_id)).
Proof.
  induction before as [ | rail rest IH]; intros H.
  - simpl. destruct (try_rails rails invoice_id). reflexivity.
  - pose proof (H rail (or_introl eq_refl)) as Hrail.
    specialize (IH (fun r Hr => H r (or_intror Hr))).
    unfold answers in Hrail. simpl.
    destruct (Rail.is_available rail); [ | exact IH ].
    destruct (Rail.settle rail invoice_id); [ discriminate | ].
    rewrite IH. reflexivity.
Qed.

Lemma find_split (A : Type) (f : A -> bool) (l : list A) (x : A) :
  find f l = Some x ->
  exists before after,
    l = before ++ x :: after /\ f x = true
    /\ forall y, In y before -> f y = false.
Proof.
  induction l as [ | a l IH]; intros H; [ discriminate | ].
  simpl in H. destruct (f a) eqn:E.
  - injection H as <-. exists [], l. split; [ reflexivity | ].
    split; [ exact E | intros y [] ].
  - destruct (IH H) as [before [after [-> [Hx Hb]]]].
    exists (a :: before), after. split; [ reflexivity | ].
    split; [ exact Hx | ].
    intros y [<- | Hy]; [ exact E | apply Hb; exact Hy ].
Qed.

(** X18. [execute_settlement] is decided by the first rail that is
    available and whose [settle] does not raise [RailException]: without such
    a rail it raises [SettlementFailed]; with one, it returns that rail's
    result if the settlement took under five seconds and all legs are
    confirmed, and otherwise fails on an [assert] -- although that rail has
    settled, and without trying the rails after it. *)
Theorem X18_routing_is_decided_by_first_answering_rail
    (rails : list Rail.t) (invoice_id : string) :
  fst (try_rails rails invoice_id)
  = match find (answers invoice_id) rails with
    | None => SettlementFailed
    | Some rail =>
        match Rail.settle rail invoice_id with
        | Rail.Settled result =>
            if (Rail.duration result <? seconds 5)
               && Rail.all_legs_confirmed result
            then Returned result else AssertionError
        | Rail.RailException => SettlementFailed
        end
    end.
Proof.
  destruct (find (answers invoice_id) rails) as [rail | ] eqn:E.
  - destruct (find_split _ _ E) as [before [after [-> [Hrail Hbefore]]]].
    rewrite (try_rails_skips before (rail :: after) invoice_id Hbefore).
    cbn [fst]. unfold answers in Hrail. apply andb_true_iff in Hrail.
    destruct Hrail as [Ha Hs]. cbn [try_rails]. rewrite Ha.
    destruct (Rail.settle rail invoice_id) as [result | ];
      [ | discriminate ].
    cbn [fst].
    destruct (Rail.duration result <? seconds 5);
      destruct (Rail.all_legs_confirmed result); reflexivity.
  - rewrite try_rails_none_answers; [ reflexivity | ].
    intros rail Hin. apply (find_none _ _ E). exact Hin.
Qed.

Lemma X18_witness :
  execute_settlement rtp_down fednow_slow ach_up "INV-001"
  = (AssertionError,
     [("FedNow", Rail.Settled (Rail.mk_result (seconds 6) true))]).
Proof.
  pose proof (X18_routing_is_decided_by_first_answering_rail
                [rtp_down; fednow_slow; ach_up] "INV-001") as H.
  unfold execute_settlement.
  destruct (try_rails [rtp_down; fednow_slow; ach_up] "INV-001")
    as [outcome calls] eqn:E.
  cbn [fst] in H. rewrite H. vm_compute in E. inversion E. reflexivity.
Defined.

(** X19. [execute_settlement] settles on at most one rail: [settle] is
    called on available rails only, in the order of the list; every call but
    the last raised [RailException]; and the function returns a result only
    if the last call settled with that result. When it fails on an [assert],
    the last call has settled all the same. *)
Theorem X19_at_most_one_rail_settles
    (rails : list Rail.t) (invoice_id : string) :
  let (outcome, calls) := try_rails rails invoice_id in
  (List.length (filter rail_settled calls) <= 1)%nat
  /\ (exists tried,
        calls = map (fun rail =>
                       (Rail.name rail, Rail.settle rail invoice_id)) tried
        /\ (forall rail, In rail tried ->
              In rail rails /\ Rail.is_available rail = true)
        /\ (outcome = SettlementFailed ->
            tried = filter Rail.is_available rails))
  /\ match outcome with
     | Returned result =>
         exists failed name,
           calls = failed ++ [(name, Rail.Settled result)]
           /\ Forall (fun call => snd call = Rail.RailException) failed
           /\ Rail.duration result < seconds 5
           /\ Rail.all_legs_confirmed result = true
     | AssertionError =>
         exists failed name result,
           calls = failed ++ [(name, Rail.Settled result)]
           /\ Forall (fun call => snd call = Rail.RailException) failed
           /\ (seconds 5 <= Rail.duration result
               \/ Rail.all_legs_confirmed result = false)
     | SettlementFailed =>
         Forall (fun call => snd call = Rail.RailException) calls
     end.
Proof.
  induction rails as [ | rail rest IH].
  - simpl. split; [ lia | ]. split; [ | constructor ].
    exists []. split; [ reflexivity | ].
    split; [ intros rail [] | reflexivity ].
  - cbn [try_rails]. destruct (Rail.is_available rail) eqn:Ea.
    + destruct (Rail.settle rail invoice_id) as [result | ] eqn:Es.
      * split; [ simpl; lia | ]. split.
        { exists [rail]. split; [ simpl; rewrite Es; reflexivity | ].
          split.
          - intros r [<- | []]. split; [ left; reflexivity | exact Ea ].
          - destruct (Rail.duration result <? seconds 5);
              [ destruct (Rail.all_legs_confirmed result) | ];
              intros Ho; discriminate Ho. }
        destruct (Rail.duration result <? seconds 5) eqn:Ed;
          [ destruct (Rail.all_legs_confirmed result) eqn:Ec | ].
        { exists [], (Rail.name rail). split; [ reflexivity | ].
          split; [ constructor | ].
          split; [ apply Z.ltb_lt; exact Ed | exact Ec ]. }
        { exists [], (Rail.name rail), result. split; [ reflexivity | ].
          split; [ constructor | right; exact Ec ]. }
        { exists [], (Rail.name rail), result. split; [ reflexivity | ].
          split; [ constructor | left; apply Z.ltb_ge; exact Ed ]. }
      * destruct (try_rails rest invoice_id) as [outcome calls].
        destruct IH as [Hcount [[tried [Hcalls [Htried Hall]]] Hlast]].
        split; [ exact Hcount | ]. split.
        { exists (rail :: tried). split;
            [ simpl; rewrite Es, Hcalls; reflexivity | ].
          split.
          - intros r [<- | Hr]; [ split; [ left; reflexivity | exact Ea ] | ].
            destruct (Htried r Hr) as [H1 H2].
            split; [ right; exact H1 | exact H2 ].
          - intros Ho. simpl. rewrite Ea, <- (Hall Ho). reflexivity. }
        destruct outcome.
        { destruct Hlast as [failed [name [-> H]]].
          exists ((Rail.name rail, Rail.RailException) :: failed), name.
          split; [ reflexivity | ].
          destruct H as [Hf H]. split; [ | exact H ].
          constructor; [ reflexivity | exact Hf ]. }
        { destruct Hlast as [failed [name [result [-> H]]]].
          exists ((Rail.name rail, Rail.RailException) :: failed), name,
                 result.
          split; [ reflexivity | ].
          destruct H as [Hf H]. split; [ | exact H ].
          constructor; [ reflexivity | exact Hf ]. }
        { constructor; [ reflexivity | exact Hlast ]. }
    + destruct (try_rails rest invoice_id) as [outcome calls].
      destruct IH as [Hcount [[tried [Hcalls [Htried Hall]]] Hlast]].
      split; [ exact Hcount | ]. split; [ | exact Hlast ].
      exists tried. split; [ exact Hcalls | ]. split.
      * intros r Hr. destruct (Htried r Hr) as [H1 H2].
        split; [ right; exact H1 | exact H2 ].
      * intros Ho. simpl. rewrite Ea. exact (Hall Ho).
Qed.

(** ** The expiring fraud score *)

Section CacheFacts.

Variable score_t : Type.

(** After at least one call the object holds a score and its stamp, both
    of one earlier call. *)
Lemma gets_holds (calls : list (ExpiringFraudScore.call score_t))
    (self : ExpiringFraudScore.t score_t) :
  ((ExpiringFraudScore.score self = None
    /\ ExpiringFraudScore.calculated_at self = None)
   \/ exists c, ExpiringFraudScore.score self
                = Some (ExpiringFraudScore.fresh c)
                /\ ExpiringFraudScore.calculated_at self
                   = Some (ExpiringFraudScore.now_stamp c)) ->
  let self' := ExpiringFraudScore.gets self calls in
  ExpiringFraudScore.verification_window self'
  = ExpiringFraudScore.verification_window self
  /\ ExpiringFraudScore.invoice_id self'
     = ExpiringFraudScore.invoice_id self
  /\ ((calls = [] /\ self' = self)
      \/ exists c, (In c calls
                    \/ (ExpiringFraudScore.score self
                        = Some (ExpiringFraudScore.fresh c)
                        /\ ExpiringFraudScore.calculated_at self
                           = Some (ExpiringFraudScore.now_stamp c)))
                   /\ ExpiringFraudScore.score self'
                      = Some (ExpiringFraudScore.fresh c)
                   /\ ExpiringFraudScore.calculated_at self'
                      = Some (ExpiringFraudScore.now_stamp c)).
Proof.
  revert self. induction calls as [ | c rest IH]; intros self Hself.
  - simpl. split; [ reflexivity | ]. split; [ reflexivity | ].
    left. split; reflexivity.
  - simpl.
    assert (Hstep :
      ExpiringFraudScore.verification_window
        (snd (ExpiringFraudScore.get self c))
      = ExpiringFraudScore.verification_window self
      /\ ExpiringFraudScore.invoice_id (snd (ExpiringFraudScore.get self c))
         = ExpiringFraudScore.invoice_id self
      /\ exists c', (c' = c
                     \/ (ExpiringFraudScore.score self
                         = Some (ExpiringFraudScore.fresh c')
                         /\ ExpiringFraudScore.calculated_at self
                            = Some (ExpiringFraudScore.now_stamp c')))
           /\ ExpiringFraudScore.score (snd (ExpiringFraudScore.get self c))
              = Some (ExpiringFraudScore.fresh c')
           /\ ExpiringFraudScore.calculated_at
                (snd (ExpiringFraudScore.get self c))
              = Some (ExpiringFraudScore.now_stamp c')).
    { unfold ExpiringFraudScore.get.
      destruct Hself as [[Hs Ha] | [c0 [Hs Ha]]]; rewrite Ha.
      - simpl. split; [ reflexivity | ]. split; [ reflexivity | ].
        exists c. split; [ left; reflexivity | split; reflexivity ].
      - destruct (_ <? _); simpl; (split; [ reflexivity | ]);
          (split; [ reflexivity | ]).
        + exists c. split; [ left; reflexivity | split; reflexivity ].
        + exists c0.
          repeat split; first [ assumption | reflexivity | right ];
            split; first [ assumption | reflexivity ]. }
    destruct Hstep as [Hw [Hi [c' [Hc' [Hs' Ha']]]]].
    destruct (IH (snd (ExpiringFraudScore.get self c))
                 (or_intror (ex_intro _ c' (conj Hs' Ha'))))
      as [Hw2 [Hi2 H2]].
    split; [ congruence | ]. split; [ congruence | ]. right.
    destruct H2 as [[-> ->] | [c2 [Hc2 [Hs2 Ha2]]]].
    + exists c'. split; [ | split; assumption ].
      destruct Hc' as [-> | H]; [ left; left; reflexivity | right; exact H ].
    + destruct Hc2 as [Hin | [E1 E2]].
      * exists c2. split; [ left; right; exact Hin | split; assumption ].
      * exists c'. split; [ | split; congruence ].
        destruct Hc' as [-> | H]; [ left; left; reflexivity | right; exact H ].
Qed.

End CacheFacts.

(** X20. [ExpiringFraudScore.get] never returns [None] and never serves a
    score more than 24 hours old: after any sequence of calls on a new
    object, the next call either recalculates (and stamps the score with its
    second reading of the clock) or leaves the object as it is and returns
    the score of an earlier call whose stamp is at most 24 hours before the
    first reading of the clock. The window is inclusive: at an age of
    exactly 24 hours the stored score is still served, while INV-202's
    pre-check already rejects a score of that age. *)
Theorem X20_fraud_score_cache_serves_within_window (score_t : Type)
    (invoice_id : string)
    (calls : list (ExpiringFraudScore.call score_t))
    (c : ExpiringFraudScore.call score_t) :
  let self := ExpiringFraudScore.gets
                (ExpiringFraudScore.init score_t invoice_id) calls in
  (ExpiringFraudScore.get self c
   = (Some (ExpiringFraudScore.fresh c),
      ExpiringFraudScore.mk invoice_id (Some (ExpiringFraudScore.fresh c))
        (Some (ExpiringFraudScore.now_stamp c)) (hours 24))
   /\ (calls = []
       \/ exists at_, ExpiringFraudScore.calculated_at self = Some at_
                      /\ hours 24 < ExpiringFraudScore.now_age c - at_))
  \/ (exists c', In c' calls
        /\ ExpiringFraudScore.get self c
           = (Some (ExpiringFraudScore.fresh c'), self)
        /\ ExpiringFraudScore.calculated_at self
           = Some (ExpiringFraudScore.now_stamp c')
        /\ ExpiringFraudScore.now_age c - ExpiringFraudScore.now_stamp c'
           <= hours 24
        /\ forall i,
             Invoice.fraud_score_calculated_at i
             = Some (ExpiringFraudScore.now_stamp c') ->
             ExpiringFraudScore.now_age c - ExpiringFraudScore.now_stamp c'
             = hours 24 ->
             inv_202_pre_check (ExpiringFraudScore.now_age c) i = false).
Proof.
  intros self.
  destruct (@gets_holds score_t calls
              (ExpiringFraudScore.init score_t invoice_id)
              (or_introl (conj eq_refl eq_refl)))
    as [Hw [Hi H]].
  fold self in Hw, Hi, H. simpl in Hw, Hi.
  destruct H as [[-> Hself] | [c' [Hc' [Hs Ha]]]].
  - left. split; [ | left; reflexivity ].
    subst self. reflexivity.
  - destruct Hc' as [Hin | [E _]]; [ | discriminate ].
    unfold ExpiringFraudScore.get. rewrite Ha, Hw, Hi.
    destruct (hours 24 <? ExpiringFraudScore.now_age c
                          - ExpiringFraudScore.now_stamp c') eqn:E.
    + left. split; [ reflexivity | ]. right.
      exists (ExpiringFraudScore.now_stamp c'). split; [ reflexivity | ].
      apply Z.ltb_lt. exact E.
    + right. exists c'. split; [ exact Hin | ].
      split; [ rewrite Hs; reflexivity | ]. split; [ reflexivity | ].
      apply Z.ltb_ge in E. split; [ exact E | ].
      intros i Hat Hage. unfold inv_202_pre_check. rewrite Hat.
      destruct (Invoice.fraud_score i); [ | reflexivity ].
      apply andb_false_iff. left. apply Z.ltb_ge. lia.
Qed.

(** ** The health score *)

(** X21. [calculate_system_health] returns 0.0 as soon as one critical
    metric fails; with all critical metrics passing, the score lies between
    0.7 and 0.9999999999999999 -- it never reaches 1.0, even with every
    metric passing -- and it reaches the operating threshold of 0.95 exactly
    when all three important metrics pass and at least one optional metric
    does. *)
Theorem X21_health_score_range_and_threshold (m : HealthScore.metrics) :
  (HealthScore.all (HealthScore.critical m) = false ->
   HealthScore.calculate_system_health m = HealthScore.of_nat 0)
  /\ (HealthScore.all (HealthScore.critical m) = true ->
      PrimFloat.leb (PrimFloat.div (HealthScore.of_nat 7)
                                   (HealthScore.of_nat 10))
                    (HealthScore.calculate_system_health m) = true
      /\ PrimFloat.ltb (HealthScore.calculate_system_health m)
                       (HealthScore.of_nat 1) = true)
  /\ HealthScore.operational m
     = HealthScore.all (HealthScore.critical m)
       && HealthScore.all (HealthScore.important m)
       && HealthScore.any (HealthScore.optional m).
Proof.
  unfold HealthScore.operational, HealthScore.calculate_system_health,
    HealthScore.critical, HealthScore.important, HealthScore.optional.
  destruct m as [m1 m2 m3 m4 m5 m6 m7 m8 m9 m10].
  cbn [HealthScore.settlement_latency_p99 HealthScore.double_payment_rate
       HealthScore.pricing_accuracy HealthScore.atomic_settlement_rate
       HealthScore.fraud_block_rate HealthScore.capital_competition_rate
       HealthScore.settlement_rail_uptime HealthScore.fraud_check_latency
       HealthScore.api_latency_p95 HealthScore.daily_volume_growth].
  repeat match goal with
         | |- context [PrimFloat.ltb ?x ?y] =>
             first [ is_var x | is_var y ];
             generalize (PrimFloat.ltb x y); intros ?check
         | |- context [PrimFloat.eqb ?x ?y] =>
             first [ is_var x | is_var y ];
             generalize (PrimFloat.eqb x y); intros ?check
         end.
  clear.
  repeat match goal with
         | b : bool |- _ => destruct b
         end;
    vm_compute; (split; [ | split ]);
    try reflexivity; try discriminate; intros _; split; reflexivity.
Qed.


(** ** The accounts and the history of their balances *)

Lemma check_account_all (t : list Account.t) (a : Account.t) (u : unit) :
  check_account t a = Ok u ->
  Accounts.row_checks a = true
  /\ ~ In (Account.id a) (map Account.id t)
  /\ ~ In (Account.email a) (map Account.email t).
Proof.
  intros H. unfold check_account in H. checks H. apply require_ok in H.
  apply negb_true_iff in Hcheck5, H.
  split; [ | split; apply no_key_not_in; assumption ].
  unfold Accounts.row_checks.
  repeat match goal with
         | Hc : ?b = true |- context [?b] => rewrite Hc
         end.
  reflexivity.
Qed.


Lemma row_checks_balance (a : Account.t) :
  Accounts.row_checks a = true ->
  0 <= Account.balance a < 10 ^ 15.
Proof.
  unfold Accounts.row_checks, Accounts.columns_fit, Accounts.positive_balance,
    Decimal.fits.
  intros H.
  repeat (apply andb_true_iff in H;
          let H' := fresh "Hc" in destruct H as [H H']).
  apply Z.leb_le in Hc0. apply Z.ltb_lt in Hc5. lia.
Qed.


Lemma pkey_free (t : list BalanceChange.t) (i : Z) :
  negb (existsb (fun r => BalanceChange.id r =? i) t) = true
  <-> ~ In i (map BalanceChange.id t).
Proof.
  rewrite negb_true_iff. split.
  - intros H Hin. apply in_map_iff in Hin. destruct Hin as [r [<- Hr]].
    assert (E : existsb (fun r0 => BalanceChange.id r0 =? BalanceChange.id r)
                        t = true).
    { apply existsb_exists. exists r. split; [ exact Hr | apply Z.eqb_refl ]. }
    congruence.
  - intros H. apply not_true_is_false. intros E.
    apply existsb_exists in E. destruct E as [r [Hr Hi]].
    apply Z.eqb_eq in Hi. apply H. subst i. apply in_map. exact Hr.
Qed.


Lemma trigger_row_logged (i : Z) (old new : Account.t)
    (now : timestamptz) (current_user : string) :
  Accounts.row_checks old = true -> Accounts.row_checks new = true ->
  Account.balance old <> Account.balance new ->
  logged_row_ok
    (BalanceChange.with_id i (balance_change old new now current_user)).
Proof.
  intros Hold Hnew Hne.
  pose proof (row_checks_balance _ Hold) as Ho.
  pose proof (row_checks_balance _ Hnew) as Hn.
  unfold logged_row_ok, BalanceChange.with_id, balance_change.
  cbn [BalanceChange.previous_balance BalanceChange.new_balance
       BalanceChange.change_amount BalanceChange.change_type
       BalanceChange.settlement_id BalanceChange.invoice_id
       BalanceChange.reason].
  repeat split; try lia.
  destruct (Z.ltb_spec (Account.balance old) (Account.balance new));
    destruct (Z.ltb_spec 0 (Account.balance new - Account.balance old));
    try reflexivity; lia.
Qed.

(** What an [INSERT] into [balance_history] does to the ledger. *)
Lemma insert_balance_change_cases (l : ledger) (default_id : bool)
    (h : BalanceChange.t) (current_user : string) :
  match insert_balance_change l default_id h current_user with
  | Success l' =>
      account_rows l' = account_rows l
      /\ balance_history_id_seq l <= balance_history_id_seq l'
      /\ exists h',
           balance_history l' = balance_history l ++ [h']
           /\ ~ In (BalanceChange.id h')
                   (map BalanceChange.id (balance_history l))
           /\ (default_id = true ->
               h' = BalanceChange.with_id (balance_history_id_seq l + 1) h
               /\ balance_history_id_seq l' = balance_history_id_seq l + 1)
  | Failure _ id_seq =>
      balance_history_id_seq l <= id_seq
  end.
Proof.
  unfold insert_balance_change. destruct default_id.
  - destruct (may_use_id_seq current_user); [ | simpl; lia ].
    destruct (balance_history_id_seq l + 1 <? 2 ^ 63); [ | simpl; lia ].
    destruct (check_balance_change _ _) as [u | e] eqn:E; [ | simpl; lia ].
    unfold check_balance_change in E. checks E. apply require_ok in E.
    apply pkey_free in E. simpl.
    split; [ reflexivity | ]. split; [ lia | ].
    eexists. split; [ reflexivity | ]. split; [ exact E | ].
    intros _. split; reflexivity.
  - destruct (check_balance_change _ _) as [u | e] eqn:E; [ | simpl; lia ].
    unfold check_balance_change in E. checks E. apply require_ok in E.
    apply pkey_free in E. simpl.
    split; [ reflexivity | ]. split; [ lia | ].
    exists h. split; [ reflexivity | ]. split; [ exact E | ].
    discriminate.
Qed.

Lemma initial_ledger_ok : ledger_ok initial_ledger.
Proof.
  constructor; simpl.
  - exact seed_account_ids_distinct.
  - repeat constructor; simpl; intuition discriminate.
  - repeat constructor.
  - constructor.
  - lia.
Qed.

Lemma rolled_back_ok (l : ledger) (id_seq : Z) :
  ledger_ok l -> balance_history_id_seq l <= id_seq ->
  ledger_ok (rolled_back l id_seq).
Proof.
  intros [H1 H2 H3 H4 H5] Hle. constructor; simpl; try assumption. lia.
Qed.

Lemma insert_balance_change_ok (l l' : ledger) (default_id : bool)
    (h : BalanceChange.t) (current_user : string) :
  ledger_ok l ->
  insert_balance_change l default_id h current_user = Success l' ->
  ledger_ok l'.
Proof.
  intros [H1 H2 H3 H4 H5] E.
  pose proof (insert_balance_change_cases l default_id h current_user) as Hc.
  rewrite E in Hc. destruct Hc as [Hrows [Hseq [h' [Hh [Hnew _]]]]].
  constructor.
  - rewrite Hrows. exact H1.
  - rewrite Hrows. exact H2.
  - rewrite Hrows. exact H3.
  - rewrite Hh. apply snoc_map_NoDup; assumption.
  - lia.
Qed.

(** What an [UPDATE] of [accounts] does to the ledger. *)
Lemma update_account_cases (l : ledger) (k : string)
    (set : Account.t -> Account.t) (now : timestamptz)
    (current_user : string) :
  match update_account_attempt l k set now current_user with
  | Success (l', n) =>
      (find_row Account.id k (account_rows l) = None /\ l' = l /\ n = 0%nat)
      \/ exists old u,
           find_row Account.id k (account_rows l) = Some old
           /\ check_account (others Account.id k (account_rows l))
                            (Accounts.assign set old) = Ok u
           /\ n = 1%nat
           /\ account_rows l'
              = others Account.id k (account_rows l)
                ++ [Accounts.assign set old]
           /\ ((Account.balance old
                = Account.balance (Accounts.assign set old)
                /\ balance_history l' = balance_history l
                /\ balance_history_id_seq l' = balance_history_id_seq l)
               \/ (Account.balance old
                   <> Account.balance (Accounts.assign set old)
                   /\ balance_history l'
                      = balance_history l
                        ++ [BalanceChange.with_id
                              (balance_history_id_seq l + 1)
                              (balance_change old (Accounts.assign set old)
                                              now current_user)]
                   /\ ~ In (balance_history_id_seq l + 1)
                           (map BalanceChange.id (balance_history l))
                   /\ balance_history_id_seq l'
                      = balance_history_id_seq l + 1))
  | Failure _ id_seq => balance_history_id_seq l <= id_seq
  end.
Proof.
  unfold update_account_attempt.
  destruct (find_row Account.id k (account_rows l)) as [old | ] eqn:Ef;
    [ | left; repeat split ].
  cbv zeta.
  destruct (check_account _ _) as [u | e] eqn:Ec; [ | simpl; lia ].
  unfold log_balance_change.
  destruct (Z.eqb_spec (Account.balance old)
              (Account.balance (Accounts.assign set old))) as [Eb | Hb];
    cbn [negb].
  - right. exists old, u. repeat split; try assumption.
    left. repeat split. exact Eb.
  - pose proof (insert_balance_change_cases
                  (mk_ledger
                     (others Account.id k (account_rows l)
                      ++ [Accounts.assign set old])
                     (balance_history l) (balance_history_id_seq l))
                  true
                  (balance_change old (Accounts.assign set old) now
                                  current_user)
                  current_user) as Hc.
    destruct (insert_balance_change _ _ _ _) as [l' | e id_seq];
      [ | exact Hc ].
    simpl in Hc. destruct Hc as [Hrows [Hseq [h' [Hh [Hnew Hdef]]]]].
    destruct (Hdef eq_refl) as [-> Hs].
    right. exists old, u. repeat split; try assumption.
    right. repeat split; assumption.
Qed.

Lemma after_account_ok (l : ledger) (s : account_stmt) :
  ledger_ok l -> ledger_ok (after_account l s).
Proof.
  intros Hl. unfold after_account.
  destruct s as [a | k set now user]; simpl.
  - unfold insert_account.
    destruct (check_account (account_rows l) a) as [u | e] eqn:Ec; simpl;
      [ | apply rolled_back_ok; [ exact Hl | lia ] ].
    apply check_account_all in Ec. destruct Ec as [Hrow [Hid Hemail]].
    destruct Hl as [H1 H2 H3 H4 H5].
    constructor; simpl; try assumption.
    + apply snoc_map_NoDup; assumption.
    + apply snoc_map_NoDup; assumption.
    + apply Forall_snoc; assumption.
  - pose proof (update_account_cases l k set now user) as Hc.
    destruct (update_account_attempt l k set now user) as [[l' n] | e id_seq];
      [ | apply rolled_back_ok; assumption ].
    destruct Hc as [[_ [-> _]] | [old [u [Hfind [Hcheck [_ [Hrows Hlog]]]]]]];
      [ exact Hl | ].
    apply check_account_all in Hcheck.
    destruct Hcheck as [Hrow [Hid Hemail]].
    destruct Hl as [H1 H2 H3 H4 H5].
    constructor.
    + rewrite Hrows.
      apply snoc_map_NoDup; [ apply filter_map_NoDup; exact H1 | exact Hid ].
    + rewrite Hrows.
      apply snoc_map_NoDup;
        [ apply filter_map_NoDup; exact H2 | exact Hemail ].
    + rewrite Hrows. apply Forall_snoc; [ | exact Hrow ].
      apply others_Forall. exact H3.
    + destruct Hlog as [[_ [-> _]] | [_ [-> [Hnew _]]]]; [ exact H4 | ].
      apply snoc_map_NoDup; [ exact H4 | exact Hnew ].
    + destruct Hlog as [[_ [_ ->]] | [_ [_ [_ ->]]]]; lia.
Qed.

Lemma run_accounts_ok (script : list account_stmt) (l : ledger) :
  ledger_ok l -> ledger_ok (run_accounts l script).
Proof.
  revert l. induction script as [ | s script IH]; intros l Hl; [ exact Hl | ].
  simpl. apply IH. apply after_account_ok. exact Hl.
Qed.

Lemma after_ledger_ok (l : ledger) (s : ledger_stmt) :
  ledger_ok l -> ledger_ok (after_ledger l s).
Proof.
  intros Hl. destruct s as [s | default_id h user]; simpl.
  - apply after_account_ok. exact Hl.
  - pose proof (insert_balance_change_cases l default_id h user) as Hc.
    destruct (insert_balance_change l default_id h user) as [l' | e id_seq]
      eqn:E.
    + exact (@insert_balance_change_ok _ _ _ _ _ Hl E).
    + apply rolled_back_ok; assumption.
Qed.

Lemma ledger_reachable_ok (l : ledger) : ledger_reachable l -> ledger_ok l.
Proof.
  intros [script ->]. generalize initial_ledger_ok.
  generalize initial_ledger.
  induction script as [ | s script IH]; intros l Hl; [ exact Hl | ].
  simpl. apply IH. apply after_ledger_ok. exact Hl.
Qed.

Lemma ledger_reachable_initial : ledger_reachable initial_ledger.
Proof. exists []. reflexivity. Qed.

Lemma run_accounts_as_ledger (script : list account_stmt) (l : ledger) :
  run_accounts l script = run_ledger l (map OnAccounts script).
Proof.
  revert l. induction script as [ | s script IH]; intros l; [ reflexivity | ].
  simpl. apply IH.
Qed.

Lemma ledger_reachable_run (l : ledger) (script : list account_stmt) :
  ledger_reachable l -> ledger_reachable (run_accounts l script).
Proof.
  intros [script0 ->]. exists (script0 ++ map OnAccounts script).
  rewrite run_accounts_as_ledger. unfold run_ledger.
  rewrite fold_left_app. reflexivity.
Qed.



Lemma logged_total_app (k : string) (rows rows' : list BalanceChange.t) :
  logged_total k (rows ++ rows')
  = logged_total k rows + logged_total k rows'.
Proof.
  unfold logged_total. rewrite filter_app, map_app.
  induction (map BalanceChange.change_amount
               (filter (fun h => String.eqb (BalanceChange.account_id h) k)
                       rows)) as [ | x l IH]; simpl; [ reflexivity | ].
  rewrite IH. lia.
Qed.

(** One statement: the account is still there, and its balance has moved
    by what the statement logged for it. *)
Lemma after_account_explained (l : ledger) (s : account_stmt)
    (a : Account.t) :
  ledger_ok l -> In a (account_rows l) ->
  exists a' new,
    In a' (account_rows (after_account l s))
    /\ Account.id a' = Account.id a
    /\ balance_history (after_account l s) = balance_history l ++ new
    /\ Account.balance a'
       = Account.balance a + logged_total (Account.id a) new.
Proof.
  intros Hl Hin.
  assert (Hsame : forall rows, In a rows ->
             exists a' new,
               In a' rows /\ Account.id a' = Account.id a
               /\ balance_history l = balance_history l ++ new
               /\ Account.balance a'
                  = Account.balance a + logged_total (Account.id a) new).
  { intros rows Hrows. exists a, []. split; [ exact Hrows | ].
    split; [ reflexivity | ].
    split; [ rewrite app_nil_r; reflexivity | ].
    unfold logged_total. simpl. lia. }
  unfold after_account. destruct s as [b | k set now user]; simpl.
  - unfold insert_account.
    destruct (check_account (account_rows l) b); simpl.
    + apply Hsame. apply in_or_app. left. exact Hin.
    + apply Hsame. exact Hin.
  - pose proof (update_account_cases l k set now user) as Hc.
    destruct (update_account_attempt l k set now user) as [[l' n] | e id_seq];
      [ | apply Hsame; exact Hin ].
    destruct Hc as [[_ [-> _]] | [old [u [Hfind [_ [_ [Hrows Hlog]]]]]]];
      [ apply Hsame; exact Hin | ].
    apply find_row_in in Hfind. destruct Hfind as [Hold Hk].
    rewrite Hrows.
    destruct (String.eqb_spec (Account.id a) k) as [Ea | Hne].
    + assert (a = old).
      { eapply (@NoDup_map_injective _ _ Account.id);
          [ exact (account_ids Hl) | exact Hin | exact Hold | congruence ]. }
      subst a. exists (Accounts.assign set old).
      destruct Hlog as [[Eb [-> _]] | [Hb [-> _]]].
      * exists [].
        split; [ apply in_or_app; right; left; reflexivity | ].
        split; [ reflexivity | ].
        split; [ rewrite app_nil_r; reflexivity | ].
        unfold logged_total. simpl in Eb |- *. lia.
      * eexists.
        split; [ apply in_or_app; right; left; reflexivity | ].
        split; [ reflexivity | ].
        split; [ reflexivity | ].
        unfold logged_total, balance_change. simpl.
        rewrite String.eqb_refl. simpl. lia.
    + exists a.
      assert (Ha : In a (others Account.id k (account_rows l))).
      { unfold others. apply filter_In. split; [ exact Hin | ].
        unfold has_key. apply negb_true_iff. apply String.eqb_neq.
        exact Hne. }
      destruct Hlog as [[Eb [-> _]] | [Hb [-> _]]].
      * exists [].
        split; [ apply in_or_app; left; exact Ha | ].
        split; [ reflexivity | ].
        split; [ rewrite app_nil_r; reflexivity | ].
        unfold logged_total. simpl. lia.
      * eexists.
        split; [ apply in_or_app; left; exact Ha | ].
        split; [ reflexivity | ].
        split; [ reflexivity | ].
        unfold logged_total, balance_change. simpl.
        assert (En : String.eqb (Account.id old) (Account.id a) = false).
        { apply String.eqb_neq. congruence. }
        rewrite En. simpl. lia.
Qed.

Lemma run_accounts_explained (script : list account_stmt) :
  forall (l : ledger) (a : Account.t),
    ledger_ok l -> In a (account_rows l) ->
    exists a' new,
      In a' (account_rows (run_accounts l script))
      /\ Account.id a' = Account.id a
      /\ balance_history (run_accounts l script) = balance_history l ++ new
      /\ Account.balance a'
         = Account.balance a + logged_total (Account.id a) new.
Proof.
  induction script as [ | s script IH]; intros l a Hl Hin.
  - exists a, []. simpl. split; [ exact Hin | ]. split; [ reflexivity | ].
    split; [ rewrite app_nil_r; reflexivity | ].
    unfold logged_total. simpl. lia.
  - destruct (@after_account_explained l s a Hl Hin)
      as [a1 [new1 [Hin1 [Hid1 [Hh1 Hb1]]]]].
    destruct (IH (after_account l s) a1 (after_account_ok s Hl) Hin1)
      as [a2 [new2 [Hin2 [Hid2 [Hh2 Hb2]]]]].
    exists a2, (new1 ++ new2). simpl.
    split; [ exact Hin2 | ]. split; [ congruence | ].
    split; [ rewrite Hh2, Hh1, app_assoc; reflexivity | ].
    rewrite logged_total_app, Hb2, Hb1, Hid1. lia.
Qed.

(** One statement on [accounts]: the rows it appends to the history are
    rows of the trigger, numbered from the sequence. *)
Lemma after_account_logged (l : ledger) (s : account_stmt) :
  ledger_ok l ->
  balance_history_id_seq l <= balance_history_id_seq (after_account l s)
  /\ exists new,
       balance_history (after_account l s) = balance_history l ++ new
       /\ Forall logged_row_ok new
       /\ Forall (fun h =>
                    balance_history_id_seq l < BalanceChange.id h
                    <= balance_history_id_seq (after_account l s)) new.
Proof.
  intros Hl.
  assert (Hnone : forall id_seq,
             balance_history_id_seq l <= id_seq ->
             balance_history_id_seq l <= id_seq
             /\ exists new,
                  balance_history l = balance_history l ++ new
                  /\ Forall logged_row_ok new
                  /\ Forall (fun h =>
                               balance_history_id_seq l < BalanceChange.id h
                               <= id_seq) new).
  { intros id_seq Hle. split; [ exact Hle | ]. exists [].
    split; [ rewrite app_nil_r; reflexivity | ].
    split; constructor. }
  unfold after_account. destruct s as [b | k set now user]; simpl.
  - unfold insert_account.
    destruct (check_account (account_rows l) b); simpl;
      apply (Hnone (balance_history_id_seq l)); lia.
  - pose proof (update_account_cases l k set now user) as Hc.
    destruct (update_account_attempt l k set now user) as [[l' n] | e id_seq];
      [ | exact (Hnone id_seq Hc) ].
    destruct Hc as [[_ [-> _]] | [old [u [Hfind [Hcheck [_ [Hrows Hlog]]]]]]].
    { apply (Hnone (balance_history_id_seq l)). lia. }
    apply check_account_all in Hcheck. destruct Hcheck as [Hrow _].
    apply find_row_in in Hfind. destruct Hfind as [Hold _].
    assert (Hchecked : Accounts.row_checks old = true).
    { pose proof (account_rows_checked Hl) as HF.
      rewrite Forall_forall in HF. apply HF. exact Hold. }
    destruct Hlog as [[_ [Hh Hs]] | [Hb [Hh [_ Hs]]]].
    + rewrite Hh, Hs. split; [ lia | ]. exists [].
      split; [ rewrite app_nil_r; reflexivity | ]. split; constructor.
    + rewrite Hh, Hs. split; [ lia | ]. eexists.
      split; [ reflexivity | ]. split.
      * constructor; [ | constructor ].
        apply trigger_row_logged; assumption.
      * constructor; [ simpl; lia | constructor ].
Qed.

Lemma run_accounts_logged (script : list account_stmt) :
  forall l,
    ledger_ok l ->
    balance_history_id_seq l <= balance_history_id_seq (run_accounts l script)
    /\ exists new,
         balance_history (run_accounts l script) = balance_history l ++ new
         /\ Forall logged_row_ok new
         /\ Forall (fun h =>
                      balance_history_id_seq l < BalanceChange.id h
                      <= balance_history_id_seq (run_accounts l script)) new.
Proof.
  induction script as [ | s script IH]; intros l Hl.
  - simpl. split; [ lia | ]. exists [].
    split; [ rewrite app_nil_r; reflexivity | ]. split; constructor.
  - destruct (@after_account_logged l s Hl) as [Hle1 [new1 [Hh1 [Hr1 Hi1]]]].
    destruct (IH (after_account l s) (after_account_ok s Hl))
      as [Hle2 [new2 [Hh2 [Hr2 Hi2]]]].
    simpl. split; [ lia | ]. exists (new1 ++ new2).
    split; [ rewrite Hh2, Hh1, app_assoc; reflexivity | ].
    split; [ apply Forall_app; split; assumption | ].
    apply Forall_app. split.
    + eapply Forall_impl; [ | exact Hi1 ]. simpl. intros h Hh. lia.
    + eapply Forall_impl; [ | exact Hi2 ]. simpl. intros h Hh. lia.
Qed.



(** X23. The rows that the trigger writes are real changes. In a reachable
    state the ids of [balance_history] are pairwise distinct and no account
    balance is negative; and whatever statements on [accounts] run from it,
    every row they append to the history has as amount the new balance minus
    the previous one, not zero, has both balances non-negative, has the type
    CREDIT for a positive amount and DEBIT for a negative one (never
    ADJUSTMENT or CORRECTION), has no settlement and no invoice, and has an id
    drawn from the sequence meanwhile. Rows that an [INSERT] into
    [balance_history] brought are outside this statement: the table admits
    any of them that fits its columns. *)
Theorem X23_rows_of_the_trigger_are_real_changes (l : ledger)
    (script : list account_stmt) :
  ledger_reachable l ->
  NoDup (map BalanceChange.id (balance_history l))
  /\ Forall (fun a => 0 <= Account.balance a) (account_rows l)
  /\ exists new,
       balance_history (run_accounts l script) = balance_history l ++ new
       /\ Forall logged_row_ok new
       /\ Forall (fun h =>
                    balance_history_id_seq l < BalanceChange.id h
                    <= balance_history_id_seq (run_accounts l script)) new.
Proof.
  intros Hreach. pose proof (ledger_reachable_ok Hreach) as Hl.
  split; [ exact (history_ids Hl) | ]. split.
  - pose proof (account_rows_checked Hl) as HF.
    rewrite Forall_forall in HF |- *. intros a Ha.
    apply (row_checks_balance a (HF a Ha)).
  - apply run_accounts_logged. exact Hl.
Qed.

Lemma X23_witness :
  exists new,
    balance_history (run_accounts initial_ledger transfer_script) = [] ++ new
    /\ Forall logged_row_ok new
    /\ map BalanceChange.id new = [1; 2].
Proof.
  destruct (@X23_rows_of_the_trigger_are_real_changes initial_ledger
              transfer_script ledger_reachable_initial)
    as [_ [_ [new [Hh [Hrows _]]]]].
  exists new. split; [ exact Hh | ]. split; [ exact Hrows | ].
  simpl in Hh. rewrite <- Hh. vm_compute. reflexivity.
Defined.

(** X24. The history explains every balance: whatever statements run from
    a reachable state, an account that was there is still there, under the
    same id, and its balance has moved by exactly the sum of the amounts the
    statements logged for it. From the seed state on, a balance is the seed
    balance plus the sum of that account's history. *)
Theorem X24_balance_is_explained_by_history (l : ledger)
    (script : list account_stmt) (a : Account.t) :
  ledger_reachable l -> In a (account_rows l) ->
  exists a' new,
    find_row Account.id (Account.id a)
             (account_rows (run_accounts l script)) = Some a'
    /\ balance_history (run_accounts l script) = balance_history l ++ new
    /\ Account.balance a'
       = Account.balance a + logged_total (Account.id a) new.
Proof.
  intros Hreach Hin. pose proof (ledger_reachable_ok Hreach) as Hl.
  destruct (@run_accounts_explained script l a Hl Hin)
    as [a' [new [Hin' [Hid [Hh Hb]]]]].
  exists a', new. split; [ | split; assumption ].
  rewrite <- Hid. apply find_row_unique; [ | exact Hin' ].
  apply account_ids. apply run_accounts_ok. exact Hl.
Qed.

Lemma X24_witness :
  exists a' new,
    find_row Account.id "SUP-001"
             (account_rows (run_accounts initial_ledger transfer_script))
    = Some a'
    /\ balance_history (run_accounts initial_ledger transfer_script)
       = [] ++ new
    /\ Account.balance a'
       = Decimal.usd 50000 0 + logged_total "SUP-001" new.
Proof.
  assert (Hreach : ledger_reachable initial_ledger) by (exists []; reflexivity).
  apply (@X24_balance_is_explained_by_history initial_ledger transfer_script
           (Account.mk "SUP-001" "SUPPLIER" "Acme Manufacturing"
              "finance@acme-mfg.com" "ACTIVE" "VERIFIED"
              (Decimal.usd 50000 0) None) Hreach).
  left. reflexivity.
Defined.


